(** * mml.cpp: a command line MML player

    A verification development for [mml.cpp]: the notation sequencer
    ([MMLPlayer]), the band-limited square wavetable ([SquareWavetable])
    and the sample renderer ([GenerateSongSquareWave]).

    Conventions of the embedding.
    - C++ [int], [size_t], [uint32_t] and [int16_t] values are [Z]; where the
      source relies on wrap-around (the phase accumulator, [UINT32_MAX * 2])
      the reduction modulo [2^32] is written out.
    - [char] is [ascii]; its integer value is the signed 8-bit one.
    - [float] and [double] are [spec_float] at precision 24 and 53, with the
      round-to-nearest-even operations of [SpecFloat]; [sinf] and [pow] come
      from the C library and are parameters.
    - A [throw] and an out-of-range [operator[]] are outcomes of their own;
      [GenerateSongSquareWave_at] is the render as the machine runs it, the
      read past the note table returning the word that follows the table.
    - A file is the list of its bytes; objects are laid out as on the
      x86-64, least significant byte first. [main] is the one built without
      [_WIN32]: it plays nothing. *)

From Stdlib Require Import ZArith List String Ascii Bool Lia SpecFloat.
Import ListNotations.
Local Open Scope Z_scope.

(** ** Outcomes of fallible code *)

Inductive outcome (A : Type) : Type :=
| Ok (a : A)
| Throw (what : string)      (* throw std::domain_error(what) *)
| OutOfBounds (idx : Z)      (* operator[] outside the container *)
| OutOfFuel.                 (* the step budget of the model ran out *)

Arguments Ok {A} a.
Arguments Throw {A} what.
Arguments OutOfBounds {A} idx.
Arguments OutOfFuel {A}.

Definition bind {A B : Type} (c : outcome A) (k : A -> outcome B) : outcome B :=
  match c with
  | Ok a => k a
  | Throw what => Throw what
  | OutOfBounds idx => OutOfBounds idx
  | OutOfFuel => OutOfFuel
  end.

Notation "x <- c ;; k" := (bind c (fun x => k))
  (at level 61, c at next level, right associativity).
Notation "' pat <- c ;; k" := (bind c (fun x => match x with pat => k end))
  (at level 61, pat pattern, c at next level, right associativity).

(** [a[i]] for [std::array] and [std::vector]. *)
Definition at_ {A : Type} (a : list A) (i : Z) : outcome A :=
  if i <? 0 then OutOfBounds i
  else match nth_error a (Z.to_nat i) with
       | Some x => Ok x
       | None => OutOfBounds i
       end.

Notation "a .[ i ]" := (at_ a i) (at level 1, left associativity, format "a .[ i ]").

(** ** Constants *)

Definition NUM_OCTAVES : Z := 3.
Definition NOTES_PER_OCTAVE : Z := 12.
Definition NOTE_A_440 : Z := 21.
Definition SAMPLE_RATE : Z := 44100.
Definition TICK_LENGTH : Z := 2700.
Definition WAVETABLE_SIZE : Z := 1024.
Definition WAVETABLE_SHIFT : Z := 22.
Definition WAVETABLE_MASK : Z := 0x3FFFFF.
Definition WAVETABLE_NUM_TABLES : Z := 8.
Definition UINT32_MAX : Z := 4294967295.

Definition letterToNoteNumber : list Z :=
  (* a   b   c  d  e  f  g *)
  [  9; 11;  0; 2; 4; 5; 7 ].

Definition lengthNumberToTickCount : list Z :=
  (* 0  1  2  3  4  5  6   7   8   9 *)
  [  1; 2; 3; 4; 6; 8; 12; 16; 24; 32 ].

(** ** Floating point

    [float] is IEEE 754 binary32 and [double] binary64. *)

Definition float : Type := spec_float.
Definition double : Type := spec_float.

Definition fadd : float -> float -> float := SFadd 24 128.
Definition fsub : float -> float -> float := SFsub 24 128.
Definition fmul : float -> float -> float := SFmul 24 128.
Definition fdiv : float -> float -> float := SFdiv 24 128.
Definition fltb : float -> float -> bool := SFltb.

Definition dmul : double -> double -> double := SFmul 53 1024.
Definition ddiv : double -> double -> double := SFdiv 53 1024.

(** Integer to floating point, rounded to nearest. *)
Definition float_of_int (n : Z) : float := binary_normalize 24 128 n 0 false.
Definition double_of_int (n : Z) : double := binary_normalize 53 1024 n 0 false.

(** [double] to [float], rounded to nearest. *)
Definition float_of_double (d : double) : float :=
  match d with
  | S754_finite s m e => binary_round 24 128 s m e
  | _ => d
  end.

(** Floating point to integer: the fraction is discarded. *)
Definition truncate (x : spec_float) : Z :=
  match x with
  | S754_finite s m e => cond_Zopp s (Z.shiftl (Zpos m) e)
  | _ => 0
  end.

(** The casts [(uint32_t)x] and [(int16_t)x]; a value that does not fit is
    reduced to the width of the target, as the x86-64 conversion does. *)
Definition uint32_of_float (x : spec_float) : Z := truncate x mod 2^32.
Definition int16_of_float (x : spec_float) : Z := (truncate x + 2^15) mod 2^16 - 2^15.

(** [3.14159265358979323846f] is the binary32 number [0x40490FDB]. *)
Definition PI : float := S754_finite false 13176795 (-22).
Definition WAVETABLE_BASE_FREQ : float := float_of_int 40.
Definition WAVETABLE_CUTOFF_FREQ : float := float_of_int 20000.

(** ** Arrays *)

(** Storage of [n] elements that nothing has initialised yet: its contents
    are whatever [junk] the memory holds. *)
Definition uninitialized {A : Type} (n : Z) (junk : Z -> A) : list A :=
  map (fun i => junk (Z.of_nat i)) (seq 0 (Z.to_nat n)).

(** [a[i] = x]. *)
Fixpoint array_set_nat {A : Type} (a : list A) (i : nat) (x : A) : list A :=
  match a, i with
  | [], _ => []
  | _ :: a, O => x :: a
  | y :: a, S i => y :: array_set_nat a i x
  end.

Definition array_set {A : Type} (a : list A) (i : Z) (x : A) : list A :=
  if i <? 0 then a else array_set_nat a (Z.to_nat i) x.

(** [a[i]] where the index is a loop counter below the size of the array. *)
Definition array_get {A : Type} (d : A) (a : list A) (i : Z) : A :=
  nth (Z.to_nat i) a d.

(** [for (i = from; i < to; i++)] over a state. *)
Definition for_range {S : Type} (from to : Z) (body : S -> Z -> S) (s : S) : S :=
  fold_left body (map (fun k => from + Z.of_nat k) (seq 0 (Z.to_nat (to - from)))) s.

(** ** Characters *)

(** The value of a [char] as an [int] ([char] is signed). *)
Definition char_to_int (c : ascii) : Z :=
  let n := Z.of_N (N_of_ascii c) in
  if n <? 128 then n else n - 256.

(** Conversion of an [int] to [char]. *)
Definition int_to_char (n : Z) : Z :=
  let m := n mod 256 in
  if m <? 128 then m else m - 256.

(** [toupper] in the "C" locale. *)
Definition toupper (c : ascii) : ascii :=
  let n := N_of_ascii c in
  if ((97 <=? n) && (n <=? 122))%N then ascii_of_N (n - 32) else c.

(** ** The sequencer *)

Record MMLPlayer : Type := mkMMLPlayer {
  noteToPhaseRate : list Z;
  song : list ascii;
  position : Z;
  octave : Z;
  output : Z;
  tempo : Z;
  counts : Z
}.

Definition set_position (p : MMLPlayer) (v : Z) : MMLPlayer :=
  mkMMLPlayer (noteToPhaseRate p) (song p) v (octave p) (output p) (tempo p) (counts p).
Definition set_octave (p : MMLPlayer) (v : Z) : MMLPlayer :=
  mkMMLPlayer (noteToPhaseRate p) (song p) (position p) v (output p) (tempo p) (counts p).
Definition set_output (p : MMLPlayer) (v : Z) : MMLPlayer :=
  mkMMLPlayer (noteToPhaseRate p) (song p) (position p) (octave p) v (tempo p) (counts p).
Definition set_tempo (p : MMLPlayer) (v : Z) : MMLPlayer :=
  mkMMLPlayer (noteToPhaseRate p) (song p) (position p) (octave p) (output p) v (counts p).
Definition set_counts (p : MMLPlayer) (v : Z) : MMLPlayer :=
  mkMMLPlayer (noteToPhaseRate p) (song p) (position p) (octave p) (output p) (tempo p) v.

Definition IsDone (p : MMLPlayer) : bool := position p <? 0.

(** [Load]: upper-case the text, append the terminator, reset the state. *)
Definition Load (p : MMLPlayer) (songstr : list ascii) : MMLPlayer :=
  mkMMLPlayer (noteToPhaseRate p) (map toupper songstr ++ ["000"%char]) 0 1 0 4 0.

(** [ReadNumber]: one character, as a number, checked against [min..max]. *)
Definition ReadNumber (min max : Z) (errorstr : string) (p : MMLPlayer)
  : outcome (Z * MMLPlayer) :=
  c <- (song p).[position p] ;;
  let p := set_position p (position p + 1) in
  let next := int_to_char (char_to_int c - char_to_int "0") in
  if (min <=? next) && (next <=? max) then Ok (next, p) else Throw errorstr.

(** The optional sharp or flat after a note name; [next] has been consumed. *)
Definition applyAccidental (next : ascii) (pitch : Z) (p : MMLPlayer) : Z * MMLPlayer :=
  match next with
  | "#"%char | "+"%char => (pitch + 1, p)
  | "-"%char => (pitch - 1, p)
  | _ => (pitch, set_position p (position p - 1))
  end.

Definition clampPitch (pitch : Z) : Z :=
  if pitch >=? NUM_OCTAVES * NOTES_PER_OCTAVE then pitch - 1
  else if pitch <? 0 then pitch + 1
  else pitch.

(** The body of the [while (!done)] loop of [Tick]: one command character,
    with the value of [done] after it. *)
Definition TickBody (p : MMLPlayer) : outcome (bool * MMLPlayer) :=
  curr <- (song p).[position p] ;;
  let p := set_position p (position p + 1) in
  match curr with
  | "000"%char => (* End of song *)
      Ok (true, set_output (set_position p (-1)) 0)
  | ">"%char => (* Octave up *)
      Ok (false, if octave p <? NUM_OCTAVES - 1 then set_octave p (octave p + 1) else p)
  | "<"%char => (* Octave down *)
      Ok (false, if octave p >? 0 then set_octave p (octave p - 1) else p)
  | "O"%char => (* Set octave *)
      '(n, p) <- ReadNumber 0 (NUM_OCTAVES - 1) "Invalid O command in song string" p ;;
      Ok (false, set_octave p n)
  | "T"%char => (* Set tempo *)
      '(n, p) <- ReadNumber 0 9 "Invalid T command in song string" p ;;
      Ok (false, set_tempo p n)
  | " "%char | "010"%char | "013"%char | "009"%char => (* Skip whitespace *)
      Ok (false, p)
  | "R"%char => (* Rest - output silence *)
      '(n, p) <- ReadNumber 0 9 "Invalid R command in song string" p ;;
      len <- lengthNumberToTickCount.[n] ;;
      Ok (true, set_output (set_counts p ((tempo p + 1) * len)) 0)
  | "A"%char | "B"%char | "C"%char | "D"%char
  | "E"%char | "F"%char | "G"%char => (* Note - output wave at pitch *)
      pitch <- letterToNoteNumber.[char_to_int curr - char_to_int "A"] ;;
      next <- (song p).[position p] ;;
      let p := set_position p (position p + 1) in
      let '(pitch, p) := applyAccidental next pitch p in
      let pitch := clampPitch pitch in
      '(n, p) <- ReadNumber 0 9 "Inavlid count number in note command in song string" p ;;
      len <- lengthNumberToTickCount.[n] ;;
      let p := set_counts p ((tempo p + 1) * len) in
      rate <- (noteToPhaseRate p).[pitch + octave p * 12] ;;
      Ok (true, set_output p rate)
  | _ => Throw "Invalid character in song string"
  end.

(** The [while (!done)] loop; every pass consumes a character, so the
    characters of the song bound the number of passes. *)
Fixpoint TickLoop (fuel : nat) (p : MMLPlayer) : outcome MMLPlayer :=
  match fuel with
  | O => OutOfFuel
  | S fuel =>
    '(done, p) <- TickBody p ;;
    if done : bool then Ok p else TickLoop fuel p
  end.

(** [Tick]: the phase rate of the next tick of the song. *)
Definition Tick (p : MMLPlayer) : outcome (Z * MMLPlayer) :=
  let p := set_counts p (counts p - 1) in
  if counts p >? 0 then Ok (output p, p)
  else if position p <? 0 then Ok (0, p)
  else
    p <- TickLoop (S (List.length (song p))) p ;;
    Ok (output p, p).

(** ** The band-limited wavetables and the renderer *)

Record SquareWavetable : Type := mkSquareWavetable {
  data : list (list float);
  topPhaseRate : list Z
}.

Section Synth.

(** [sinf] and [pow] of the C library. *)
Variable sinf : float -> float.
Variable pow : double -> double -> double.

(** The innermost loop of [Generate]: one harmonic added to a table. *)
Definition addHarmonic (harmonic : Z) (table : list float) : list float :=
  (* Square wave rule: only odd harmonics with inverse proportion decay *)
  if negb (Z.odd harmonic) then table
  else
    let level := float_of_double (ddiv (double_of_int 1) (double_of_int harmonic)) in
    for_range 0 WAVETABLE_SIZE (fun table i =>
      array_set table i
        (fadd (array_get S754_nan table i)
              (fmul level
                 (sinf (fdiv (fmul (fmul (fmul (float_of_int 2) PI) (float_of_int harmonic))
                                   (float_of_int i))
                             (float_of_int WAVETABLE_SIZE))))))
      table.

(** [*std::max_element(first, last)]: the first of the largest elements. *)
Definition max_element (a : list float) : float :=
  match a with
  | [] => S754_nan
  | x :: a => fold_left (fun best y => if fltb best y then y else best) a x
  end.

(** The state of the loop over [tableNum] in [Generate]. *)
Record GenerateState : Type := mkGenerateState {
  g_table : SquareWavetable;
  g_frequency : float;
  g_maxHarmonics : Z
}.

(** One table: the odd harmonics up to [maxHarmonics], normalized. *)
Definition squareTable (maxHarmonics : Z) : list float :=
  let table := repeat (S754_zero false) (Z.to_nat WAVETABLE_SIZE) in
  let table := for_range 1 (maxHarmonics + 1) (fun t harmonic => addHarmonic harmonic t) table in
  (* Normalize the waveform *)
  let max := max_element table in
  map (fun elem => fdiv elem max) table.

(** [(uint32_t)(UINT32_MAX * 2 * frequency / sampleRate)]; the product
    [UINT32_MAX * 2] is an unsigned one. *)
Definition thresholdRate (sampleRate : Z) (frequency : float) : Z :=
  uint32_of_float
    (fdiv (fmul (float_of_int ((UINT32_MAX * 2) mod 2^32)) frequency)
          (float_of_int sampleRate)).

(** [maxHarmonics /= 2; if (maxHarmonics == 0) { maxHarmonics = 1; }] *)
Definition halveHarmonics (maxHarmonics : Z) : Z :=
  let maxHarmonics := Z.quot maxHarmonics 2 in
  if maxHarmonics =? 0 then 1 else maxHarmonics.

Definition GenerateStep (sampleRate : Z) (g : GenerateState) (tableNum : Z) : GenerateState :=
  let w := g_table g in
  let frequency := g_frequency g in
  let maxHarmonics := g_maxHarmonics g in
  mkGenerateState
    (mkSquareWavetable
       (array_set (data w) tableNum (squareTable maxHarmonics))
       (array_set (topPhaseRate w) tableNum (thresholdRate sampleRate frequency)))
    (fmul frequency (float_of_int 2))
    (halveHarmonics maxHarmonics).

Definition Generate (w : SquareWavetable) (sampleRate : Z) : SquareWavetable :=
  let frequency := WAVETABLE_BASE_FREQ in
  let maxHarmonics := truncate (fdiv WAVETABLE_CUTOFF_FREQ WAVETABLE_BASE_FREQ) in
  g_table (for_range 0 WAVETABLE_NUM_TABLES (GenerateStep sampleRate)
             (mkGenerateState w frequency maxHarmonics)).

(** [std::lower_bound(first, last, val)] over the array [a], on positions:
    the usual halving search. *)
Fixpoint lower_bound_loop (fuel : nat) (a : list Z) (first len val : Z) : Z :=
  match fuel with
  | O => first
  | S fuel =>
    if len >? 0 then
      let half := Z.shiftr len 1 in
      let middle := first + half in
      if array_get 0 a middle <? val
      then lower_bound_loop fuel a (middle + 1) (len - half - 1) val
      else lower_bound_loop fuel a first half val
    else first
  end.

Definition lower_bound (a : list Z) (first last val : Z) : Z :=
  lower_bound_loop (Z.to_nat (last - first)) a first (last - first) val.

(** [GetTable]: the index of the lowest table that will not alias. *)
Definition GetTable (w : SquareWavetable) (phaseRate : Z) : Z :=
  lower_bound (topPhaseRate w) 0 (WAVETABLE_NUM_TABLES - 1) phaseRate.

(** [Lookup]: linear interpolation in the selected table. *)
Definition Lookup (w : SquareWavetable) (phase table : Z) : float :=
  let left := Z.shiftr phase WAVETABLE_SHIFT in
  let right := Z.shiftr ((phase + WAVETABLE_MASK + 1) mod 2^32) WAVETABLE_SHIFT in
  let fraction :=
    fdiv (float_of_int (Z.land phase WAVETABLE_MASK)) (float_of_int (WAVETABLE_MASK + 1)) in
  let s1 := array_get S754_nan (array_get [] (data w) table) left in
  let s2 := array_get S754_nan (array_get [] (data w) table) right in
  fadd s1 (fmul (fsub s2 s1) fraction).

(** The indeterminate contents of the storage in which a render builds its
    objects. The word that follows the note table in the player is no part
    of it: [MMLPlayer_in_memory] below adds that word. *)
Record Memory : Type := mkMemory {
  m_data : Z -> Z -> float;
  m_topPhaseRate : Z -> Z;
  m_noteToPhaseRate : Z -> Z
}.

(** [SquareWavetable(int sampleRate)]. *)
Definition SquareWavetable_new (m : Memory) (sampleRate : Z) : SquareWavetable :=
  Generate
    (mkSquareWavetable
       (uninitialized WAVETABLE_NUM_TABLES
          (fun t => uninitialized WAVETABLE_SIZE (m_data m t)))
       (uninitialized WAVETABLE_NUM_TABLES (m_topPhaseRate m)))
    sampleRate.

(** The phase rate of note [i]: [(uint32_t)(UINT32_MAX * rate)]. *)
Definition notePhaseRate (sampleRate : Z) (i : Z) : Z :=
  let diff := double_of_int (i - NOTE_A_440) in
  let freq := dmul (double_of_int 440)
                   (pow (double_of_int 2) (ddiv diff (double_of_int 12))) in
  let rate := ddiv freq (double_of_int sampleRate) in
  uint32_of_float (dmul (double_of_int UINT32_MAX) rate).

(** [MMLPlayer(int sampleRate)]. *)
Definition MMLPlayer_new (m : Memory) (sampleRate : Z) : MMLPlayer :=
  let noteToPhaseRate :=
    for_range 0 (NUM_OCTAVES * NOTES_PER_OCTAVE)
      (fun tbl i => array_set tbl i (notePhaseRate sampleRate i))
      (uninitialized (NUM_OCTAVES * NOTES_PER_OCTAVE) (m_noteToPhaseRate m)) in
  mkMMLPlayer noteToPhaseRate [] 0 1 0 4 0.

(** [MMLPlayer(int sampleRate, const char *songstr, int songstrLen)]. *)
Definition MMLPlayer_new_song (m : Memory) (sampleRate : Z) (songstr : list ascii) : MMLPlayer :=
  Load (MMLPlayer_new m sampleRate) songstr.

(** The variables of [GenerateSongSquareWave]. *)
Record RenderState : Type := mkRenderState {
  r_wavetable : SquareWavetable;
  r_player : MMLPlayer;
  r_data : list Z;
  r_phase : Z;
  r_phaseRate : Z
}.

(** The samples of one sounding tick: [TICK_LENGTH] lookups, the phase
    advancing by [phaseRate] modulo [2^32]. *)
Definition renderTick (w : SquareWavetable) (tableNum phaseRate : Z)
    (st : list Z * Z) : list Z * Z :=
  for_range 0 TICK_LENGTH (fun '(samples, phase) _ =>
    let sample := Lookup w phase tableNum in
    (samples ++ [int16_of_float (fmul (float_of_int 16384) sample)],
     (phase + phaseRate) mod 2^32))
    st.

(** The body of the loop of [GenerateSongSquareWave]: one tick. [Tick]
    changes the player; [GetTable] and [Lookup] only read the wavetables. *)
Definition renderBody (st : RenderState) : outcome RenderState :=
  let wavetable := r_wavetable st in
  '(phaseRate, player) <- Tick (r_player st) ;;
  let tableNum := GetTable wavetable phaseRate in
  if phaseRate =? 0 then
    Ok (mkRenderState wavetable player
          (r_data st ++ repeat 0 (Z.to_nat TICK_LENGTH)) (r_phase st) phaseRate)
  else
    let '(samples, phase) :=
      renderTick wavetable tableNum phaseRate (r_data st, r_phase st) in
    Ok (mkRenderState wavetable player samples phase phaseRate).

(** [for (int i = 0; !player.IsDone(); i++)]. *)
Fixpoint renderLoop (fuel : nat) (st : RenderState) : outcome (list Z) :=
  match fuel with
  | O => OutOfFuel
  | S fuel =>
    if IsDone (r_player st) then Ok (r_data st)
    else
      st <- renderBody st ;;
      renderLoop fuel st
  end.

(** A note or rest lasts at most [10 * 32] ticks, and the song has no more
    notes and rests than characters. *)
Definition tickBudget (p : MMLPlayer) : nat :=
  (2 + 320 * List.length (song p))%nat.

Definition GenerateSongSquareWave (m : Memory) (songstr : list ascii) : outcome (list Z) :=
  let wavetable := SquareWavetable_new m SAMPLE_RATE in
  let player := MMLPlayer_new_song m SAMPLE_RATE songstr in
  renderLoop (tickBudget player) (mkRenderState wavetable player [] 0 0).

End Synth.

(** ** Views of a run *)

(** The first [n] passes of the render loop. *)
Fixpoint renderIter (n : nat) (st : RenderState) : outcome RenderState :=
  match n with
  | O => Ok st
  | S n => st <- renderBody st ;; renderIter n st
  end.

(** The phase rates that [Tick] returns, call after call, until [IsDone]. *)
Fixpoint tickRates (fuel : nat) (p : MMLPlayer) : outcome (list Z) :=
  match fuel with
  | O => OutOfFuel
  | S fuel =>
    if IsDone p then Ok []
    else
      '(rate, p) <- Tick p ;;
      rates <- tickRates fuel p ;;
      Ok (rate :: rates)
  end.

(** The duration digit that [ReadNumber] has just read. *)
Definition digitAt (p : MMLPlayer) : Z :=
  int_to_char (char_to_int (array_get "000"%char (song p) (position p - 1))
               - char_to_int "0").

(** A note or rest of the song: its phase rate, the tempo in force, its
    duration digit and its number of ticks. *)
Record Event : Type := mkEvent { e_rate : Z; e_tempo : Z; e_digit : Z; e_ticks : Z }.

(** The notes and rests of the song from the position of [p] on, parsed by
    the loop of [Tick]. *)
Fixpoint songEventsFrom (fuel : nat) (p : MMLPlayer) : outcome (list Event) :=
  match fuel with
  | O => OutOfFuel
  | S fuel =>
    p <- TickLoop (S (List.length (song p))) p ;;
    if IsDone p then Ok []
    else
      events <- songEventsFrom fuel p ;;
      Ok (mkEvent (output p) (tempo p) (digitAt p) (counts p) :: events)
  end.

Definition songEvents (p : MMLPlayer) : outcome (list Event) :=
  songEventsFrom (S (List.length (song p))) p.

Definition totalTicks (events : list Event) : Z :=
  fold_right (fun e n => e_ticks e + n) 0 events.

Definition chars (s : string) : list ascii := list_ascii_of_string s.

(** The two effects of [applyAccidental], apart: the change of pitch, and
    whether the character is given back. *)
Definition accidentalShift (next : ascii) : Z :=
  fst (applyAccidental next 0 (mkMMLPlayer [] [] 0 0 0 0 0)).
Definition accidentalUnread (next : ascii) : Z :=
  - position (snd (applyAccidental next 0 (mkMMLPlayer [] [] 0 0 0 0 0))).

(** What one pass of the loop of [Tick] can do to the player. *)
Inductive TickBodyKind (p p' : MMLPlayer) : bool -> Prop :=
| EndOfSong :
    position p' = -1 -> output p' = 0 -> counts p' = counts p ->
    TickBodyKind p p' true
| Modifier :
    position p < position p' <= Z.of_nat (List.length (song p)) ->
    output p' = output p -> counts p' = counts p ->
    TickBodyKind p p' false
| NoteOrRest (len : Z) :
    position p < position p' <= Z.of_nat (List.length (song p)) ->
    lengthNumberToTickCount.[digitAt p'] = Ok len ->
    counts p' = (tempo p' + 1) * len ->
    tempo p' = tempo p ->
    TickBodyKind p p' true.

(** [Tick] decrements [counts] before its loop runs; the loop itself never
    reads [counts], it only overwrites it at a note or rest. *)
Definition keep_counts (c : Z) (r : bool * MMLPlayer) : outcome (bool * MMLPlayer) :=
  let '(done, p') := r in
  Ok (done, if done && (0 <=? position p') then p' else set_counts p' c).

(** What the loop of [Tick] leaves behind when it returns. *)
Inductive TickLoopKind (p p' : MMLPlayer) : Prop :=
| SongEnded :
    position p' = -1 -> output p' = 0 -> counts p' = counts p ->
    TickLoopKind p p'
| EventRead (len : Z) :
    position p < position p' <= Z.of_nat (List.length (song p)) ->
    lengthNumberToTickCount.[digitAt p'] = Ok len ->
    counts p' = (tempo p' + 1) * len ->
    TickLoopKind p p'.

Definition keep_counts_loop (c : Z) (p' : MMLPlayer) : outcome MMLPlayer :=
  Ok (if 0 <=? position p' then p' else set_counts p' c).

(** The frequency and the number of harmonics with which [Generate] reaches
    table [k]. *)
Definition tableFrequency (k : nat) : float :=
  Nat.iter k (fun frequency => fmul frequency (float_of_int 2)) WAVETABLE_BASE_FREQ.
Definition tableHarmonics (k : nat) : Z :=
  Nat.iter k halveHarmonics (truncate (fdiv WAVETABLE_CUTOFF_FREQ WAVETABLE_BASE_FREQ)).

(** How a run of the render loop follows the notes and rests of the song. *)
Definition follows (r : outcome (list Event)) (samples : list Z) (o : outcome (list Z)) : Prop :=
  match r with
  | Ok events =>
      exists body,
        o = Ok (samples ++ body ++ repeat 0 (Z.to_nat TICK_LENGTH))
        /\ Z.of_nat (List.length body) = TICK_LENGTH * totalTicks events
  | Throw what => o = Throw what
  | OutOfBounds idx => o = OutOfBounds idx
  | OutOfFuel => True
  end.

(** The thresholds of a bank grow with the table index. *)
Definition increasing (a : list Z) : Prop :=
  forall i j, 0 <= i -> i < j -> j < Z.of_nat (List.length a) ->
              array_get 0 a i < array_get 0 a j.

Fixpoint increasingb (a : list Z) : bool :=
  match a with
  | x :: (y :: _) as a' => (x <? y) && increasingb a'
  | _ => true
  end.

(** ** The C library *)

(** The binary64 number [d] is [mant * 2^e], positive and normal, and within
    one unit in the last place of [2^(q/4)]. *)
Definition near_pow2_quarters (q : Z) (d : double) : Prop :=
  exists mant e,
    d = S754_finite false mant e
    /\ 2^52 <= Zpos mant < 2^53
    /\ 0 <= q - 4 * e
    /\ (Zpos mant - 1) ^ 4 <= 2 ^ (q - 4 * e) <= (Zpos mant + 1) ^ 4.

(** [pow(2, y)] is accurate to one unit in the last place for the exponents
    [y = q/4] that the note table asks for: those of the notes three
    semitones apart, from C of octave 0 up. *)
Definition pow_accurate (pow : double -> double -> double) : Prop :=
  forall q, -7 <= q <= 4 ->
    near_pow2_quarters q (pow (double_of_int 2) (ddiv (double_of_int q) (double_of_int 4))).

(** Instances on which the model runs: a [pow] that takes the exponent in
    steps of a quarter (and is exact to 100 bits before the final rounding
    there), a [sinf] for small angles, and a memory full of zeros. *)
Definition pow_quarters (x y : double) : double :=
  let q := truncate (dmul y (double_of_int 4)) in
  binary_normalize 53 1024 (Z.sqrt (Z.sqrt (2 ^ (q mod 4) * 2 ^ 400))) (q / 4 - 100) false.

Definition sinf_small (x : float) : float :=
  fsub x (fdiv (fmul (fmul x x) x) (float_of_int 6)).

Definition memory_zero : Memory :=
  mkMemory (fun _ _ => S754_zero false) (fun _ => 0) (fun _ => 0).

(** Every note and rest lasts [(tempo + 1) * lengthNumberToTickCount[digit]]
    ticks, for the tempo in force and its duration digit. *)
Definition event_ticks_ok (e : Event) : Prop :=
  0 <= e_tempo e <= 9 /\ 0 <= e_digit e <= 9
  /\ exists len, lengthNumberToTickCount.[e_digit e] = Ok len
                 /\ e_ticks e = (e_tempo e + 1) * len.

(** ** The player between two calls of [Tick] *)

(** [n] calls of [Tick], one after the other. *)
Fixpoint tickIter (n : nat) (p : MMLPlayer) : outcome MMLPlayer :=
  match n with
  | O => Ok p
  | S n => '(_, p) <- Tick p ;; tickIter n p
  end.

(** What holds of a player from [Load] on, between two calls of [Tick]. *)
Record player_ok (p : MMLPlayer) : Prop := mk_player_ok {
  ok_table : Z.of_nat (List.length (noteToPhaseRate p)) = NUM_OCTAVES * NOTES_PER_OCTAVE;
  ok_octave : 0 <= octave p <= NUM_OCTAVES - 1;
  ok_tempo : 0 <= tempo p <= 9;
  ok_song : exists text, song p = text ++ ["000"%char];
  ok_position : (position p = -1 /\ output p = 0)
                \/ 0 <= position p < Z.of_nat (List.length (song p));
  ok_counts : counts p <= 320
}.

(** The phase rates of the ticks of a list of notes and rests. *)
Definition eventRates (events : list Event) : list Z :=
  flat_map (fun e => repeat (e_rate e) (Z.to_nat (e_ticks e))) events.


(** A sample that fits [int16_t]. *)
Definition int16 (s : Z) : Prop := - 2 ^ 15 <= s < 2 ^ 15.

(** The sums of harmonics of a table before [Generate] normalizes it, and
    the binary32 number 1.0. *)
Definition harmonics (sinf : float -> float) (maxHarmonics : Z) : list float :=
  for_range 1 (maxHarmonics + 1) (fun t harmonic => addHarmonic sinf harmonic t)
    (repeat (S754_zero false) (Z.to_nat WAVETABLE_SIZE)).

Definition float_one : float := S754_finite false 8388608 (-23).

(** ** The notation, command by command

    The commands as the description of the notation has them, in the upper
    case that [Load] leaves; [Tick] is compared with them below. *)

Inductive command : Type :=
| OctaveUp
| OctaveDown
| SetOctave (digit : ascii)
| SetTempo (digit : ascii)
| Blank (space : ascii)
| Rest (digit : ascii)
| Note (letter : ascii) (accidental : option ascii) (digit : ascii).

Definition command_chars (c : command) : list ascii :=
  match c with
  | OctaveUp => [">"%char]
  | OctaveDown => ["<"%char]
  | SetOctave digit => ["O"%char; digit]
  | SetTempo digit => ["T"%char; digit]
  | Blank space => [space]
  | Rest digit => ["R"%char; digit]
  | Note letter None digit => [letter; digit]
  | Note letter (Some accidental) digit => [letter; accidental; digit]
  end.

Definition digit_value (digit : ascii) : Z := Z.of_N (N_of_ascii digit) - 48.

Definition digit_in (min max : Z) (digit : ascii) : bool :=
  (min <=? digit_value digit) && (digit_value digit <=? max).

Definition one_of (l : list ascii) (c : ascii) : bool := existsb (Ascii.eqb c) l.

(** A command is valid when its letter is one of the notation and its digit
    is in the range of the command. *)
Definition valid_command (c : command) : bool :=
  match c with
  | OctaveUp | OctaveDown => true
  | SetOctave digit => digit_in 0 (NUM_OCTAVES - 1) digit
  | SetTempo digit | Rest digit => digit_in 0 9 digit
  | Blank space => one_of [" "; "010"; "013"; "009"]%char space
  | Note letter accidental digit =>
      one_of (chars "ABCDEFG") letter
      && match accidental with
         | Some a => one_of (chars "#+-") a
         | None => true
         end
      && digit_in 0 9 digit
  end.

(** The octave and the tempo after a command. *)
Definition command_octave (c : command) (octave : Z) : Z :=
  match c with
  | OctaveUp => Z.min (octave + 1) (NUM_OCTAVES - 1)
  | OctaveDown => Z.max (octave - 1) 0
  | SetOctave digit => digit_value digit
  | _ => octave
  end.

Definition command_tempo (c : command) (tempo : Z) : Z :=
  match c with
  | SetTempo digit => digit_value digit
  | _ => tempo
  end.

(** The ticks of a note or rest: [(tempo + 1) * lengthTable[digit]]. *)
Definition command_ticks (c : command) (tempo : Z) : option Z :=
  match c with
  | Rest digit | Note _ _ digit =>
      Some ((tempo + 1) * array_get 0 lengthNumberToTickCount (digit_value digit))
  | _ => None
  end.

(** The tick counts of the notes and rests of a song, in order. *)
Fixpoint songTicks (tempo : Z) (cmds : list command) : list Z :=
  match cmds with
  | [] => []
  | c :: cmds =>
      match command_ticks c tempo with
      | Some n => n :: songTicks (command_tempo c tempo) cmds
      | None => songTicks (command_tempo c tempo) cmds
      end
  end.

(** A sharp on B. *)
Definition sharp_B (c : command) : bool :=
  match c with
  | Note letter (Some a) _ => Ascii.eqb letter "B" && one_of (chars "#+") a
  | _ => false
  end.

(** Whether a song that starts in [octave] has a sharp on B while in the
    top octave. *)
Fixpoint sharpens_B_in_top_octave (octave : Z) (cmds : list command) : bool :=
  match cmds with
  | [] => false
  | c :: cmds =>
      ((octave =? NUM_OCTAVES - 1) && sharp_B c)
      || sharpens_B_in_top_octave (command_octave c octave) cmds
  end.

(** The player is about to read the commands [cmds], and then the end of
    the song. *)
Record at_commands (p : MMLPlayer) (cmds : list command) : Prop := mk_at_commands {
  ac_table : List.length (noteToPhaseRate p) = 36%nat;
  ac_octave : 0 <= octave p <= 2;
  ac_text : exists before,
      song p = before ++ flat_map command_chars cmds ++ ["000"%char]
      /\ position p = Z.of_nat (List.length before)
}.

(** ** The word after the note table

    [operator[]] of [std::array] checks nothing. What [Tick] reads at index
    36 of the 36 entries of [noteToPhaseRate] is the word that follows the
    table in the player: the low half of the pointer to the characters of
    [song], an address of the heap. *)

(** The player and the word that follows its note table in memory. *)
Definition MMLPlayer_in_memory (next_word : Z) (p : MMLPlayer) : MMLPlayer :=
  mkMMLPlayer (noteToPhaseRate p ++ [next_word])
    (song p) (position p) (octave p) (output p) (tempo p) (counts p).

Definition RenderState_in_memory (next_word : Z) (st : RenderState) : RenderState :=
  mkRenderState (r_wavetable st) (MMLPlayer_in_memory next_word (r_player st))
    (r_data st) (r_phase st) (r_phaseRate st).

(** [GenerateSongSquareWave] as it runs when the characters of the song are
    stored at [address]. *)
Definition GenerateSongSquareWave_at (sinf : float -> float)
    (pow : double -> double -> double) (m : Memory) (address : Z)
    (songstr : list ascii) : outcome (list Z) :=
  let wavetable := SquareWavetable_new sinf m SAMPLE_RATE in
  let player := MMLPlayer_in_memory (address mod 2 ^ 32)
                  (MMLPlayer_new_song pow m SAMPLE_RATE songstr) in
  renderLoop (tickBudget player) (mkRenderState wavetable player [] 0 0).

(** The outcome of a call on the player in memory, from the outcome of the
    call on the player alone. *)
Definition in_memory {A : Type} (next_word : Z) (o : outcome (A * MMLPlayer))
  : outcome (A * MMLPlayer) :=
  '(a, q) <- o ;; Ok (a, MMLPlayer_in_memory next_word q).

(** The samples of [n] sounding ticks at the rate [phaseRate], the phase
    starting at [phase]. *)
Definition soundingTicks (w : SquareWavetable) (phaseRate phase : Z) (n : nat) : list Z :=
  List.concat (map (fun k => fst (renderTick w (GetTable w phaseRate) phaseRate
                               ([], (phase + Z.of_nat k * (TICK_LENGTH * phaseRate))
                                    mod 2 ^ 32)))
              (seq 0 n)).

(** ** The wave file *)

(** Arithmetic on [int]: a result that does not fit is reduced to 32 bits,
    as the multiplication of the x86-64 does; the conversions to [uint32_t]
    and [uint16_t]. Overflow of [int] is undefined: from [2^27] samples on,
    where [nsamples * 16] no longer fits, a compiler may as well store
    [2 * nsamples], and nothing below is stated of [BuildWaveHeader] there. *)
Definition int_wrap (v : Z) : Z := (v + 2 ^ 31) mod 2 ^ 32 - 2 ^ 31.
Definition uint32_of_int (v : Z) : Z := v mod 2 ^ 32.
Definition uint16_of_int (v : Z) : Z := v mod 2 ^ 16.

(** [struct WAVHeader], packed. *)
Record WAVHeader : Type := mkWAVHeader {
  h_chunkId : list ascii;
  h_chunkSize : Z;
  h_format : list ascii;
  h_subchunk1Id : list ascii;
  h_subchunk1Size : Z;
  h_audioFormat : Z;
  h_numChannels : Z;
  h_sampleRate : Z;
  h_byteRate : Z;
  h_blockAlign : Z;
  h_bitsPerSample : Z;
  h_subchunk2Id : list ascii;
  h_subchunk2Size : Z
}.

(** [BuildWaveHeader]: every field of [hdr] is assigned. *)
Definition BuildWaveHeader (nsamples : Z) : WAVHeader :=
  let subchunk2Size :=
    uint32_of_int (Z.quot (int_wrap (int_wrap (nsamples * 1) * 16)) 8) in
  mkWAVHeader
    (chars "RIFF")
    (* chunksize is the next field, but is calc'ed below *)
    (uint32_of_int (36 + subchunk2Size))
    (chars "WAVE")
    (chars "fmt ")
    (uint32_of_int 16)
    (uint16_of_int 1)
    (uint16_of_int 1)
    (uint32_of_int SAMPLE_RATE)
    (uint32_of_int (Z.quot (int_wrap (int_wrap (SAMPLE_RATE * 1) * 16)) 8))
    (uint16_of_int (Z.quot (int_wrap (1 * 16)) 8))
    (uint16_of_int 16)
    (chars "data")
    subchunk2Size.

(** The bytes of an object in memory: an integer of [n] bytes has its least
    significant byte first, as on the x86-64. *)
Fixpoint bytes_of (n : nat) (v : Z) : list Z :=
  match n with
  | O => []
  | S n => v mod 256 :: bytes_of n (v / 256)
  end.

Definition byte_of_char (c : ascii) : Z := Z.of_N (N_of_ascii c).

(** [(char* )&hdr], [sizeof(hdr)] bytes. *)
Definition WAVHeader_bytes (hdr : WAVHeader) : list Z :=
  map byte_of_char (h_chunkId hdr)
  ++ bytes_of 4 (h_chunkSize hdr)
  ++ map byte_of_char (h_format hdr)
  ++ map byte_of_char (h_subchunk1Id hdr)
  ++ bytes_of 4 (h_subchunk1Size hdr)
  ++ bytes_of 2 (h_audioFormat hdr)
  ++ bytes_of 2 (h_numChannels hdr)
  ++ bytes_of 4 (h_sampleRate hdr)
  ++ bytes_of 4 (h_byteRate hdr)
  ++ bytes_of 2 (h_blockAlign hdr)
  ++ bytes_of 2 (h_bitsPerSample hdr)
  ++ map byte_of_char (h_subchunk2Id hdr)
  ++ bytes_of 4 (h_subchunk2Size hdr).

(** The two bytes of an [int16_t]. *)
Definition int16_bytes (v : Z) : list Z := bytes_of 2 (v mod 2 ^ 16).

(** [WriteMonoWaveFile]: the file that is written, its name and its bytes,
    the header and then [sizeof(int16_t) * nsamples] bytes from [data];
    [nsamples] is a number of samples that [data] holds. *)
Definition WriteMonoWaveFile (filename : list ascii) (data : list Z) (nsamples : Z)
  : outcome (list ascii * list Z) :=
  let hdr := BuildWaveHeader nsamples in
  if (0 <=? nsamples) && (nsamples <=? Z.of_nat (List.length data)) then
    Ok (filename,
        WAVHeader_bytes hdr ++ flat_map int16_bytes (firstn (Z.to_nat nsamples) data))
  else OutOfBounds nsamples.

(** What a reader of the file makes of it: an unsigned and a signed
    little-endian number, and the samples after the header. *)
Definition le_value (bytes : list Z) : Z :=
  fold_right (fun b v => b + 256 * v) 0 bytes.

Definition le_int16 (lo hi : Z) : Z :=
  let v := le_value [lo; hi] in
  if v <? 2 ^ 15 then v else v - 2 ^ 16.

Fixpoint le_samples (bytes : list Z) : list Z :=
  match bytes with
  | lo :: hi :: bytes => le_int16 lo hi :: le_samples bytes
  | _ => []
  end.

(** The bytes of the file from [offset] on, [size] of them, and the number
    they hold. *)
Definition slice (offset size : nat) (bytes : list Z) : list Z :=
  firstn size (skipn offset bytes).

Definition field (offset size : nat) (bytes : list Z) : Z :=
  le_value (slice offset size bytes).

(** ** The program *)

Module Demo.

Definition a : list ascii := chars "t0E5R1E3R0D3R0E3R0E1R0D1R0>G4R1<".
Definition b : list ascii := chars "F3R0F1R0F1R0A3R0F1R0E1R0D1R0D1R0E5R0".
Definition c : list ascii := chars "C3R0C1R0C1R0E3R0C1R0>B1<R0C1R0>B1R0A1R0A1B5R0<".
Definition d : list ascii :=
  chars "E1R0E1R0E1R0E1R0E1R0E1R0D1R0E1R0E1R0E1R0D1R0>A1R0A1R0B3R1<".
Definition e : list ascii :=
  chars ">A1R0B1R0<C1R0D1R0E1R0F1R0E1R0F3R1A3R1B1R0A1R0F3R0E3R0E1R0E4R0".
Definition demosong : list ascii := a ++ b ++ b ++ c ++ c ++ b ++ c ++ d ++ e.

End Demo.

(** [strlen]: the characters before the first NUL. *)
Fixpoint strlen (s : list ascii) : nat :=
  match s with
  | [] => O
  | "000"%char :: _ => O
  | _ :: s => S (strlen s)
  end.

(** What a run of the program leaves: its exit code, what it printed, and
    the file it wrote, if any. *)
Record Run : Type := mkRun {
  exit_code : Z;
  printed : string;
  written : option (list ascii * list Z)
}.

Definition newline : string := String "010" EmptyString.
Definition usage : string :=
  "Usage: mml " ++ String "034" ("songtext" ++ String "034" (" [fname]" ++ newline)).

Section Program.

Variable sinf : float -> float.
Variable pow : double -> double -> double.
Variable m : Memory.

(** Whether the file of a name can be created and written, and [what()] of
    the [std::exception] that [main] catches when it cannot. *)
Variable writable : list ascii -> bool.
Variable failure : string.

(** [main], built without [_WIN32]; [argv] holds its [argc] strings. *)
Definition main (argv : list (list ascii)) : outcome Run :=
  let argc := Z.of_nat (List.length argv) in
  let out := if argc <? 2 then usage else EmptyString in
  let str := if argc <? 2 then Demo.demosong else nth 1 argv [] in
  match GenerateSongSquareWave sinf pow m (firstn (strlen str) str) with
  | Ok data =>
    if argc >? 2 then
      let fname := nth 2 argv [] in
      if writable fname then
        file <- WriteMonoWaveFile fname data (int_wrap (Z.of_nat (List.length data))) ;;
        Ok (mkRun 0 out (Some file))
      else
        Ok (mkRun 0 (out ++ "Error:" ++ failure ++ newline) None)
    else Ok (mkRun 0 out None)
  | Throw what =>
    Ok (mkRun 0 (out ++ "Domain Error: " ++ what ++ newline) None)
  | OutOfBounds idx => OutOfBounds idx
  | OutOfFuel => OutOfFuel
  end.

End Program.

(** * Properties *)

(** ** Constants of the source *)

(** The literal of [PI] lies within half a unit in the last place of the
    binary32 number taken for it. *)
Lemma PI_nearest :
  match PI with
  | S754_finite false mant e =>
      e = -22
      /\ (2 * Zpos mant - 1) * 10 ^ 20 < 314159265358979323846 * 2 ^ 23
         < (2 * Zpos mant + 1) * 10 ^ 20
  | _ => False
  end.
Proof. vm_compute. intuition discriminate. Qed.

Lemma maxHarmonics_initial :
  truncate (fdiv WAVETABLE_CUTOFF_FREQ WAVETABLE_BASE_FREQ) = 500.
Proof. reflexivity. Qed.

(** ** Outcomes and arrays *)

Lemma bind_Ok {A B : Type} (c : outcome A) (k : A -> outcome B) (b : B) :
  bind c k = Ok b -> exists a, c = Ok a /\ k a = Ok b.
Proof.
  destruct c; simpl; try discriminate.
  intros H; eauto.
Qed.

Lemma at_Ok {A : Type} (a : list A) (i : Z) (x : A) :
  a.[i] = Ok x <-> 0 <= i < Z.of_nat (List.length a) /\ nth_error a (Z.to_nat i) = Some x.
Proof.
  unfold at_. destruct (Z.ltb_spec i 0).
  - split; [discriminate | lia].
  - destruct (nth_error a (Z.to_nat i)) eqn:E.
    + assert (Z.to_nat i < List.length a)%nat
        by (apply nth_error_Some; congruence).
      split; [intros [= ->]; split; [lia | reflexivity] | intros [_ [= ->]]; reflexivity].
    + split; [discriminate | intros [_ [=]]].
Qed.

Lemma at_in_range {A : Type} (a : list A) (i : Z) (d : A) :
  0 <= i < Z.of_nat (List.length a) -> a.[i] = Ok (array_get d a i).
Proof.
  intros H. unfold at_, array_get.
  destruct (Z.ltb_spec i 0); [lia |].
  destruct (nth_error a (Z.to_nat i)) eqn:E.
  - now rewrite (nth_error_nth _ _ d E).
  - apply nth_error_None in E. lia.
Qed.

Lemma at_out_of_range {A : Type} (a : list A) (i : Z) :
  Z.of_nat (List.length a) <= i -> a.[i] = OutOfBounds i.
Proof.
  intros H. unfold at_.
  destruct (Z.ltb_spec i 0); [reflexivity |].
  destruct (nth_error a (Z.to_nat i)) eqn:E; [| reflexivity].
  assert (Z.to_nat i < List.length a)%nat by (apply nth_error_Some; congruence).
  lia.
Qed.

Lemma at_not_OutOfFuel {A : Type} (a : list A) (i : Z) : a.[i] <> OutOfFuel.
Proof.
  unfold at_. destruct (i <? 0); [discriminate |].
  destruct (nth_error a (Z.to_nat i)); discriminate.
Qed.

Lemma lengthNumberToTickCount_range (n len : Z) :
  lengthNumberToTickCount.[n] = Ok len -> 0 <= n <= 9 /\ 1 <= len <= 32.
Proof.
  intros H. apply at_Ok in H. destruct H as [Hn H].
  split; [simpl in Hn; lia |].
  apply nth_error_In in H. simpl in H.
  repeat (destruct H as [<- | H]; [lia |]).
  contradiction.
Qed.

(** ** The sequencer, command by command *)

Lemma at_Ok_get {A : Type} (d : A) (a : list A) (i : Z) (x : A) :
  a.[i] = Ok x -> array_get d a i = x.
Proof.
  intros H. apply at_Ok in H. destruct H as [_ H].
  unfold array_get. now apply nth_error_nth.
Qed.

Lemma ReadNumber_Ok (min max : Z) (msg : string) (p : MMLPlayer) (n : Z) (p' : MMLPlayer) :
  ReadNumber min max msg p = Ok (n, p') ->
  min <= n <= max /\ p' = set_position p (position p + 1)
  /\ 0 <= position p < Z.of_nat (List.length (song p))
  /\ n = digitAt p'.
Proof.
  unfold ReadNumber. intros H.
  apply bind_Ok in H. destruct H as [c [Hc H]].
  pose proof (at_Ok_get "000"%char _ _ _ Hc) as Hget.
  apply at_Ok in Hc.
  destruct (_ && _) eqn:E; [| discriminate].
  injection H as <- <-.
  apply andb_true_iff in E. destruct E as [E1 E2].
  apply Z.leb_le in E1, E2.
  unfold digitAt. cbn [song position set_position].
  replace (position p + 1 - 1) with (position p) by lia.
  rewrite Hget. tauto.
Qed.

Ltac each_char c :=
  let b0 := fresh in let b1 := fresh in let b2 := fresh in let b3 := fresh in
  let b4 := fresh in let b5 := fresh in let b6 := fresh in let b7 := fresh in
  destruct c as [b0 b1 b2 b3 b4 b5 b6 b7];
  destruct b0, b1, b2, b3, b4, b5, b6, b7.

Lemma applyAccidental_eq (next : ascii) (pitch : Z) (p : MMLPlayer) :
  applyAccidental next pitch p
  = (pitch + accidentalShift next, set_position p (position p - accidentalUnread next)).
Proof.
  assert (E : set_position p (position p - 0) = p)
    by (destruct p; unfold set_position; simpl; f_equal; lia).
  each_char next; unfold accidentalShift, accidentalUnread; simpl;
    rewrite ?E, ?Z.add_0_r; reflexivity.
Qed.

Lemma accidental_range (next : ascii) :
  -1 <= accidentalShift next <= 1 /\ 0 <= accidentalUnread next <= 1.
Proof. each_char next; unfold accidentalShift, accidentalUnread; simpl; lia. Qed.

Ltac bind_inv H :=
  let x := fresh "x" in
  let Hx := fresh "Hx" in
  apply bind_Ok in H; destruct H as [x [Hx H]].

Ltac read_inv H :=
  match type of H with
  | ReadNumber _ _ _ _ = Ok (?n, ?q) =>
      apply ReadNumber_Ok in H; simpl in H;
      let Hn := fresh "Hn" in let Hq := fresh "Hq" in let Hd := fresh "Hd" in
      destruct H as [Hn [Hq [H Hd]]]; subst q
  end.

Ltac outcome_inv H :=
  repeat first
    [ match type of H with
      | context [applyAccidental ?c ?n ?q] =>
          rewrite (applyAccidental_eq c n q) in H;
          pose proof (accidental_range c)
      | bind (ReadNumber _ _ _ _) _ = Ok _ =>
          let x := fresh "x" in let Hx := fresh "Hx" in
          apply bind_Ok in H; destruct H as [[? ?] [Hx H]]; read_inv Hx
      | bind _ _ = Ok _ => bind_inv H
      end
    | progress simpl in H ].

Ltac kind_solver :=
  first [ apply EndOfSong; simpl; lia
        | apply Modifier; simpl; lia
        | match goal with
          | Hd : ?n = digitAt ?q, Hl : lengthNumberToTickCount.[?n] = Ok ?len |- _ =>
              apply NoteOrRest with len;
              [ simpl; lia
              | change (lengthNumberToTickCount.[digitAt q] = Ok len); now rewrite <- Hd
              | reflexivity
              | reflexivity ]
          end ].

Lemma TickBody_Ok (p : MMLPlayer) (done : bool) (p' : MMLPlayer) :
  TickBody p = Ok (done, p') ->
  song p' = song p /\ noteToPhaseRate p' = noteToPhaseRate p
  /\ 0 <= position p < Z.of_nat (List.length (song p))
  /\ (0 <= tempo p <= 9 -> 0 <= tempo p' <= 9)
  /\ (0 <= octave p <= 2 -> 0 <= octave p' <= 2)
  /\ TickBodyKind p p' done.
Proof.
  unfold TickBody. intros H.
  bind_inv H. apply at_Ok in Hx. destruct Hx as [Hpos _].
  each_char x; simpl in H; try discriminate H.
  all: outcome_inv H.
  all: injection H as <- <-.
  all: repeat match goal with
         | |- context [if ?c then _ else _] => destruct c eqn:?
         end.
  all: repeat split; try (simpl; lia); try kind_solver.
Qed.

Ltac step_outcome :=
  simpl; rewrite ?applyAccidental_eq; simpl;
  try reflexivity;
  match goal with
  | |- context [bind (?a.[?i]) _] => destruct (a.[i]) eqn:?
  | |- context [if ?c then _ else _] => destruct c eqn:?
  end.

Lemma TickBody_set_counts (p : MMLPlayer) (c : Z) :
  TickBody (set_counts p c) = bind (TickBody p) (keep_counts c).
Proof.
  destruct p as [tbl sg pos oct out tmp cnt].
  unfold TickBody, ReadNumber, set_counts; simpl.
  destruct (sg.[pos]) as [curr | | |] eqn:Hc; simpl; try reflexivity.
  apply at_Ok in Hc. destruct Hc as [Hpos _].
  each_char curr; simpl; try reflexivity.
  all: repeat step_outcome.
  all: match goal with
       | H : (0 <=? _ - accidentalUnread ?c + 1) = false |- _ =>
           pose proof (accidental_range c); lia
       | _ => lia
       end.
Qed.

Lemma TickBody_not_OutOfFuel (p : MMLPlayer) : TickBody p <> OutOfFuel.
Proof.
  destruct p as [tbl sg pos oct out tmp cnt].
  unfold TickBody, ReadNumber; simpl.
  destruct (sg.[pos]) as [curr | | |] eqn:Hc; simpl; try discriminate.
  each_char curr; simpl; try discriminate.
  all: repeat (simpl; rewrite ?applyAccidental_eq; simpl;
               match goal with
               | |- context [bind (?a.[?i]) _] => destruct (a.[i]) eqn:?
               | |- context [if ?c then _ else _] => destruct c eqn:?
               end).
  all: simpl; rewrite ?applyAccidental_eq; simpl; try discriminate.
  all: exfalso; eapply at_not_OutOfFuel; eassumption.
Qed.

(** ** The loop of [Tick] *)

Lemma TickLoop_set_counts (fuel : nat) (p : MMLPlayer) (c : Z) :
  TickLoop fuel (set_counts p c) = bind (TickLoop fuel p) (keep_counts_loop c).
Proof.
  revert p. induction fuel as [| fuel IH]; intros p; simpl; [reflexivity |].
  rewrite TickBody_set_counts.
  destruct (TickBody p) as [[done p'] | | |]; simpl; try reflexivity.
  destruct done; simpl; [reflexivity | apply IH].
Qed.

Lemma TickLoop_Ok (fuel : nat) (p p' : MMLPlayer) :
  TickLoop fuel p = Ok p' ->
  song p' = song p /\ noteToPhaseRate p' = noteToPhaseRate p
  /\ 0 <= position p < Z.of_nat (List.length (song p))
  /\ (0 <= tempo p <= 9 -> 0 <= tempo p' <= 9)
  /\ (0 <= octave p <= 2 -> 0 <= octave p' <= 2)
  /\ TickLoopKind p p'.
Proof.
  revert p. induction fuel as [| fuel IH]; intros p; simpl; [discriminate |].
  intros H. bind_inv H. destruct x as [done q].
  apply TickBody_Ok in Hx.
  destruct Hx as (Hs & Ht & Hp & Htempo & Hoct & Hk).
  destruct done; simpl in H.
  - injection H as ->.
    repeat split; try tauto; try lia.
    inversion Hk; [apply SongEnded; assumption | eapply EventRead; eassumption].
  - apply IH in H. destruct H as (Hs' & Ht' & Hp' & Htempo' & Hoct' & Hk').
    inversion Hk as [| Hq Ho Hc |].
    repeat split; try congruence; try tauto; try lia.
    rewrite Hs in *.
    destruct Hk' as [? ? ? | len ? ? ?];
      [apply SongEnded; congruence | apply EventRead with len; try assumption].
    rewrite Hs in *. lia.
Qed.

Lemma TickLoop_not_OutOfFuel (fuel : nat) (p : MMLPlayer) :
  Z.of_nat (List.length (song p)) - position p <= Z.of_nat fuel ->
  TickLoop (S fuel) p <> OutOfFuel.
Proof.
  revert p. induction fuel as [| fuel IH]; intros p Hf;
    cbn [TickLoop];
    destruct (TickBody p) as [[done q] | | |] eqn:E; simpl; try discriminate;
    try (now apply TickBody_not_OutOfFuel in E);
    (destruct done; [discriminate |]);
    apply TickBody_Ok in E; destruct E as (Hs & _ & Hp & _ & _ & Hk);
    inversion Hk.
  - lia.
  - apply IH. rewrite Hs. lia.
Qed.

(** ** One call of [Tick] *)

Lemma Tick_sustain (p : MMLPlayer) :
  1 < counts p -> Tick p = Ok (output p, set_counts p (counts p - 1)).
Proof.
  intros H. unfold Tick. simpl.
  destruct (Z.gtb_spec (counts p - 1) 0); [reflexivity | lia].
Qed.

Lemma Tick_scan (p : MMLPlayer) :
  counts p <= 1 -> 0 <= position p ->
  Tick p = q <- TickLoop (S (List.length (song p))) (set_counts p (counts p - 1)) ;;
           Ok (output q, q).
Proof.
  intros Hc Hp. unfold Tick. cbn [counts set_counts position song].
  destruct (Z.gtb_spec (counts p - 1) 0); [lia |].
  destruct (Z.ltb_spec (position p) 0); [lia | reflexivity].
Qed.

(** The budget that [Tick] gives its loop is never used up. *)
Lemma Tick_not_OutOfFuel (p : MMLPlayer) : Tick p <> OutOfFuel.
Proof.
  unfold Tick. cbn [counts set_counts position song].
  destruct (counts p - 1 >? 0); [discriminate |].
  destruct (Z.ltb_spec (position p) 0); [discriminate |].
  destruct (TickLoop _ _) eqn:E; cbn [bind]; try discriminate.
  apply TickLoop_not_OutOfFuel in E; [contradiction |].
  cbn [song position set_counts]. lia.
Qed.

Lemma set_counts_set_counts (p : MMLPlayer) (c c' : Z) :
  set_counts (set_counts p c) c' = set_counts p c'.
Proof. reflexivity. Qed.

Lemma set_counts_same (p : MMLPlayer) : set_counts p (counts p) = p.
Proof. now destruct p. Qed.

(** ** One pass of the render loop *)

(** No pass of the render loop changes the wavetables. *)
Lemma renderBody_wavetable (st st' : RenderState) :
  renderBody st = Ok st' -> r_wavetable st' = r_wavetable st.
Proof.
  unfold renderBody. intros H.
  destruct (Tick (r_player st)) as [[rate q] | | |]; try discriminate.
  cbn [bind] in H. destruct (rate =? 0); [now injection H as <- |].
  destruct (renderTick _ _ _ _). now injection H as <-.
Qed.

Lemma renderTick_length (w : SquareWavetable) (tableNum phaseRate : Z)
    (samples : list Z) (phase : Z) :
  exists chunk phase',
    renderTick w tableNum phaseRate (samples, phase) = (samples ++ chunk, phase')
    /\ Z.of_nat (List.length chunk) = TICK_LENGTH.
Proof.
  unfold renderTick, for_range.
  change TICK_LENGTH with (Z.of_nat (List.length (seq 0 (Z.to_nat (TICK_LENGTH - 0))))) at 2.
  rewrite <- (length_map (fun k => 0 + Z.of_nat k) (seq 0 (Z.to_nat (TICK_LENGTH - 0)))).
  generalize (map (fun k => 0 + Z.of_nat k) (seq 0 (Z.to_nat (TICK_LENGTH - 0)))).
  intros l. revert samples phase.
  induction l as [| i l IH]; intros samples phase; cbn [fold_left List.length].
  - exists [], phase. now rewrite app_nil_r.
  - destruct (IH (samples ++ [int16_of_float (fmul (float_of_int 16384) (Lookup w phase tableNum))])
                 ((phase + phaseRate) mod 2 ^ 32)) as (chunk & phase' & E & Hlen).
    rewrite E. rewrite <- app_assoc.
    eexists _, phase'. split; [reflexivity |].
    rewrite length_app. cbn [List.length]. lia.
Qed.

Lemma renderIter_wavetable (k : nat) :
  forall st st', renderIter k st = Ok st' -> r_wavetable st' = r_wavetable st.
Proof.
  induction k as [| k IH]; intros st st' H; cbn [renderIter] in H.
  - now injection H as <-.
  - apply bind_Ok in H. destruct H as [st1 [H1 H]].
    apply IH in H. apply renderBody_wavetable in H1. congruence.
Qed.

(** A pass of the loop appends exactly [TICK_LENGTH] samples, and zeros
    when the tick is silent. *)
Lemma renderBody_Tick (st : RenderState) (rate : Z) (q : MMLPlayer) :
  Tick (r_player st) = Ok (rate, q) ->
  exists chunk phase',
    renderBody st = Ok (mkRenderState (r_wavetable st) q (r_data st ++ chunk) phase' rate)
    /\ Z.of_nat (List.length chunk) = TICK_LENGTH
    /\ (rate = 0 -> chunk = repeat 0 (Z.to_nat TICK_LENGTH) /\ phase' = r_phase st).
Proof.
  intros H. unfold renderBody. rewrite H. cbn [bind].
  destruct (Z.eqb_spec rate 0) as [-> | Hr].
  - eexists _, _. split; [reflexivity |]. split; [| tauto].
    rewrite repeat_length. reflexivity.
  - destruct (renderTick_length (r_wavetable st) (GetTable (r_wavetable st) rate) rate
                (r_data st) (r_phase st))
      as (chunk & phase' & E & Hlen).
    rewrite E. eexists _, _. split; [reflexivity |]. split; [assumption | tauto].
Qed.

Lemma renderBody_Ok (st st' : RenderState) :
  renderBody st = Ok st' ->
  Tick (r_player st) = Ok (r_phaseRate st', r_player st')
  /\ exists chunk, r_data st' = r_data st ++ chunk
       /\ Z.of_nat (List.length chunk) = TICK_LENGTH
       /\ (r_phaseRate st' = 0 -> chunk = repeat 0 (Z.to_nat TICK_LENGTH)).
Proof.
  intros H.
  destruct (Tick (r_player st)) as [[rate q] | | |] eqn:E;
    try (unfold renderBody in H; rewrite E in H; discriminate).
  destruct (renderBody_Tick st rate q E) as (chunk & phase' & E' & Hlen & Hz).
  rewrite E' in H. injection H as <-. cbn [r_player r_data r_phaseRate].
  split; [reflexivity |]. exists chunk. repeat split; try assumption.
  intros Hr. now apply Hz.
Qed.

(** ** A note or rest, tick after tick *)

Lemma renderLoop_sustain (w : SquareWavetable) (k : nat) :
  forall (fuel : nat) (q : MMLPlayer) (samples : list Z) (phase rate : Z),
    counts q = Z.of_nat k + 1 -> 0 <= position q ->
    exists chunk phase' rate',
      renderLoop (k + fuel) (mkRenderState w q samples phase rate)
      = renderLoop fuel (mkRenderState w (set_counts q 1) (samples ++ chunk) phase' rate')
      /\ Z.of_nat (List.length chunk) = Z.of_nat k * TICK_LENGTH.
Proof.
  induction k as [| k IH]; intros fuel q samples phase rate Hc Hp.
  - exists [], phase, rate. rewrite app_nil_r.
    replace 1 with (counts q) by lia. rewrite set_counts_same.
    split; reflexivity.
  - cbn [Nat.add renderLoop r_player].
    unfold IsDone. destruct (Z.ltb_spec (position q) 0); [lia |].
    destruct (renderBody_Tick (mkRenderState w q samples phase rate) (output q)
                (set_counts q (counts q - 1)))
      as (chunk1 & phase1 & E & Hlen1 & _).
    { apply Tick_sustain. lia. }
    rewrite E. cbn [bind r_data r_wavetable].
    destruct (IH fuel (set_counts q (counts q - 1)) (samples ++ chunk1) phase1 (output q))
      as (chunk & phase' & rate' & E' & Hlen); [cbn [counts set_counts]; lia | assumption |].
    rewrite E'. rewrite set_counts_set_counts, <- app_assoc.
    eexists _, _, _. split; [reflexivity |].
    rewrite length_app. lia.
Qed.

(** ** The render loop follows the notes and rests of the song *)

Lemma totalTicks_cons (e : Event) (events : list Event) :
  totalTicks (e :: events) = e_ticks e + totalTicks events.
Proof. reflexivity. Qed.

Lemma EventRead_counts (p p' : MMLPlayer) (digit len : Z) :
  lengthNumberToTickCount.[digit] = Ok len ->
  counts p' = (tempo p' + 1) * len ->
  0 <= tempo p' <= 9 ->
  1 <= counts p' <= 320.
Proof.
  intros Hlen Hc Ht. apply lengthNumberToTickCount_range in Hlen. nia.
Qed.

Lemma renderLoop_events (w : SquareWavetable) (fuelE : nat) :
  forall (p : MMLPlayer) (c : Z) (fuel : nat) (samples : list Z) (phase rate : Z),
    0 <= tempo p <= 9 -> c <= 1 ->
    0 <= position p <= Z.of_nat (List.length (song p)) ->
    2 + 320 * (Z.of_nat (List.length (song p)) - position p) <= Z.of_nat fuel ->
    follows (songEventsFrom fuelE p) samples
      (renderLoop fuel (mkRenderState w (set_counts p c) samples phase rate)).
Proof.
  induction fuelE as [| fuelE IH]; intros p c fuel samples phase rate Ht Hc Hp Hf;
    [exact I |].
  cbn [songEventsFrom].
  destruct fuel as [| fuel]; [lia |].
  cbn [renderLoop r_player]. unfold IsDone at 2. cbn [position set_counts].
  destruct (Z.ltb_spec (position p) 0); [lia |].
  assert (ET : Tick (set_counts p c)
               = q <- (q <- TickLoop (S (List.length (song p))) p ;; keep_counts_loop (c - 1) q) ;;
                 Ok (output q, q)).
  { rewrite Tick_scan by (cbn [counts position set_counts]; lia).
    cbn [song counts set_counts]. rewrite <- TickLoop_set_counts. reflexivity. }
  destruct (TickLoop (S (List.length (song p))) p) as [p' | what | idx |] eqn:E.
  - cbn [bind] in ET |- *. unfold keep_counts_loop in ET. cbn [bind] in ET.
    apply TickLoop_Ok in E. destruct E as (Hs & _ & _ & Ht' & _ & Hk).
    specialize (Ht' Ht).
    destruct Hk as [Hend Hout Hcnt | len Hpos Hlen Hcnt].
    + (* the end of the song: one silent tick, and the loop is left *)
      unfold IsDone. rewrite Hend in *. cbn [Z.leb Z.ltb Z.compare] in ET |- *.
      destruct (renderBody_Tick (mkRenderState w (set_counts p c) samples phase rate) _ _ ET)
        as (chunk & phase' & E' & _ & Hz).
      rewrite E'. cbn [bind r_data r_wavetable].
      destruct Hz as [-> _]; [exact Hout |].
      destruct fuel as [| fuel]; [lia |].
      cbn [renderLoop r_player]. unfold IsDone. cbn [set_counts position].
      rewrite Hend. cbn [Z.ltb Z.compare r_data].
      exists []. split; [reflexivity | cbn; lia].
    + (* a note or rest: its ticks, and then the rest of the song *)
      pose proof (EventRead_counts p p' (digitAt p') len Hlen Hcnt Ht') as Hn.
      unfold IsDone. destruct (Z.ltb_spec (position p') 0); [lia |].
      destruct (Z.leb_spec 0 (position p')); [| lia].
      destruct (renderBody_Tick (mkRenderState w (set_counts p c) samples phase rate) _ _ ET)
        as (chunk1 & phase1 & E1 & Hlen1 & _).
      rewrite E1. cbn [bind r_data r_wavetable].
      assert (Ek : exists k fuel', fuel = (k + fuel')%nat /\ counts p' = Z.of_nat k + 1)
        by (exists (Z.to_nat (counts p' - 1)), (fuel - Z.to_nat (counts p' - 1))%nat; lia).
      destruct Ek as (k & fuel' & -> & Hk).
      destruct (renderLoop_sustain w k fuel' p' (samples ++ chunk1) phase1 (output p') Hk)
        as (chunk & phase2 & rate2 & E2 & Hlen2); [lia |].
      rewrite E2.
      specialize (IH p' 1 fuel' ((samples ++ chunk1) ++ chunk) phase2 rate2 Ht').
      rewrite Hs in IH.
      assert (Hfuel : 2 + 320 * (Z.of_nat (List.length (song p)) - position p')
                      <= Z.of_nat fuel') by lia.
      specialize (IH ltac:(lia) ltac:(lia) Hfuel).
      destruct (songEventsFrom fuelE p') as [events | what | idx |];
        cbn [bind follows] in IH |- *; try assumption.
      destruct IH as (body & -> & Hbody).
      exists (chunk1 ++ chunk ++ body). split.
      * rewrite <- !app_assoc. reflexivity.
      * rewrite totalTicks_cons, !length_app. cbn [e_ticks]. lia.
  - cbn [bind follows] in ET |- *. unfold renderBody. cbn [r_player]. rewrite ET. reflexivity.
  - cbn [bind follows] in ET |- *. unfold renderBody. cbn [r_player]. rewrite ET. reflexivity.
  - exact I.
Qed.

Lemma songEventsFrom_S (fuelE : nat) (p : MMLPlayer) :
  songEventsFrom (S fuelE) p
  = q <- TickLoop (S (List.length (song p))) p ;;
    if IsDone q then Ok []
    else events <- songEventsFrom fuelE q ;;
         Ok (mkEvent (output q) (tempo q) (digitAt q) (counts q) :: events).
Proof. reflexivity. Qed.

Lemma songEventsFrom_not_OutOfFuel (fuelE : nat) (p : MMLPlayer) :
  0 <= position p ->
  Z.of_nat (List.length (song p)) - position p <= Z.of_nat fuelE ->
  songEventsFrom (S fuelE) p <> OutOfFuel.
Proof.
  revert p. induction fuelE as [| fuelE IH]; intros p Hp Hf;
    rewrite songEventsFrom_S;
    (destruct (TickLoop (S (List.length (song p))) p) as [q | | |] eqn:E;
     cbn [bind]; try discriminate;
     [| apply TickLoop_not_OutOfFuel in E; [contradiction | lia]]);
    destruct (IsDone q) eqn:D; try discriminate;
    apply TickLoop_Ok in E; destruct E as (Hs & _ & Hpos & _ & _ & Hk);
    unfold IsDone in D; apply Z.ltb_ge in D;
    (destruct Hk as [Hend _ _ | len Hq _ _]; [lia |]).
  - lia.
  - specialize (IH q ltac:(lia)). rewrite Hs in IH. specialize (IH ltac:(lia)).
    destruct (songEventsFrom (S fuelE) q); cbn [bind]; congruence.
Qed.

Lemma songEvents_not_OutOfFuel (p : MMLPlayer) :
  0 <= position p -> songEvents p <> OutOfFuel.
Proof. intros Hp. apply songEventsFrom_not_OutOfFuel; lia. Qed.

(** ** The whole render *)

Section Whole.

Variable sinf : float -> float.
Variable pow : double -> double -> double.
Variable m : Memory.

Lemma GenerateSongSquareWave_follows (songstr : list ascii) :
  follows (songEvents (MMLPlayer_new_song pow m SAMPLE_RATE songstr)) []
    (GenerateSongSquareWave sinf pow m songstr).
Proof.
  unfold GenerateSongSquareWave, songEvents.
  set (p := MMLPlayer_new_song pow m SAMPLE_RATE songstr).
  change p with (set_counts p 0) at 4.
  apply renderLoop_events; unfold tickBudget; cbn [p MMLPlayer_new_song Load tempo position];
    lia.
Qed.

End Whole.

(** ** Arrays filled by a loop *)

Lemma uninitialized_length {A : Type} (n : Z) (junk : Z -> A) :
  List.length (uninitialized n junk) = Z.to_nat n.
Proof. unfold uninitialized. now rewrite length_map, length_seq. Qed.

Lemma array_set_nat_map {A : Type} (g : nat -> A) (x : A) (k : nat) :
  forall (l : list nat) (s : nat),
    l = seq s (List.length l) ->
    array_set_nat (map g l) k x = map (fun i => if (i =? s + k)%nat then x else g i) l.
Proof.
  induction k as [| k IH]; intros [| i l] s Hl; try reflexivity.
  - simpl in Hl |- *. injection Hl as -> Hl. rewrite Nat.add_0_r, Nat.eqb_refl.
    f_equal. apply map_ext_in. intros i Hi.
    rewrite Hl in Hi. apply in_seq in Hi.
    destruct (Nat.eqb_spec i s); [lia | reflexivity].
  - simpl in Hl |- *. injection Hl as -> Hl.
    destruct (Nat.eqb_spec s (s + S k)); [lia |].
    f_equal. rewrite (IH l (S s) Hl).
    apply map_ext. intros i. now replace (S s + k)%nat with (s + S k)%nat by lia.
Qed.

Lemma array_set_uninitialized {A : Type} (n : Z) (g : Z -> A) (k : Z) (x : A) :
  0 <= k ->
  array_set (uninitialized n g) k x = uninitialized n (fun i => if i =? k then x else g i).
Proof.
  intros Hk. unfold array_set, uninitialized.
  destruct (Z.ltb_spec k 0); [lia |].
  rewrite (array_set_nat_map (fun i => g (Z.of_nat i)) x (Z.to_nat k) _ 0%nat)
    by now rewrite length_seq.
  apply map_ext. intros i. cbn [Nat.add].
  destruct (Nat.eqb_spec i (Z.to_nat k)), (Z.eqb_spec (Z.of_nat i) k); try reflexivity; lia.
Qed.

Lemma uninitialized_ext {A : Type} (n : Z) (g h : Z -> A) :
  (forall i, 0 <= i < n -> g i = h i) -> uninitialized n g = uninitialized n h.
Proof.
  intros H. unfold uninitialized. apply map_ext_in. intros i Hi.
  apply in_seq in Hi. apply H. lia.
Qed.

Lemma array_get_uninitialized {A : Type} (d : A) (n : Z) (g : Z -> A) (i : Z) :
  0 <= i < n -> array_get d (uninitialized n g) i = g i.
Proof.
  intros Hi. unfold array_get, uninitialized.
  rewrite (nth_indep _ d (g (Z.of_nat 0))) by (rewrite length_map, length_seq; lia).
  rewrite (map_nth (fun k => g (Z.of_nat k)) (seq 0 (Z.to_nat n)) 0%nat).
  rewrite seq_nth by lia. f_equal. lia.
Qed.

Lemma for_range_S {S : Type} (from : Z) (k : nat) (body : S -> Z -> S) (s : S) :
  for_range from (from + Z.of_nat (Datatypes.S k)) body s
  = body (for_range from (from + Z.of_nat k) body s) (from + Z.of_nat k).
Proof.
  unfold for_range.
  replace (Z.to_nat (from + Z.of_nat (Datatypes.S k) - from)) with (Datatypes.S k) by lia.
  replace (Z.to_nat (from + Z.of_nat k - from)) with k by lia.
  rewrite seq_S, map_app, fold_left_app. reflexivity.
Qed.

Lemma for_range_nil {S : Type} (from : Z) (body : S -> Z -> S) (s : S) :
  for_range from (from + Z.of_nat 0) body s = s.
Proof. unfold for_range. now replace (Z.to_nat (from + Z.of_nat 0 - from)) with 0%nat by lia. Qed.

(** A loop that assigns [a[i] = f i] for every index leaves nothing of what
    the array held before. *)
Lemma for_range_fills {A : Type} (n : Z) (f junk : Z -> A) :
  0 <= n ->
  for_range 0 n (fun a i => array_set a i (f i)) (uninitialized n junk) = uninitialized n f.
Proof.
  intros Hn.
  assert (H : forall k : nat, Z.of_nat k <= n ->
            for_range 0 (0 + Z.of_nat k) (fun a i => array_set a i (f i)) (uninitialized n junk)
            = uninitialized n (fun i => if i <? Z.of_nat k then f i else junk i)).
  { induction k as [| k IH]; intros Hk.
    - rewrite for_range_nil. apply uninitialized_ext. intros i Hi.
      destruct (Z.ltb_spec i (Z.of_nat 0)); [lia | reflexivity].
    - rewrite for_range_S, IH by lia.
      rewrite array_set_uninitialized by lia.
      apply uninitialized_ext. intros i Hi.
      destruct (Z.eqb_spec i (0 + Z.of_nat k)), (Z.ltb_spec i (Z.of_nat k)),
        (Z.ltb_spec i (Z.of_nat (S k))); try reflexivity; try lia.
      now subst i. }
  specialize (H (Z.to_nat n) ltac:(lia)).
  replace (0 + Z.of_nat (Z.to_nat n)) with n in H by lia.
  rewrite H. apply uninitialized_ext. intros i Hi.
  destruct (Z.ltb_spec i (Z.of_nat (Z.to_nat n))); [reflexivity | lia].
Qed.

(** ** What the constructors build *)

Section Constructors.

Variable sinf : float -> float.
Variable pow : double -> double -> double.

Lemma MMLPlayer_new_table (m : Memory) (sampleRate : Z) :
  noteToPhaseRate (MMLPlayer_new pow m sampleRate)
  = uninitialized (NUM_OCTAVES * NOTES_PER_OCTAVE) (notePhaseRate pow sampleRate).
Proof. unfold MMLPlayer_new. cbn [noteToPhaseRate]. now apply for_range_fills. Qed.

Lemma MMLPlayer_new_song_position (m : Memory) (sampleRate : Z) (songstr : list ascii) :
  position (MMLPlayer_new_song pow m sampleRate songstr) = 0.
Proof. reflexivity. Qed.

Lemma MMLPlayer_new_song_tempo (m : Memory) (sampleRate : Z) (songstr : list ascii) :
  tempo (MMLPlayer_new_song pow m sampleRate songstr) = 4.
Proof. reflexivity. Qed.

Lemma MMLPlayer_new_table_length (m : Memory) (sampleRate : Z) :
  List.length (noteToPhaseRate (MMLPlayer_new pow m sampleRate)) = 36%nat.
Proof. rewrite MMLPlayer_new_table. apply uninitialized_length. Qed.

Lemma Generate_steps (m : Memory) (sampleRate : Z) (k : nat) :
  Z.of_nat k <= WAVETABLE_NUM_TABLES ->
  for_range 0 (0 + Z.of_nat k) (GenerateStep sinf sampleRate)
    (mkGenerateState
       (mkSquareWavetable
          (uninitialized WAVETABLE_NUM_TABLES
             (fun t => uninitialized WAVETABLE_SIZE (m_data m t)))
          (uninitialized WAVETABLE_NUM_TABLES (m_topPhaseRate m)))
       (tableFrequency 0) (tableHarmonics 0))
  = mkGenerateState
      (mkSquareWavetable
         (uninitialized WAVETABLE_NUM_TABLES
            (fun t => if t <? Z.of_nat k
                      then squareTable sinf (tableHarmonics (Z.to_nat t))
                      else uninitialized WAVETABLE_SIZE (m_data m t)))
         (uninitialized WAVETABLE_NUM_TABLES
            (fun t => if t <? Z.of_nat k
                      then thresholdRate sampleRate (tableFrequency (Z.to_nat t))
                      else m_topPhaseRate m t)))
      (tableFrequency k) (tableHarmonics k).
Proof.
  induction k as [| k IH]; intros Hk.
  - rewrite for_range_nil.
    apply (f_equal3 mkGenerateState); [apply (f_equal2 mkSquareWavetable) | reflexivity ..];
      apply uninitialized_ext; intros i Hi;
      (destruct (Z.ltb_spec i (Z.of_nat 0)); [lia | reflexivity]).
  - rewrite for_range_S, IH by lia.
    unfold GenerateStep.
    cbn [g_table g_frequency g_maxHarmonics data topPhaseRate].
    rewrite !array_set_uninitialized by lia.
    apply (f_equal3 mkGenerateState); [apply (f_equal2 mkSquareWavetable) | reflexivity ..];
      apply uninitialized_ext; intros i Hi;
      (destruct (Z.eqb_spec i (0 + Z.of_nat k)), (Z.ltb_spec i (Z.of_nat k)),
         (Z.ltb_spec i (Z.of_nat (S k))); try reflexivity; try lia);
      subst i; now replace (Z.to_nat (0 + Z.of_nat k)) with k by lia.
Qed.

Lemma SquareWavetable_new_eq (m : Memory) (sampleRate : Z) :
  SquareWavetable_new sinf m sampleRate
  = mkSquareWavetable
      (uninitialized WAVETABLE_NUM_TABLES
         (fun t => squareTable sinf (tableHarmonics (Z.to_nat t))))
      (uninitialized WAVETABLE_NUM_TABLES
         (fun t => thresholdRate sampleRate (tableFrequency (Z.to_nat t)))).
Proof.
  unfold SquareWavetable_new, Generate.
  change WAVETABLE_NUM_TABLES with (0 + Z.of_nat 8) at 1.
  change WAVETABLE_BASE_FREQ with (tableFrequency 0).
  change (truncate (fdiv WAVETABLE_CUTOFF_FREQ (tableFrequency 0))) with (tableHarmonics 0).
  rewrite Generate_steps by (unfold WAVETABLE_NUM_TABLES; lia).
  cbn [g_table]. apply (f_equal2 mkSquareWavetable); apply uninitialized_ext; intros i Hi;
    (destruct (Z.ltb_spec i (Z.of_nat 8)); [reflexivity | unfold WAVETABLE_NUM_TABLES in Hi; lia]).
Qed.

End Constructors.

(** ** Selecting a table *)

Lemma array_get_cons {A : Type} (d x : A) (a : list A) (i : Z) :
  0 < i -> array_get d (x :: a) i = array_get d a (i - 1).
Proof.
  intros H. unfold array_get.
  replace (Z.to_nat i) with (S (Z.to_nat (i - 1))) by lia. reflexivity.
Qed.

Lemma increasingb_increasing (a : list Z) : increasingb a = true -> increasing a.
Proof.
  induction a as [| x a IH]; intros H i j Hi Hij Hj; [simpl in Hj; lia |].
  destruct a as [| y a]; [simpl in Hj; lia |].
  cbn [increasingb] in H. apply andb_true_iff in H. destruct H as [Hxy H].
  apply Z.ltb_lt in Hxy. specialize (IH H).
  cbn [List.length] in Hj.
  assert (Hfirst : forall k, 0 < k -> k < Z.of_nat (List.length (y :: a)) + 1 ->
                             x < array_get 0 (x :: y :: a) k).
  { intros k Hk Hk'. rewrite array_get_cons by lia.
    destruct (Z.eq_dec k 1) as [-> | Hne]; [exact Hxy |].
    apply Z.lt_trans with y; [exact Hxy |].
    apply (IH 0 (k - 1)); cbn [List.length] in *; lia. }
  destruct (Z.eq_dec i 0) as [-> | Hne].
  - apply Hfirst; cbn [List.length]; lia.
  - rewrite (array_get_cons 0 x (y :: a) i), (array_get_cons 0 x (y :: a) j) by lia.
    apply IH; cbn [List.length]; lia.
Qed.

Lemma lower_bound_loop_spec (a : list Z) (val : Z) (fuel : nat) :
  forall first len,
    0 <= first -> 0 <= len <= Z.of_nat fuel ->
    (forall i j, first <= i -> i <= j -> j < first + len ->
                 array_get 0 a i <= array_get 0 a j) ->
    let r := lower_bound_loop fuel a first len val in
    first <= r <= first + len
    /\ (forall i, first <= i < r -> array_get 0 a i < val)
    /\ (forall i, r <= i < first + len -> val <= array_get 0 a i).
Proof.
  induction fuel as [| fuel IH]; intros first len Hfirst Hlen Hsorted; cbn [lower_bound_loop].
  - repeat split; intros; lia.
  - destruct (Z.gtb_spec len 0) as [Hpos | Hzero]; [| repeat split; intros; lia].
    rewrite Z.shiftr_div_pow2 by lia. change (2 ^ 1) with 2.
    assert (Hhalf : 0 <= len / 2 < len) by (split; [apply Z.div_pos | apply Z.div_lt]; lia).
    destruct (Z.ltb_spec (array_get 0 a (first + len / 2)) val) as [Hlt | Hge].
    + specialize (IH (first + len / 2 + 1) (len - len / 2 - 1) ltac:(lia) ltac:(lia)).
      destruct IH as (Hr & Hbelow & Habove).
      { intros i j Hi Hij Hj. apply Hsorted; lia. }
      repeat split; try lia.
      * intros i Hi. destruct (Z.le_gt_cases i (first + len / 2)) as [Hle | Hgt].
        -- apply Z.le_lt_trans with (array_get 0 a (first + len / 2)); [| exact Hlt].
           apply Hsorted; lia.
        -- apply Hbelow. lia.
      * intros i Hi. apply Habove. lia.
    + specialize (IH first (len / 2) ltac:(lia) ltac:(lia)).
      destruct IH as (Hr & Hbelow & Habove).
      { intros i j Hi Hij Hj. apply Hsorted; lia. }
      repeat split; try lia.
      * exact Hbelow.
      * intros i Hi. destruct (Z.lt_ge_cases i (first + len / 2)) as [Hlt | Hge'].
        -- apply Habove. lia.
        -- apply Z.le_trans with (array_get 0 a (first + len / 2)); [lia |].
           apply Hsorted; lia.
Qed.

(** [GetTable] on thresholds that grow with the index: every table below
    the selected one is too low for the rate, and unless the last table was
    selected, the selected one is not. *)
Lemma GetTable_spec (w : SquareWavetable) (phaseRate : Z) :
  Z.of_nat (List.length (topPhaseRate w)) = WAVETABLE_NUM_TABLES ->
  increasing (topPhaseRate w) ->
  let t := GetTable w phaseRate in
  0 <= t <= WAVETABLE_NUM_TABLES - 1
  /\ (forall i, 0 <= i < t -> array_get 0 (topPhaseRate w) i < phaseRate)
  /\ (t < WAVETABLE_NUM_TABLES - 1 -> phaseRate <= array_get 0 (topPhaseRate w) t).
Proof.
  intros Hlen Hinc. unfold GetTable, lower_bound.
  pose proof (lower_bound_loop_spec (topPhaseRate w) phaseRate
                (Z.to_nat (WAVETABLE_NUM_TABLES - 1 - 0)) 0 (WAVETABLE_NUM_TABLES - 1 - 0))
    as H.
  cbv zeta in H |- *.
  destruct H as (Hr & Hbelow & Habove).
  - lia.
  - unfold WAVETABLE_NUM_TABLES. lia.
  - intros i j Hi Hij Hj.
    destruct (Z.eq_dec i j) as [-> | Hne]; [lia |].
    apply Z.lt_le_incl, Hinc; unfold WAVETABLE_NUM_TABLES in *; lia.
  - repeat split; try lia.
    + exact Hbelow.
    + intros Ht. apply Habove. lia.
Qed.

(** ** Runs of short songs, whatever the tables hold *)

Lemma table_of_length_36 (p : MMLPlayer) :
  List.length (noteToPhaseRate p) = 36%nat ->
  exists x00 x01 x02 x03 x04 x05 x06 x07 x08 x09 x10 x11
         x12 x13 x14 x15 x16 x17 x18 x19 x20 x21 x22 x23
         x24 x25 x26 x27 x28 x29 x30 x31 x32 x33 x34 x35,
    noteToPhaseRate p
    = [x00; x01; x02; x03; x04; x05; x06; x07; x08; x09; x10; x11;
       x12; x13; x14; x15; x16; x17; x18; x19; x20; x21; x22; x23;
       x24; x25; x26; x27; x28; x29; x30; x31; x32; x33; x34; x35].
Proof.
  intros H. destruct (noteToPhaseRate p) as [| ? l]; [discriminate |].
  do 35 (destruct l as [| ? l]; [discriminate |]).
  destruct l; [| discriminate].
  repeat eexists.
Qed.

Lemma Load_table (p : MMLPlayer) (songstr : list ascii) :
  Load p songstr
  = mkMMLPlayer (noteToPhaseRate p) (map toupper songstr ++ ["000"%char]) 0 1 0 4 0.
Proof. reflexivity. Qed.

Lemma renderLoop_R0 (w : SquareWavetable) (p : MMLPlayer) :
  renderLoop (tickBudget (Load p (chars "R0")))
    (mkRenderState w (Load p (chars "R0")) [] 0 0)
  = Ok (repeat 0 (Z.to_nat (((4 + 1) * 1 + 1) * TICK_LENGTH))).
Proof. vm_compute. reflexivity. Qed.

Lemma renderLoop_empty (w : SquareWavetable) (p : MMLPlayer) :
  renderLoop (tickBudget (Load p [])) (mkRenderState w (Load p []) [] 0 0)
  = Ok (repeat 0 (Z.to_nat TICK_LENGTH)).
Proof. vm_compute. reflexivity. Qed.

Lemma songEvents_R0 (p : MMLPlayer) :
  songEvents (Load p (chars "R0")) = Ok [mkEvent 0 4 0 ((4 + 1) * 1)].
Proof. vm_compute. reflexivity. Qed.

Lemma Tick_Z4 (p : MMLPlayer) :
  Tick (Load p (chars "Z4")) = Throw "Invalid character in song string".
Proof. vm_compute. reflexivity. Qed.

Lemma Tick_O2Bsharp (p : MMLPlayer) :
  List.length (noteToPhaseRate p) = 36%nat ->
  Tick (Load p (chars "O2B#4")) = OutOfBounds 36.
Proof.
  intros H. rewrite Load_table.
  destruct (table_of_length_36 p H)
    as (x00 & x01 & x02 & x03 & x04 & x05 & x06 & x07 & x08 & x09 & x10 & x11 &
        x12 & x13 & x14 & x15 & x16 & x17 & x18 & x19 & x20 & x21 & x22 & x23 &
        x24 & x25 & x26 & x27 & x28 & x29 & x30 & x31 & x32 & x33 & x34 & x35 & ->).
  vm_compute. reflexivity.
Qed.

Lemma renderLoop_Throw (st : RenderState) (fuel : nat) (what : string) :
  IsDone (r_player st) = false ->
  Tick (r_player st) = Throw what ->
  renderBody st = Throw what /\ renderLoop (S fuel) st = Throw what.
Proof.
  intros Hd Ht.
  assert (E : renderBody st = Throw what) by (unfold renderBody; now rewrite Ht).
  split; [exact E |]. cbn [renderLoop]. now rewrite Hd, E.
Qed.

Lemma renderLoop_OutOfBounds (st : RenderState) (fuel : nat) (idx : Z) :
  IsDone (r_player st) = false ->
  Tick (r_player st) = OutOfBounds idx ->
  renderLoop (S fuel) st = OutOfBounds idx.
Proof.
  intros Hd Ht. cbn [renderLoop]. rewrite Hd. unfold renderBody. now rewrite Ht.
Qed.

Lemma songEventsFrom_ticks (fuelE : nat) :
  forall (p : MMLPlayer) (events : list Event),
    0 <= tempo p <= 9 ->
    songEventsFrom fuelE p = Ok events -> Forall event_ticks_ok events.
Proof.
  induction fuelE as [| fuelE IH]; intros p events Ht H; [discriminate |].
  rewrite songEventsFrom_S in H. bind_inv H.
  apply TickLoop_Ok in Hx. destruct Hx as (_ & _ & _ & Ht' & _ & Hk).
  specialize (Ht' Ht).
  destruct (IsDone x) eqn:D; [injection H as <-; constructor |].
  bind_inv H. injection H as <-.
  constructor; [| now apply (IH x)].
  destruct Hk as [Hend _ _ | len _ Hlen Hc].
  - (* the end of the song is no event *)
    unfold IsDone in D. rewrite Hend in D. discriminate.
  - unfold event_ticks_ok. cbn [e_tempo e_digit e_ticks].
    pose proof (lengthNumberToTickCount_range _ _ Hlen).
    split; [assumption |]. split; [tauto |]. exists len. tauto.
Qed.

(** ** The phase rate of C in octave 0 *)

Lemma near_pow2_quarters_C0 (d : double) :
  near_pow2_quarters (-7) d ->
  d = S754_finite false 5355712719992596 (-54)
  \/ d = S754_finite false 5355712719992597 (-54)
  \/ d = S754_finite false 5355712719992598 (-54).
Proof.
  intros (mant & e & -> & Hm & Ht & Hlo & Hhi).
  assert (Hlow : (2 ^ 52 - 1) ^ 4 <= (Zpos mant - 1) ^ 4) by (apply Z.pow_le_mono_l; lia).
  assert (Hhigh : (Zpos mant + 1) ^ 4 <= (2 ^ 53) ^ 4) by (apply Z.pow_le_mono_l; lia).
  assert (H208 : 208 <= -7 - 4 * e).
  { destruct (Z.le_gt_cases 208 (-7 - 4 * e)) as [H | H]; [exact H | exfalso].
    assert (2 ^ (-7 - 4 * e) <= 2 ^ 207) by (apply Z.pow_le_mono_r; lia).
    assert (2 ^ 207 < (2 ^ 52 - 1) ^ 4) by (vm_compute; reflexivity).
    lia. }
  assert (H212 : -7 - 4 * e <= 212).
  { destruct (Z.le_gt_cases (-7 - 4 * e) 212) as [H | H]; [exact H | exfalso].
    assert (2 ^ 213 <= 2 ^ (-7 - 4 * e)) by (apply Z.pow_le_mono_r; lia).
    assert ((2 ^ 53) ^ 4 < 2 ^ 213) by (vm_compute; reflexivity).
    lia. }
  assert (He : e = -54) by lia. subst e.
  change (-7 - 4 * -54) with 209 in Hlo, Hhi.
  assert (Hge : 5355712719992596 <= Zpos mant).
  { destruct (Z.le_gt_cases 5355712719992596 (Zpos mant)) as [H | H]; [exact H | exfalso].
    assert ((Zpos mant + 1) ^ 4 <= 5355712719992596 ^ 4) by (apply Z.pow_le_mono_l; lia).
    assert (5355712719992596 ^ 4 < 2 ^ 209) by (vm_compute; reflexivity).
    lia. }
  assert (Hle : Zpos mant <= 5355712719992598).
  { destruct (Z.le_gt_cases (Zpos mant) 5355712719992598) as [H | H]; [exact H | exfalso].
    assert (5355712719992598 ^ 4 <= (Zpos mant - 1) ^ 4) by (apply Z.pow_le_mono_l; lia).
    assert (2 ^ 209 < 5355712719992598 ^ 4) by (vm_compute; reflexivity).
    lia. }
  assert (E : Zpos mant = 5355712719992596 \/ Zpos mant = 5355712719992597
              \/ Zpos mant = 5355712719992598) by lia.
  destruct E as [E | [E | E]]; injection E as ->; tauto.
Qed.

Lemma notePhaseRate_C0 (pow : double -> double -> double) :
  pow_accurate pow -> notePhaseRate pow SAMPLE_RATE 0 = 12740059.
Proof.
  intros H. specialize (H (-7) ltac:(lia)). apply near_pow2_quarters_C0 in H.
  unfold notePhaseRate.
  change (ddiv (double_of_int (0 - NOTE_A_440)) (double_of_int 12))
    with (ddiv (double_of_int (-7)) (double_of_int 4)).
  destruct H as [-> | [-> | ->]]; vm_compute; reflexivity.
Qed.

Lemma pow_quarters_accurate : pow_accurate pow_quarters.
Proof.
  intros q Hq.
  assert (E : q = -7 \/ q = -6 \/ q = -5 \/ q = -4 \/ q = -3 \/ q = -2 \/ q = -1
              \/ q = 0 \/ q = 1 \/ q = 2 \/ q = 3 \/ q = 4) by lia.
  repeat (destruct E as [-> | E];
          [eexists _, _; split; [vm_compute; reflexivity |];
           vm_compute; intuition discriminate |]).
  subst q. eexists _, _. split; [vm_compute; reflexivity |].
  vm_compute; intuition discriminate.
Qed.

Lemma tickRates_T4_O0_C8 (p : MMLPlayer) :
  List.length (noteToPhaseRate p) = 36%nat ->
  tickRates (tickBudget (Load p (chars "T4 O0 C8"))) (Load p (chars "T4 O0 C8"))
  = Ok (repeat (array_get 0 (noteToPhaseRate p) 0) 120 ++ [0]).
Proof.
  intros H. rewrite Load_table.
  destruct (table_of_length_36 p H)
    as (x00 & x01 & x02 & x03 & x04 & x05 & x06 & x07 & x08 & x09 & x10 & x11 &
        x12 & x13 & x14 & x15 & x16 & x17 & x18 & x19 & x20 & x21 & x22 & x23 &
        x24 & x25 & x26 & x27 & x28 & x29 & x30 & x31 & x32 & x33 & x34 & x35 & ->).
  vm_compute. reflexivity.
Qed.

Lemma renderIter_tickRates (w : SquareWavetable) (k : nat) :
  forall (fuel : nat) (p : MMLPlayer) (rates samples : list Z) (phase rate0 : Z),
    tickRates fuel p = Ok rates -> (k <= List.length rates)%nat ->
    exists st,
      renderIter k (mkRenderState w p samples phase rate0) = Ok st
      /\ Z.of_nat (List.length (r_data st))
         = Z.of_nat (List.length samples) + Z.of_nat k * TICK_LENGTH
      /\ r_phaseRate st = nth k (rate0 :: rates) 0.
Proof.
  induction k as [| k IH]; intros fuel p rates samples phase rate0 Hr Hk.
  - eexists. split; [reflexivity |]. cbn [r_data r_phaseRate nth]. lia.
  - destruct fuel as [| fuel]; [discriminate |]. cbn [tickRates] in Hr.
    destruct (IsDone p); [injection Hr as <-; cbn in Hk; lia |].
    apply bind_Ok in Hr. destruct Hr as [[r q] [Ht Hr]].
    apply bind_Ok in Hr. destruct Hr as [rs [Hrs Hr]]. injection Hr as <-.
    cbn [List.length] in Hk.
    destruct (renderBody_Tick (mkRenderState w p samples phase rate0) r q Ht)
      as (chunk & phase' & E & Hlen & _).
    destruct (IH fuel q rs (samples ++ chunk) phase' r Hrs ltac:(lia))
      as (st & Est & Hdata & Hrate).
    exists st. cbn [renderIter]. rewrite E. cbn [bind r_data r_wavetable].
    split; [exact Est |]. split.
    + rewrite Hdata, length_app. lia.
    + exact Hrate.
Qed.

(** ** The thresholds of the bank *)

Lemma topPhaseRate_new (sinf : float -> float) (m : Memory) (sampleRate : Z) :
  topPhaseRate (SquareWavetable_new sinf m sampleRate)
  = uninitialized WAVETABLE_NUM_TABLES
      (fun t => thresholdRate sampleRate (tableFrequency (Z.to_nat t))).
Proof. now rewrite SquareWavetable_new_eq. Qed.

Lemma topPhaseRate_SAMPLE_RATE (sinf : float -> float) (m : Memory) :
  topPhaseRate (SquareWavetable_new sinf m SAMPLE_RATE)
  = [3895662; 7791324; 15582648; 31165296; 62330592; 124661184; 249322368; 498644736].
Proof. rewrite topPhaseRate_new. vm_compute. reflexivity. Qed.

Lemma topPhaseRate_increasing_usual_rates (sinf : float -> float) (m : Memory) :
  Forall (fun sampleRate =>
            increasing (topPhaseRate (SquareWavetable_new sinf m sampleRate)))
    [8000; 11025; 16000; 22050; 32000; SAMPLE_RATE; 48000; 88200; 96000; 192000].
Proof.
  repeat constructor; rewrite topPhaseRate_new; apply increasingb_increasing;
    vm_compute; reflexivity.
Qed.

(** ** What is left of the memory the objects are built in *)

Lemma MMLPlayer_new_memory (pow : double -> double -> double) (m m' : Memory)
    (sampleRate : Z) :
  MMLPlayer_new pow m sampleRate = MMLPlayer_new pow m' sampleRate.
Proof.
  unfold MMLPlayer_new. rewrite !for_range_fills by (vm_compute; discriminate).
  reflexivity.
Qed.

Lemma SquareWavetable_new_memory (sinf : float -> float) (m m' : Memory) (sampleRate : Z) :
  SquareWavetable_new sinf m sampleRate = SquareWavetable_new sinf m' sampleRate.
Proof. now rewrite !SquareWavetable_new_eq. Qed.

(** ** Valid commands are accepted *)

Lemma read_command (p : MMLPlayer) (before l rest : list ascii) (k : nat) (x : ascii) :
  song p = before ++ l ++ rest ->
  position p = Z.of_nat (List.length before) ->
  nth_error l k = Some x ->
  (song p).[position p + Z.of_nat k] = Ok x.
Proof.
  intros Hs Hp Hk. unfold at_.
  destruct (Z.ltb_spec (position p + Z.of_nat k) 0); [lia |].
  rewrite Hs, Hp, <- Nat2Z.inj_add, Nat2Z.id.
  rewrite nth_error_app2 by lia.
  replace (List.length before + k - List.length before)%nat with k by lia.
  rewrite nth_error_app1 by (apply nth_error_Some; congruence).
  now rewrite Hk.
Qed.

Lemma at_commands_next (p p' : MMLPlayer) (c : command) (cmds : list command) :
  at_commands p (c :: cmds) ->
  noteToPhaseRate p' = noteToPhaseRate p ->
  song p' = song p ->
  position p' = position p + Z.of_nat (List.length (command_chars c)) ->
  0 <= octave p' <= 2 ->
  at_commands p' cmds.
Proof.
  intros [Ht Ho (before & Hs & Hp)] Htbl Hsong Hpos Hoct.
  constructor; [congruence | exact Hoct |].
  exists (before ++ command_chars c). split.
  - rewrite Hsong, Hs. cbn [flat_map]. now rewrite <- !app_assoc.
  - rewrite Hpos, Hp, length_app. lia.
Qed.

Lemma digit_in_value (min max : Z) (digit : ascii) :
  0 <= min -> max <= 9 ->
  digit_in min max digit = true ->
  min <= digit_value digit <= max
  /\ int_to_char (char_to_int digit - char_to_int "0") = digit_value digit.
Proof.
  unfold digit_in, digit_value. intros Hmin Hmax H.
  apply andb_true_iff in H. destruct H as [H1 H2]. apply Z.leb_le in H1, H2.
  split; [lia |].
  each_char digit;
    match goal with
    | H : _ <= ?b - 48 |- ?a = _ =>
        let a' := eval vm_compute in a in
        let b' := eval vm_compute in b in
        change (a' = b' - 48); change (min <= b' - 48) in H1; change (b' - 48 <= max) in H2;
        lia
    end.
Qed.

Lemma ReadNumber_digit_in (min max : Z) (msg : string) (p : MMLPlayer) (digit : ascii) :
  0 <= min -> max <= 9 ->
  (song p).[position p] = Ok digit ->
  digit_in min max digit = true ->
  ReadNumber min max msg p = Ok (digit_value digit, set_position p (position p + 1)).
Proof.
  intros Hmin Hmax Hc Hd.
  destruct (digit_in_value min max digit Hmin Hmax Hd) as [Hr E].
  unfold ReadNumber. rewrite Hc. cbn [bind]. rewrite E.
  destruct (Z.leb_spec min (digit_value digit)); [| lia].
  destruct (Z.leb_spec (digit_value digit) max); [reflexivity | lia].
Qed.

Lemma digit_no_accidental (digit : ascii) :
  digit_in 0 9 digit = true ->
  accidentalShift digit = 0 /\ accidentalUnread digit = 1.
Proof.
  unfold digit_in, digit_value. intros H.
  apply andb_true_iff in H. destruct H as [H1 H2]. apply Z.leb_le in H1, H2.
  each_char digit;
    first [ split; reflexivity
          | exfalso;
            match type of H1 with
            | _ <= ?b - 48 =>
                let b' := eval vm_compute in b in
                change (0 <= b' - 48) in H1; change (b' - 48 <= 9) in H2; lia
            end ].
Qed.

Lemma one_of_In (l : list ascii) (c : ascii) : one_of l c = true -> In c l.
Proof.
  unfold one_of. intros H. apply existsb_exists in H.
  destruct H as (x & Hx & E). apply Ascii.eqb_eq in E. now subst.
Qed.

Lemma length_table_digit (n : Z) :
  0 <= n <= 9 ->
  lengthNumberToTickCount.[n] = Ok (array_get 0 lengthNumberToTickCount n).
Proof. intros H. apply at_in_range. cbn [List.length lengthNumberToTickCount]. lia. Qed.

Ltac read_chars R :=
  let H0 := fresh "H0" in let H1 := fresh "H1" in let H2 := fresh "H2" in
  try (pose proof (R 0%nat _ eq_refl) as H0; rewrite Z.add_0_r in H0);
  try (pose proof (R 1%nat _ eq_refl) as H1; change (Z.of_nat 1) with 1 in H1);
  try (pose proof (R 2%nat _ eq_refl) as H2; change (Z.of_nat 2) with 2 in H2).

Lemma TickBody_command (p : MMLPlayer) (c : command) (cmds : list command) :
  at_commands p (c :: cmds) ->
  valid_command c = true ->
  (octave p =? NUM_OCTAVES - 1) && sharp_B c = false ->
  exists p',
    TickBody p
    = Ok (match command_ticks c (tempo p) with Some _ => true | None => false end, p')
    /\ at_commands p' cmds
    /\ octave p' = command_octave c (octave p)
    /\ tempo p' = command_tempo c (tempo p)
    /\ 0 <= position p'
    /\ match command_ticks c (tempo p) with Some n => counts p' = n | None => True end.
Proof.
  intros Hat Hv Hs. pose proof Hat as [Ht Ho (before & Hsong & Hpos)].
  cbn [flat_map] in Hsong. rewrite <- app_assoc in Hsong.
  assert (R : forall k x, nth_error (command_chars c) k = Some x ->
                          (song p).[position p + Z.of_nat k] = Ok x)
    by (intros k x Hk; eapply read_command; eauto).
  pose proof (at_commands_next p) as N. specialize (fun p' => N p' c cmds Hat).
  assert (Hp0 : 0 <= position p) by lia.
  clear Hsong Hat.
  destruct c as [| | digit | digit | space | digit | letter accidental digit];
    cbn [valid_command command_chars command_ticks command_octave command_tempo] in *.
  - read_chars R. unfold TickBody. rewrite H0. cbn [bind].
    eexists. split; [reflexivity |].
    cbn [octave set_position]. unfold NUM_OCTAVES in *.
    destruct (Z.ltb_spec (octave p) (3 - 1)); cbn; (split; [apply N; cbn; first [reflexivity | lia] |]); lia.
  - read_chars R. unfold TickBody. rewrite H0. cbn [bind].
    eexists. split; [reflexivity |].
    cbn [octave set_position].
    destruct (Z.gtb_spec (octave p) 0); cbn; (split; [apply N; cbn; first [reflexivity | lia] |]); lia.
  - read_chars R. unfold TickBody. rewrite H0. cbn [bind].
    destruct (digit_in_value 0 (NUM_OCTAVES - 1) digit ltac:(lia)
                ltac:(unfold NUM_OCTAVES; lia) Hv) as [Hr _].
    rewrite (ReadNumber_digit_in _ _ _ _ digit) by
      (try exact Hv; try exact H1; unfold NUM_OCTAVES; lia).
    cbn [bind]. eexists. split; [reflexivity |].
    unfold NUM_OCTAVES in Hr. cbn. (split; [apply N; cbn; first [reflexivity | lia] |]); lia.
  - read_chars R. unfold TickBody. rewrite H0. cbn [bind].
    rewrite (ReadNumber_digit_in _ _ _ _ digit) by (try exact Hv; try exact H1; lia).
    cbn [bind]. eexists. split; [reflexivity |].
    cbn. (split; [apply N; cbn; first [reflexivity | lia] |]); lia.
  - read_chars R. unfold TickBody. rewrite H0. cbn [bind].
    apply one_of_In in Hv. cbn [In] in Hv.
    destruct Hv as [<- | [<- | [<- | [<- | []]]]];
      (eexists; split; [reflexivity |]); cbn; (split; [apply N; cbn; first [reflexivity | lia] |]); lia.
  - read_chars R. unfold TickBody. rewrite H0. cbn [bind].
    destruct (digit_in_value 0 9 digit ltac:(lia) ltac:(lia) Hv) as [Hr _].
    rewrite (ReadNumber_digit_in _ _ _ _ digit) by (try exact Hv; try exact H1; lia).
    cbn [bind]. rewrite (length_table_digit _ Hr). cbn [bind].
    eexists. split; [reflexivity |].
    cbn. (split; [apply N; cbn; first [reflexivity | lia] |]); lia.
  - apply andb_true_iff in Hv. destruct Hv as [Hv Hd].
    apply andb_true_iff in Hv. destruct Hv as [Hl Ha].
    destruct (digit_in_value 0 9 digit ltac:(lia) ltac:(lia) Hd) as [Hr _].
    apply one_of_In in Hl. cbn [chars list_ascii_of_string In] in Hl.
    assert (Hacc : exists shift unread next,
               nth_error (command_chars (Note letter accidental digit)) 0 = Some letter
               /\ nth_error (command_chars (Note letter accidental digit)) 1 = Some next
               /\ accidentalShift next = shift /\ accidentalUnread next = unread
               /\ nth_error (command_chars (Note letter accidental digit))
                    (Z.to_nat (2 - unread)) = Some digit
               /\ Z.of_nat (List.length (command_chars (Note letter accidental digit)))
                  = 3 - unread
               /\ -1 <= shift <= 1
               /\ (shift = 1 -> sharp_B (Note letter accidental digit)
                                = Ascii.eqb letter "B")).
    { destruct accidental as [a |].
      - apply one_of_In in Ha. cbn [chars list_ascii_of_string In] in Ha.
        destruct Ha as [<- | [<- | [<- | []]]].
        + exists 1, 0, "#"%char. cbn. rewrite andb_true_r. repeat split; lia.
        + exists 1, 0, "+"%char. cbn. rewrite andb_true_r. repeat split; lia.
        + exists (-1), 0, "-"%char. cbn. repeat split; lia.
      - destruct (digit_no_accidental digit Hd) as [E1 E2].
        exists 0, 1, digit. cbn. repeat split; try assumption; lia. }
    destruct Hacc as (shift & unread & next & Hfirst & Hnext & Hshift & Hunread & Hdigit & Hlen
                      & Hrange & Hsharp).
    pose proof (R 0%nat _ Hfirst) as H0. rewrite Z.add_0_r in H0.
    pose proof (R 1%nat _ Hnext) as H1. change (Z.of_nat 1) with 1 in H1.
    pose proof (R _ _ Hdigit) as H2.
    assert (Hu : unread = 0 \/ unread = 1)
      by (destruct (accidental_range next); lia).
    rewrite Z2Nat.id in H2 by lia.
    specialize (N (set_output
                     (set_counts (set_position p (position p + 3 - unread))
                        ((tempo p + 1)
                         * array_get 0 lengthNumberToTickCount (digit_value digit)))
                     (array_get 0 (noteToPhaseRate p)
                        (clampPitch (array_get 0 letterToNoteNumber
                                       (char_to_int letter - char_to_int "A") + shift)
                         + octave p * 12)))).
    exists (set_output
              (set_counts (set_position p (position p + 3 - unread))
                 ((tempo p + 1)
                  * array_get 0 lengthNumberToTickCount (digit_value digit)))
              (array_get 0 (noteToPhaseRate p)
                 (clampPitch (array_get 0 letterToNoteNumber
                                (char_to_int letter - char_to_int "A") + shift)
                  + octave p * 12))).
    split;
      [| split;
         [ apply N;
           [ reflexivity | reflexivity
           | change (position p + 3 - unread
                     = position p
                       + Z.of_nat (List.length
                                     (command_chars (Note letter accidental digit))));
             rewrite Hlen; lia
           | exact Ho ]
         | cbn [octave tempo counts position set_position set_counts set_output];
           repeat split; lia ] ].
    clear N R Hfirst Hnext Hdigit Hlen.
    unfold TickBody. rewrite H0. cbn [bind].
    assert (Hidx : forall base,
               0 <= base <= 11 -> (base = 11 -> letter = "B"%char) ->
               0 <= clampPitch (base + shift) + octave p * 12
               < Z.of_nat (List.length (noteToPhaseRate p))).
    { intros base Hb HB. rewrite Ht. unfold clampPitch, NUM_OCTAVES, NOTES_PER_OCTAVE in *.
      destruct (Z.geb_spec (base + shift) (3 * 12)), (Z.ltb_spec (base + shift) 0); try lia.
      destruct (Z.eq_dec (base + shift) 12) as [E | E]; [| lia].
      assert (shift = 1) by lia. rewrite Hsharp, HB in Hs by lia.
      cbn in Hs. rewrite andb_true_r in Hs. apply Z.eqb_neq in Hs. lia. }
    destruct Hl as [<- | [<- | [<- | [<- | [<- | [<- | [<- | []]]]]]]].
    all: match goal with
         | |- context [letterToNoteNumber.[?i]] =>
             let v := eval vm_compute in (letterToNoteNumber.[i]) in
             change (letterToNoteNumber.[i]) with v
         end.
    all: match goal with
         | |- context [array_get 0 letterToNoteNumber ?i] =>
             let v := eval vm_compute in (array_get 0 letterToNoteNumber i) in
             change (array_get 0 letterToNoteNumber i) with v
         end.
    all: cbn [bind song position set_position]; rewrite H1; cbn [bind].
    all: rewrite applyAccidental_eq, Hshift, Hunread.
    all: rewrite (ReadNumber_digit_in 0 9 _ _ digit) by
           first [ lia | exact Hd
                 | cbn [song position set_position];
                   replace (position p + 1 + 1 - unread) with (position p + (2 - unread))
                     by lia;
                   exact H2 ].
    all: cbn [bind]; rewrite (length_table_digit _ Hr); cbn [bind].
    all: cbn [noteToPhaseRate octave tempo position set_position set_counts].
    all: rewrite (at_in_range _ _ 0) by (apply Hidx; [lia | discriminate || reflexivity]).
    all: cbn [bind].
    all: replace (position p + 1 + 1 - unread + 1) with (position p + 3 - unread) by lia.
    all: reflexivity.
Qed.

Lemma TickBody_end_of_commands (p : MMLPlayer) :
  at_commands p [] ->
  TickBody p = Ok (true, set_output (set_position (set_position p (position p + 1)) (-1)) 0).
Proof.
  intros [_ _ (before & Hsong & Hpos)]. cbn [flat_map app] in Hsong.
  assert (H0 : (song p).[position p + Z.of_nat 0] = Ok "000"%char)
    by (apply (read_command p before ["000"%char] []);
        [now rewrite app_nil_r | exact Hpos | reflexivity]).
  rewrite Z.add_0_r in H0. unfold TickBody. now rewrite H0.
Qed.

Lemma commands_length (cmds : list command) :
  (List.length cmds <= List.length (flat_map command_chars cmds))%nat.
Proof.
  induction cmds as [| c cmds IH]; [apply Nat.le_refl |].
  cbn [flat_map List.length]. rewrite length_app.
  assert (1 <= List.length (command_chars c))%nat
    by (destruct c as [| | | | | | ? [|] ?]; cbn; lia).
  lia.
Qed.

Lemma songTicks_length (cmds : list command) (tempo : Z) :
  (List.length (songTicks tempo cmds) <= List.length cmds)%nat.
Proof.
  revert tempo. induction cmds as [| c cmds IH]; intros tempo; [apply Nat.le_refl |].
  cbn [songTicks List.length].
  destruct (command_ticks c tempo); cbn [List.length];
    specialize (IH (command_tempo c tempo)); lia.
Qed.

Lemma at_commands_song_length (p : MMLPlayer) (cmds : list command) :
  at_commands p cmds -> (List.length cmds < S (List.length (song p)))%nat.
Proof.
  intros [_ _ (before & Hsong & _)]. rewrite Hsong, !length_app.
  pose proof (commands_length cmds). lia.
Qed.

(** The loop of [Tick] over valid commands: it stops at the first note or
    rest, with its ticks in [counts], or at the end of the song. *)
Lemma TickLoop_commands (cmds : list command) :
  forall fuel p,
    at_commands p cmds ->
    forallb valid_command cmds = true ->
    sharpens_B_in_top_octave (octave p) cmds = false ->
    (List.length cmds < fuel)%nat ->
    exists q,
      TickLoop fuel p = Ok q /\ song q = song p
      /\ match songTicks (tempo p) cmds with
         | [] => position q = -1
         | n :: ticks =>
             counts q = n /\ 0 <= position q
             /\ exists cmds',
                  at_commands q cmds'
                  /\ forallb valid_command cmds' = true
                  /\ sharpens_B_in_top_octave (octave q) cmds' = false
                  /\ songTicks (tempo q) cmds' = ticks
         end.
Proof.
  induction cmds as [| c cmds IH]; intros fuel p Hat Hv Hs Hfuel.
  - destruct fuel as [| fuel]; [cbn in Hfuel; lia |].
    cbn [TickLoop]. rewrite (TickBody_end_of_commands p Hat). cbn [bind].
    eexists. split; [reflexivity |]. split; reflexivity.
  - destruct fuel as [| fuel]; [cbn in Hfuel; lia |].
    cbn [forallb] in Hv. apply andb_true_iff in Hv. destruct Hv as [Hc Hv].
    cbn [sharpens_B_in_top_octave] in Hs. apply orb_false_iff in Hs.
    destruct Hs as [Hsc Hs].
    destruct (TickBody_command p c cmds Hat Hc Hsc)
      as (p' & Hbody & Hat' & Hoct & Htempo & Hpos & Hcounts).
    pose proof (TickBody_Ok _ _ _ Hbody) as (Hsong & _).
    cbn [TickLoop songTicks]. rewrite Hbody. cbn [bind].
    destruct (command_ticks c (tempo p)) as [n |].
    + exists p'. split; [reflexivity |]. split; [exact Hsong |].
      split; [exact Hcounts |]. split; [exact Hpos |].
      exists cmds. rewrite Hoct, Htempo.
      split; [exact Hat' | split; [exact Hv | split; [exact Hs | reflexivity]]].
    + destruct (IH fuel p' Hat' Hv ltac:(now rewrite Hoct) ltac:(cbn in Hfuel; lia))
        as (q & Hq & Hsq & Hrest).
      exists q. split; [exact Hq |]. split; [congruence |].
      now rewrite <- Htempo.
Qed.

(** The notes and rests that [Tick] parses from valid commands last the
    ticks of the commands. *)
Lemma songEventsFrom_commands (fuel : nat) :
  forall cmds p,
    at_commands p cmds ->
    forallb valid_command cmds = true ->
    sharpens_B_in_top_octave (octave p) cmds = false ->
    (List.length (songTicks (tempo p) cmds) < fuel)%nat ->
    exists events,
      songEventsFrom fuel p = Ok events
      /\ map e_ticks events = songTicks (tempo p) cmds.
Proof.
  induction fuel as [| fuel IH]; intros cmds p Hat Hv Hs Hfuel; [lia |].
  destruct (TickLoop_commands cmds _ p Hat Hv Hs (at_commands_song_length p cmds Hat))
    as (q & Hq & Hsong & Hrest).
  cbn [songEventsFrom]. rewrite Hq. cbn [bind]. unfold IsDone.
  destruct (songTicks (tempo p) cmds) as [| n ticks].
  - rewrite Hrest. exists []. split; reflexivity.
  - destruct Hrest as (Hn & Hpos & cmds' & Hat' & Hv' & Hs' & Hticks).
    destruct (Z.ltb_spec (position q) 0); [lia |].
    destruct (IH cmds' q Hat' Hv' Hs' ltac:(rewrite Hticks; cbn in Hfuel; lia))
      as (events & Hevents & Hmap).
    rewrite Hevents. cbn [bind]. eexists. split; [reflexivity |].
    cbn [map e_ticks]. now rewrite Hmap, Hticks, Hn.
Qed.

Lemma totalTicks_sum (events : list Event) :
  totalTicks events = fold_right Z.add 0 (map e_ticks events).
Proof.
  unfold totalTicks. induction events as [| e events IH]; [reflexivity |].
  cbn [fold_right map]. now rewrite IH.
Qed.

(** ** The samples of a run of sounding ticks *)

Lemma renderTick_steps (w : SquareWavetable) (tableNum phaseRate : Z) (l : list Z) :
  forall (samples : list Z) (phase : Z),
    let step := fun '(samples, phase) (_ : Z) =>
                  let sample := Lookup w phase tableNum in
                  (samples ++ [int16_of_float (fmul (float_of_int 16384) sample)],
                   (phase + phaseRate) mod 2 ^ 32) in
    fold_left step l (samples, phase)
    = (samples ++ fst (fold_left step l ([], phase)),
       match l with
       | [] => phase
       | _ => (phase + Z.of_nat (List.length l) * phaseRate) mod 2 ^ 32
       end).
Proof.
  induction l as [| i l IH]; intros samples phase; cbv zeta in *; cbn [fold_left].
  - now rewrite app_nil_r.
  - rewrite IH. rewrite (IH ([] ++ _)). cbn [fst app]. rewrite <- app_assoc. f_equal.
    destruct l as [| j l].
    + cbn [List.length]. f_equal; lia.
    + rewrite Zplus_mod_idemp_l. cbn [List.length]. f_equal; lia.
Qed.

Lemma renderTick_chunk (w : SquareWavetable) (tableNum phaseRate : Z)
    (samples : list Z) (phase : Z) :
  renderTick w tableNum phaseRate (samples, phase)
  = (samples ++ fst (renderTick w tableNum phaseRate ([], phase)),
     (phase + TICK_LENGTH * phaseRate) mod 2 ^ 32).
Proof.
  unfold renderTick, for_range.
  set (l := map (fun k => 0 + Z.of_nat k) (seq 0 (Z.to_nat (TICK_LENGTH - 0)))).
  assert (Hl : List.length l = Z.to_nat TICK_LENGTH)
    by (unfold l; now rewrite length_map, length_seq).
  clearbody l.
  etransitivity; [apply (renderTick_steps w tableNum phaseRate l) |].
  f_equal. destruct l; [discriminate Hl | now rewrite Hl].
Qed.

Lemma renderTick_first_samples (w : SquareWavetable) (tableNum phaseRate phase : Z) :
  exists rest,
    fst (renderTick w tableNum phaseRate ([], phase))
    = int16_of_float (fmul (float_of_int 16384) (Lookup w phase tableNum))
      :: int16_of_float (fmul (float_of_int 16384)
                           (Lookup w ((phase + phaseRate) mod 2 ^ 32) tableNum))
      :: rest.
Proof.
  unfold renderTick, for_range.
  change (Z.to_nat (TICK_LENGTH - 0)) with (S (S 2698)).
  generalize 2698%nat. intros n.
  cbn [seq map fold_left app].
  rewrite (renderTick_steps w tableNum phaseRate). cbn [fst app].
  eexists. reflexivity.
Qed.

Lemma tickRates_cons (fuel : nat) (p : MMLPlayer) (rate : Z) (rates : list Z) :
  tickRates fuel p = Ok (rate :: rates) ->
  exists fuel' q,
    fuel = S fuel' /\ IsDone p = false /\ Tick p = Ok (rate, q)
    /\ tickRates fuel' q = Ok rates.
Proof.
  destruct fuel as [| fuel]; [discriminate |]. cbn [tickRates].
  destruct (IsDone p); [discriminate |]. intros H.
  apply bind_Ok in H. destruct H as [[r q] [Ht H]].
  apply bind_Ok in H. destruct H as [rs [Hrs H]].
  assert (r = rate /\ rs = rates) as [-> ->] by (split; congruence).
  now exists fuel, q.
Qed.

Lemma tickRates_nil (fuel : nat) (p : MMLPlayer) :
  tickRates fuel p = Ok [] -> exists fuel', fuel = S fuel' /\ IsDone p = true.
Proof.
  destruct fuel as [| fuel]; [discriminate |]. cbn [tickRates].
  destruct (IsDone p); [now exists fuel |]. intros H.
  apply bind_Ok in H. destruct H as [[r q] [Ht H]].
  apply bind_Ok in H. destruct H as [rs [Hrs H]]. discriminate.
Qed.

Lemma soundingTicks_S (w : SquareWavetable) (phaseRate phase : Z) (n : nat) :
  0 <= phase < 2 ^ 32 ->
  soundingTicks w phaseRate phase (S n)
  = fst (renderTick w (GetTable w phaseRate) phaseRate ([], phase))
    ++ soundingTicks w phaseRate ((phase + TICK_LENGTH * phaseRate) mod 2 ^ 32) n.
Proof.
  intros Hp. unfold soundingTicks. cbn [seq map List.concat].
  rewrite Z.mul_0_l, Z.add_0_r, (Z.mod_small phase) by lia.
  rewrite <- seq_shift, map_map.
  apply (f_equal (fun chunks => _ ++ List.concat chunks)).
  apply map_ext. intros k.
  rewrite Zplus_mod_idemp_l.
  replace (phase + Z.of_nat (S k) * (TICK_LENGTH * phaseRate))
    with (phase + TICK_LENGTH * phaseRate + Z.of_nat k * (TICK_LENGTH * phaseRate))
    by (rewrite Nat2Z.inj_succ; ring).
  reflexivity.
Qed.

(** When [Tick] returns [n] times the same rate, not zero, and then 0 at
    the end of the song, the render loop returns the samples of [n]
    sounding ticks and one block of zeros. *)
Lemma renderLoop_sounding_ticks (w : SquareWavetable) (rate : Z) (n : nat) :
  rate <> 0 ->
  forall (fuel : nat) (p : MMLPlayer) (samples : list Z) (phase rate0 : Z),
    0 <= phase < 2 ^ 32 ->
    tickRates fuel p = Ok (repeat rate n ++ [0]) ->
    renderLoop fuel (mkRenderState w p samples phase rate0)
    = Ok (samples ++ soundingTicks w rate phase n ++ repeat 0 (Z.to_nat TICK_LENGTH)).
Proof.
  intros Hrate. induction n as [| n IH]; intros fuel p samples phase rate0 Hphase H.
  - cbn [repeat app] in H.
    destruct (tickRates_cons _ _ _ _ H) as (fuel1 & q & -> & Hd & Ht & H1).
    destruct (tickRates_nil _ _ H1) as (fuel2 & -> & Hq).
    cbn [renderLoop r_player]. rewrite Hd. unfold renderBody.
    cbn [r_player r_wavetable r_data r_phase]. rewrite Ht. cbn [bind Z.eqb renderLoop r_player].
    rewrite Hq. reflexivity.
  - cbn [repeat app] in H.
    destruct (tickRates_cons _ _ _ _ H) as (fuel1 & q & -> & Hd & Ht & H1).
    cbn [renderLoop r_player]. rewrite Hd. unfold renderBody.
    cbn [r_player r_wavetable r_data r_phase]. rewrite Ht. cbn [bind].
    destruct (Z.eqb_spec rate 0) as [E | _]; [contradiction |].
    rewrite renderTick_chunk. cbn [bind].
    rewrite (IH fuel1 q) by (exact H1 || (apply Z.mod_pos_bound; lia)).
    rewrite soundingTicks_S by exact Hphase.
    now rewrite <- !app_assoc.
Qed.

Lemma soundingTicks_length (w : SquareWavetable) (rate phase : Z) (n : nat) :
  Z.of_nat (List.length (soundingTicks w rate phase n)) = Z.of_nat n * TICK_LENGTH.
Proof.
  unfold soundingTicks.
  assert (H : forall l : list nat,
             Z.of_nat (List.length
               (List.concat (map (fun k => fst (renderTick w (GetTable w rate) rate
                                             ([], (phase + Z.of_nat k * (TICK_LENGTH * rate))
                                                  mod 2 ^ 32))) l)))
             = Z.of_nat (List.length l) * TICK_LENGTH).
  { clear. induction l as [| k l IH]; [reflexivity |].
    cbn [map List.concat]. rewrite length_app, Nat2Z.inj_add, IH.
    destruct (renderTick_length w (GetTable w rate) rate []
                ((phase + Z.of_nat k * (TICK_LENGTH * rate)) mod 2 ^ 32))
      as (chunk & phase' & E & Hlen).
    rewrite E. cbn [fst app List.length]. lia. }
  rewrite H. now rewrite length_seq.
Qed.

(** ** The render at an address *)

Lemma at_app_Ok {A : Type} (a b : list A) (i : Z) (x : A) :
  a.[i] = Ok x -> (a ++ b).[i] = Ok x.
Proof.
  unfold at_. destruct (i <? 0); [discriminate |].
  destruct (nth_error a (Z.to_nat i)) eqn:E; [| discriminate].
  intros [= ->]. rewrite nth_error_app1 by (apply nth_error_Some; congruence).
  now rewrite E.
Qed.

Lemma at_not_Throw {A : Type} (a : list A) (i : Z) (what : string) : a.[i] <> Throw what.
Proof.
  unfold at_. destruct (i <? 0); [discriminate |].
  destruct (nth_error a (Z.to_nat i)); discriminate.
Qed.

Ltac next_word_step N :=
  simpl; rewrite ?applyAccidental_eq; simpl;
  simpl in N; rewrite ?applyAccidental_eq in N; simpl in N;
  try reflexivity;
  match goal with
  | |- context [bind ((?t ++ _).[?i]) _] =>
      let E := fresh "E" in
      destruct (t.[i]) eqn:E;
      [ rewrite (at_app_Ok _ _ _ _ E); reflexivity
      | exfalso; eapply at_not_Throw; eassumption
      | exfalso; eapply N; reflexivity
      | exfalso; eapply at_not_OutOfFuel; eassumption ]
  | |- context [bind (?a.[?i]) _] => destruct (a.[i]) eqn:?
  | |- context [if ?c then _ else _] => destruct c eqn:?
  end.

Lemma TickBody_in_memory (word : Z) (p : MMLPlayer) :
  (forall idx, TickBody p <> OutOfBounds idx) ->
  TickBody (MMLPlayer_in_memory word p) = in_memory word (TickBody p).
Proof.
  destruct p as [table sg pos oct out tmp cnt].
  unfold TickBody, ReadNumber, MMLPlayer_in_memory, in_memory; simpl.
  destruct (sg.[pos]) as [curr | | |] eqn:Hc; simpl; try reflexivity.
  intros N.
  each_char curr; simpl; try reflexivity.
  all: simpl in N.
  all: repeat next_word_step N.
Qed.

Lemma TickLoop_in_memory (word : Z) (fuel : nat) :
  forall p,
    (forall idx, TickLoop fuel p <> OutOfBounds idx) ->
    TickLoop fuel (MMLPlayer_in_memory word p)
    = (q <- TickLoop fuel p ;; Ok (MMLPlayer_in_memory word q)).
Proof.
  induction fuel as [| fuel IH]; intros p N; [reflexivity |].
  cbn [TickLoop] in N |- *.
  rewrite TickBody_in_memory
    by (intros idx E; apply (N idx); now rewrite E).
  destruct (TickBody p) as [[done q] | | |]; cbn [bind in_memory] in N |- *;
    try reflexivity.
  destruct done; [reflexivity | now apply IH].
Qed.

Lemma Tick_in_memory (word : Z) (p : MMLPlayer) :
  (forall idx, Tick p <> OutOfBounds idx) ->
  Tick (MMLPlayer_in_memory word p) = in_memory word (Tick p).
Proof.
  unfold Tick. cbv zeta.
  change (set_counts (MMLPlayer_in_memory word p) (counts (MMLPlayer_in_memory word p) - 1))
    with (MMLPlayer_in_memory word (set_counts p (counts p - 1))).
  set (q := set_counts p (counts p - 1)).
  change (counts (MMLPlayer_in_memory word q)) with (counts q).
  change (position (MMLPlayer_in_memory word q)) with (position q).
  change (output (MMLPlayer_in_memory word q)) with (output q).
  change (song (MMLPlayer_in_memory word q)) with (song q).
  destruct (counts q >? 0); [reflexivity |].
  destruct (position q <? 0); [reflexivity |].
  intros N.
  rewrite TickLoop_in_memory
    by (intros idx E; apply (N idx); now rewrite E).
  destruct (TickLoop _ q); reflexivity.
Qed.

Lemma renderBody_in_memory (word : Z) (st : RenderState) :
  (forall idx, renderBody st <> OutOfBounds idx) ->
  renderBody (RenderState_in_memory word st)
  = (st' <- renderBody st ;; Ok (RenderState_in_memory word st')).
Proof.
  unfold renderBody. cbn [RenderState_in_memory r_wavetable r_player r_data r_phase].
  intros N.
  rewrite Tick_in_memory
    by (intros idx E; apply (N idx); now rewrite E).
  destruct (Tick (r_player st)) as [[rate q] | | |]; cbn [bind in_memory]; try reflexivity.
  destruct (rate =? 0); [reflexivity |].
  destruct (renderTick _ _ _ _). reflexivity.
Qed.

(** A render that reads nothing out of range does not depend on the word
    after the note table. *)
Lemma renderLoop_in_memory (word : Z) (fuel : nat) :
  forall st,
    (forall idx, renderLoop fuel st <> OutOfBounds idx) ->
    renderLoop fuel (RenderState_in_memory word st) = renderLoop fuel st.
Proof.
  induction fuel as [| fuel IH]; intros st N; [reflexivity |].
  cbn [renderLoop] in N |- *.
  change (IsDone (r_player (RenderState_in_memory word st))) with (IsDone (r_player st)).
  destruct (IsDone (r_player st)); [reflexivity |].
  rewrite renderBody_in_memory
    by (intros idx E; apply (N idx); now rewrite E).
  destruct (renderBody st) as [st' | | |]; cbn [bind] in N |- *; try reflexivity.
  now apply IH.
Qed.

Lemma tickRates_O2Bsharp_in_memory (word : Z) (p : MMLPlayer) :
  List.length (noteToPhaseRate p) = 36%nat ->
  (noteToPhaseRate (MMLPlayer_in_memory word (Load p (chars "O2B#4")))).[36] = Ok word
  /\ tickRates (tickBudget (MMLPlayer_in_memory word (Load p (chars "O2B#4"))))
       (MMLPlayer_in_memory word (Load p (chars "O2B#4")))
     = Ok (repeat word 30 ++ [0]).
Proof.
  intros H. rewrite Load_table.
  destruct (table_of_length_36 p H)
    as (x00 & x01 & x02 & x03 & x04 & x05 & x06 & x07 & x08 & x09 & x10 & x11 &
        x12 & x13 & x14 & x15 & x16 & x17 & x18 & x19 & x20 & x21 & x22 & x23 &
        x24 & x25 & x26 & x27 & x28 & x29 & x30 & x31 & x32 & x33 & x34 & x35 & ->).
  split; vm_compute; reflexivity.
Qed.

Lemma second_sample (w : SquareWavetable) (rate : Z) (n : nat) (tail : list Z) :
  nth 1 (soundingTicks w rate 0 (S n) ++ tail) 0
  = int16_of_float (fmul (float_of_int 16384) (Lookup w (rate mod 2 ^ 32) (GetTable w rate))).
Proof.
  rewrite soundingTicks_S by lia.
  destruct (renderTick_first_samples w (GetTable w rate) rate 0) as (rest & ->).
  cbn [app nth]. now rewrite Z.add_0_l.
Qed.

Lemma Lookup_new (sinf : float -> float) (m : Memory) (sampleRate phase : Z) (k : nat) :
  Z.of_nat k < WAVETABLE_NUM_TABLES ->
  Lookup (SquareWavetable_new sinf m sampleRate) phase (Z.of_nat k)
  = Lookup (mkSquareWavetable (repeat [] k ++ [squareTable sinf (tableHarmonics k)]) [])
      phase (Z.of_nat k).
Proof.
  intros Hk. unfold Lookup. rewrite SquareWavetable_new_eq. cbn [data].
  rewrite array_get_uninitialized by lia.
  assert (E : array_get [] (repeat [] k ++ [squareTable sinf (tableHarmonics k)]) (Z.of_nat k)
              = squareTable sinf (tableHarmonics k)).
  { unfold array_get. rewrite Nat2Z.id, app_nth2 by (rewrite repeat_length; lia).
    now rewrite repeat_length, Nat.sub_diag. }
  now rewrite E, Nat2Z.id.
Qed.

Lemma render_of_O2Bsharp_at (sinf : float -> float) (pow : double -> double -> double)
    (m : Memory) (address : Z) :
  address mod 2 ^ 32 <> 0 ->
  GenerateSongSquareWave_at sinf pow m address (chars "O2B#4")
  = Ok (soundingTicks (SquareWavetable_new sinf m SAMPLE_RATE) (address mod 2 ^ 32) 0 30
        ++ repeat 0 (Z.to_nat TICK_LENGTH)).
Proof.
  intros Hword. unfold GenerateSongSquareWave_at, MMLPlayer_new_song. cbv zeta.
  rewrite (renderLoop_sounding_ticks _ (address mod 2 ^ 32) 30 Hword _ _ [] 0 0
             ltac:(lia)
             (proj2 (tickRates_O2Bsharp_in_memory (address mod 2 ^ 32) _
                       (MMLPlayer_new_table_length pow m SAMPLE_RATE)))).
  rewrite app_nil_l. reflexivity.
Qed.

Lemma second_sample_of_O2Bsharp_at (address : Z) :
  lower_bound [3895662; 7791324; 15582648; 31165296; 62330592; 124661184;
               249322368; 498644736] 0 (WAVETABLE_NUM_TABLES - 1) (address mod 2 ^ 32)
  = Z.of_nat 7 ->
  address mod 2 ^ 32 <> 0 ->
  exists samples,
    GenerateSongSquareWave_at sinf_small pow_quarters memory_zero address (chars "O2B#4")
    = Ok samples
    /\ nth 1 samples 0
       = int16_of_float
           (fmul (float_of_int 16384)
              (Lookup (mkSquareWavetable
                         (repeat [] 7 ++ [squareTable sinf_small (tableHarmonics 7)]) [])
                 ((address mod 2 ^ 32) mod 2 ^ 32) (Z.of_nat 7))).
Proof.
  intros Htable Hword. eexists. split; [now apply render_of_O2Bsharp_at |].
  rewrite second_sample. unfold GetTable. rewrite topPhaseRate_SAMPLE_RATE, Htable.
  rewrite Lookup_new by (unfold WAVETABLE_NUM_TABLES; lia).
  reflexivity.
Qed.

Lemma GenerateSongSquareWave_at_in_range (sinf : float -> float)
    (pow : double -> double -> double) (m m' : Memory) (address : Z) (songstr : list ascii) :
  (forall idx, GenerateSongSquareWave sinf pow m songstr <> OutOfBounds idx) ->
  GenerateSongSquareWave_at sinf pow m' address songstr
  = GenerateSongSquareWave sinf pow m songstr.
Proof.
  intros N. unfold GenerateSongSquareWave_at, GenerateSongSquareWave in *.
  rewrite (SquareWavetable_new_memory sinf m' m). unfold MMLPlayer_new_song in *.
  rewrite (MMLPlayer_new_memory pow m' m). cbv zeta in *.
  set (p := Load (MMLPlayer_new pow m SAMPLE_RATE) songstr) in *.
  set (w := SquareWavetable_new sinf m SAMPLE_RATE) in *.
  clearbody p w.
  change (tickBudget (MMLPlayer_in_memory (address mod 2 ^ 32) p)) with (tickBudget p).
  change (mkRenderState w (MMLPlayer_in_memory (address mod 2 ^ 32) p) [] 0 0)
    with (RenderState_in_memory (address mod 2 ^ 32) (mkRenderState w p [] 0 0)).
  now apply renderLoop_in_memory.
Qed.

Lemma renders_of_O2Bsharp_at_two_addresses :
  GenerateSongSquareWave_at sinf_small pow_quarters memory_zero 0x5581E6C2AEB0
    (chars "O2B#4")
  <> GenerateSongSquareWave_at sinf_small pow_quarters memory_zero 0x55D0A1F3BEB0
       (chars "O2B#4").
Proof.
  destruct (second_sample_of_O2Bsharp_at 0x5581E6C2AEB0) as (samples & E & Hs);
    [vm_compute; reflexivity | vm_compute; discriminate |].
  destruct (second_sample_of_O2Bsharp_at 0x55D0A1F3BEB0) as (samples' & E' & Hs');
    [vm_compute; reflexivity | vm_compute; discriminate |].
  rewrite E, E'. intros H.
  assert (Hsame : nth 1 samples 0 = nth 1 samples' 0) by congruence.
  rewrite Hs, Hs' in Hsame. revert Hsame. vm_compute. discriminate.
Qed.

(** * The claims *)

Section Claims.

Variable sinf : float -> float.
Variable pow : double -> double -> double.
Variable m : Memory.

(** C1 (the code departs from it). A sharp on the highest note of the top
    octave is not nudged inward: the comparison of [clampPitch] is against the
    size of the whole table while the pitch is still relative to its octave,
    so ["O2B#4"] looks up entry [12 + 2 * 12 = 36] of the 36 entries. (A flat
    on the lowest note of octave 0 is nudged from -1 to entry 0.) *)
Theorem B_sharp_in_top_octave_reads_past_the_table :
  let player := MMLPlayer_new_song pow m SAMPLE_RATE (chars "O2B#4") in
  Z.of_nat (List.length (noteToPhaseRate player)) = NUM_OCTAVES * NOTES_PER_OCTAVE
  /\ clampPitch (11 + 1) + 2 * 12 = 36
  /\ clampPitch (0 - 1) + 0 * 12 = 0
  /\ Tick player = OutOfBounds 36
  /\ GenerateSongSquareWave sinf pow m (chars "O2B#4") = OutOfBounds 36.
Proof.
  cbv zeta.
  assert (Hlen : List.length (noteToPhaseRate (MMLPlayer_new pow m SAMPLE_RATE)) = 36%nat)
    by apply MMLPlayer_new_table_length.
  assert (Ht : Tick (MMLPlayer_new_song pow m SAMPLE_RATE (chars "O2B#4")) = OutOfBounds 36)
    by (apply Tick_O2Bsharp; exact Hlen).
  split; [| split; [| split; [| split]]].
  - cbn [MMLPlayer_new_song Load noteToPhaseRate]. rewrite Hlen. reflexivity.
  - reflexivity.
  - reflexivity.
  - exact Ht.
  - unfold GenerateSongSquareWave, tickBudget.
    cbn [MMLPlayer_new_song Load song Nat.add].
    apply renderLoop_OutOfBounds; [reflexivity | exact Ht].
Qed.

(** C2 (as amended). ["R0"] renders six ticks of zeros: the five of the
    rest, [(tempo + 1) * lengthNumberToTickCount[0]] at the tempo 4 that
    [Load] sets, and the tick in which the end of the song is read. *)
Theorem R0_renders_six_silent_ticks :
  let player := MMLPlayer_new_song pow m SAMPLE_RATE (chars "R0") in
  let ticks := (tempo player + 1) * array_get 0 lengthNumberToTickCount 0 in
  ticks = 5
  /\ GenerateSongSquareWave sinf pow m (chars "R0")
     = Ok (repeat 0 (Z.to_nat ((ticks + 1) * TICK_LENGTH))).
Proof. split; [reflexivity | apply renderLoop_R0]. Qed.

Lemma MMLPlayer_new_song_at_commands (songstr : list ascii) (cmds : list command) :
  map toupper songstr = flat_map command_chars cmds ->
  at_commands (MMLPlayer_new_song pow m SAMPLE_RATE songstr) cmds.
Proof.
  intros Htext. constructor.
  - apply MMLPlayer_new_table_length.
  - cbn. lia.
  - exists []. cbn [MMLPlayer_new_song Load song position app List.length].
    now rewrite Htext.
Qed.

(** C3 (as amended). Rendering ends within its budget of ticks for every
    text. A text made of valid commands, with no sharp on B in the top
    octave, parses into its notes and rests, each lasting
    [(tempo + 1) * lengthNumberToTickCount[digit]] ticks, and the render
    returns [TICK_LENGTH] samples for each of these ticks and for one tick
    more. So does the render of every text that parses into notes and
    rests. *)
Theorem render_terminates_and_counts (songstr : list ascii) :
  GenerateSongSquareWave sinf pow m songstr <> OutOfFuel
  /\ (forall cmds,
        map toupper songstr = flat_map command_chars cmds ->
        forallb valid_command cmds = true ->
        sharpens_B_in_top_octave 1 cmds = false ->
        exists events samples,
          songEvents (MMLPlayer_new_song pow m SAMPLE_RATE songstr) = Ok events
          /\ map e_ticks events = songTicks 4 cmds
          /\ GenerateSongSquareWave sinf pow m songstr = Ok samples
          /\ Z.of_nat (List.length samples)
             = TICK_LENGTH * (fold_right Z.add 0 (songTicks 4 cmds) + 1))
  /\ forall events,
       songEvents (MMLPlayer_new_song pow m SAMPLE_RATE songstr) = Ok events ->
       Forall event_ticks_ok events
       /\ exists samples,
            GenerateSongSquareWave sinf pow m songstr = Ok samples
            /\ Z.of_nat (List.length samples) = TICK_LENGTH * (totalTicks events + 1).
Proof.
  pose proof (GenerateSongSquareWave_follows sinf pow m songstr) as F.
  assert (Hcount : forall events,
             songEvents (MMLPlayer_new_song pow m SAMPLE_RATE songstr) = Ok events ->
             exists samples,
               GenerateSongSquareWave sinf pow m songstr = Ok samples
               /\ Z.of_nat (List.length samples) = TICK_LENGTH * (totalTicks events + 1)).
  { intros events E. rewrite E in F. destruct F as (body & -> & Hbody).
    eexists. split; [reflexivity |].
    cbn [app]. rewrite length_app, repeat_length. unfold TICK_LENGTH in *. lia. }
  split; [| split].
  - pose proof (songEvents_not_OutOfFuel (MMLPlayer_new_song pow m SAMPLE_RATE songstr)) as N.
    specialize (N ltac:(rewrite MMLPlayer_new_song_position; lia)).
    destruct (songEvents (MMLPlayer_new_song pow m SAMPLE_RATE songstr));
      cbn [follows] in F; try congruence.
    destruct F as (body & -> & _). discriminate.
  - intros cmds Htext Hvalid Hsharp.
    pose proof (MMLPlayer_new_song_at_commands songstr cmds Htext) as Hat.
    destruct (songEventsFrom_commands
                (S (List.length (song (MMLPlayer_new_song pow m SAMPLE_RATE songstr))))
                cmds _ Hat Hvalid Hsharp) as (events & E & Hticks).
    { pose proof (songTicks_length cmds
                    (tempo (MMLPlayer_new_song pow m SAMPLE_RATE songstr))).
      pose proof (at_commands_song_length _ _ Hat). lia. }
    change (tempo (MMLPlayer_new_song pow m SAMPLE_RATE songstr)) with 4 in Hticks.
    destruct (Hcount events E) as (samples & Hr & Hlen).
    exists events, samples.
    split; [exact E |]. split; [exact Hticks |]. split; [exact Hr |].
    now rewrite <- Hticks, <- totalTicks_sum.
  - intros events E. split; [| exact (Hcount events E)].
    apply (songEventsFrom_ticks _ _ events
             ltac:(rewrite MMLPlayer_new_song_tempo; lia) E).
Qed.

(** C8. ["Z4"] fails in the first call of [Tick], on the character that is
    no command; the failure is the outcome of the pass of the render loop
    that made the call, whatever had been rendered before, and of the whole
    render: no pass follows and no samples are returned. *)
Theorem Z4_raises_on_first_tick :
  let player := MMLPlayer_new_song pow m SAMPLE_RATE (chars "Z4") in
  let wavetable := SquareWavetable_new sinf m SAMPLE_RATE in
  Tick player = Throw "Invalid character in song string"
  /\ (forall samples phase rate fuel,
        renderBody (mkRenderState wavetable player samples phase rate)
        = Throw "Invalid character in song string"
        /\ renderLoop (S fuel) (mkRenderState wavetable player samples phase rate)
           = Throw "Invalid character in song string")
  /\ GenerateSongSquareWave sinf pow m (chars "Z4")
     = Throw "Invalid character in song string".
Proof.
  cbv zeta.
  assert (Ht : Tick (MMLPlayer_new_song pow m SAMPLE_RATE (chars "Z4"))
               = Throw "Invalid character in song string") by apply Tick_Z4.
  split; [exact Ht |]. split.
  - intros samples phase rate fuel. apply renderLoop_Throw; [reflexivity | exact Ht].
  - unfold GenerateSongSquareWave, tickBudget.
    cbn [MMLPlayer_new_song Load song Nat.add].
    apply renderLoop_Throw; [reflexivity | exact Ht].
Qed.

(** C10. When the text parses into notes and rests, the render returns the
    samples of their ticks followed by one block of [TICK_LENGTH] zeros, the
    tick in which [Tick] reads the end of the song and returns 0; the render
    returns for no other text; and the empty text renders that block alone. *)
Theorem render_ends_with_one_silent_tick :
  GenerateSongSquareWave sinf pow m [] = Ok (repeat 0 (Z.to_nat TICK_LENGTH))
  /\ (forall songstr events,
        songEvents (MMLPlayer_new_song pow m SAMPLE_RATE songstr) = Ok events ->
        exists body,
          GenerateSongSquareWave sinf pow m songstr
          = Ok (body ++ repeat 0 (Z.to_nat TICK_LENGTH))
          /\ Z.of_nat (List.length body) = TICK_LENGTH * totalTicks events)
  /\ (forall songstr samples,
        GenerateSongSquareWave sinf pow m songstr = Ok samples ->
        exists events,
          songEvents (MMLPlayer_new_song pow m SAMPLE_RATE songstr) = Ok events).
Proof.
  split; [apply renderLoop_empty |]. split.
  - intros songstr events E.
    pose proof (GenerateSongSquareWave_follows sinf pow m songstr) as F.
    rewrite E in F. destruct F as (body & -> & Hbody).
    exists body. split; [reflexivity | exact Hbody].
  - intros songstr samples H.
    pose proof (GenerateSongSquareWave_follows sinf pow m songstr) as F.
    pose proof (songEvents_not_OutOfFuel (MMLPlayer_new_song pow m SAMPLE_RATE songstr)) as N.
    specialize (N ltac:(rewrite MMLPlayer_new_song_position; lia)).
    destruct (songEvents (MMLPlayer_new_song pow m SAMPLE_RATE songstr)) as [events | | |];
      cbn [follows] in F; try congruence.
    now exists events.
Qed.

(** C4. ["T4 O0 C8"] makes [Tick] return [(4 + 1) * 24 = 120] times the
    phase rate of note 0, C of octave 0, and then the 0 of the end of the
    song; each pass of the render loop over these ticks adds [TICK_LENGTH]
    samples, and the render returns the samples of 120 sounding ticks at
    that rate, [TICK_LENGTH] for each, followed by the zeros of the last
    tick. With a [pow] accurate to one unit in the last place the rate is
    12740059, not zero. *)
Theorem T4_O0_C8_sounds_120_ticks_of_C0 :
  pow_accurate pow ->
  let player := MMLPlayer_new_song pow m SAMPLE_RATE (chars "T4 O0 C8") in
  let wavetable := SquareWavetable_new sinf m SAMPLE_RATE in
  exists rate,
    (noteToPhaseRate player).[0 + 0 * 12] = Ok rate
    /\ rate = 12740059 /\ rate <> 0
    /\ lengthNumberToTickCount.[8] = Ok 24
    /\ tickRates (tickBudget player) player = Ok (repeat rate (Z.to_nat ((4 + 1) * 24)) ++ [0])
    /\ (forall k, (k <= 120)%nat ->
          exists st,
            renderIter k (mkRenderState wavetable player [] 0 0) = Ok st
            /\ Z.of_nat (List.length (r_data st)) = Z.of_nat k * TICK_LENGTH
            /\ ((1 <= k)%nat -> r_phaseRate st = rate))
    /\ GenerateSongSquareWave sinf pow m (chars "T4 O0 C8")
       = Ok (soundingTicks wavetable rate 0 120 ++ repeat 0 (Z.to_nat TICK_LENGTH))
    /\ forall phase,
         Z.of_nat (List.length (fst (renderTick wavetable (GetTable wavetable rate) rate
                                       ([], phase))))
         = TICK_LENGTH.
Proof.
  intros Hpow. cbv zeta.
  pose proof (MMLPlayer_new_table_length pow m SAMPLE_RATE) as Hlen.
  pose proof (tickRates_T4_O0_C8 (MMLPlayer_new pow m SAMPLE_RATE) Hlen) as Hrates.
  assert (Hrate : array_get 0 (noteToPhaseRate (MMLPlayer_new pow m SAMPLE_RATE)) 0 = 12740059).
  { rewrite MMLPlayer_new_table. change (notePhaseRate pow SAMPLE_RATE 0 = 12740059).
    now apply notePhaseRate_C0. }
  rewrite Hrate in Hrates.
  exists 12740059. split; [| split; [| split; [| split; [| split; [| split; [| split]]]]]].
  - cbn [MMLPlayer_new_song Load noteToPhaseRate]. change (0 + 0 * 12) with 0.
    rewrite (at_in_range _ _ 0) by (rewrite Hlen; lia).
    now rewrite Hrate.
  - reflexivity.
  - discriminate.
  - reflexivity.
  - exact Hrates.
  - intros k Hk.
    destruct (renderIter_tickRates (SquareWavetable_new sinf m SAMPLE_RATE) k _ _ _
                [] 0 0 Hrates)
      as (st & Est & Hdata & Hr).
    { rewrite length_app, repeat_length. cbn [List.length]. lia. }
    exists st. split; [exact Est |]. split; [cbn [List.length] in Hdata; lia |].
    intros Hk1. rewrite Hr.
    destruct k as [| k]; [lia |]. cbn [nth].
    rewrite app_nth1 by (rewrite repeat_length; lia).
    rewrite (nth_indep _ 0 12740059) by (rewrite repeat_length; lia).
    apply nth_repeat.
  - unfold GenerateSongSquareWave, MMLPlayer_new_song. cbv zeta.
    rewrite (renderLoop_sounding_ticks (SquareWavetable_new sinf m SAMPLE_RATE)
               12740059 120 ltac:(discriminate) _ _ [] 0 0 ltac:(lia) Hrates).
    rewrite app_nil_l. reflexivity.
  - intros phase.
    destruct (renderTick_length (SquareWavetable_new sinf m SAMPLE_RATE)
                (GetTable (SquareWavetable_new sinf m SAMPLE_RATE) 12740059) 12740059
                [] phase) as (chunk & phase' & -> & Hchunk).
    exact Hchunk.
Qed.

(** C5. On thresholds that grow with the table index, [GetTable] returns
    the lowest table whose threshold is not below the rate, and the last
    table when the rate is above every threshold; so the threshold of the
    table it returns is below the rate for the last table only. *)
Theorem GetTable_lowest_table_that_does_not_alias (w : SquareWavetable) (phaseRate : Z) :
  Z.of_nat (List.length (topPhaseRate w)) = WAVETABLE_NUM_TABLES ->
  increasing (topPhaseRate w) ->
  let top := array_get 0 (topPhaseRate w) in
  let t := GetTable w phaseRate in
  0 <= t < WAVETABLE_NUM_TABLES
  /\ ((exists i, 0 <= i < WAVETABLE_NUM_TABLES /\ phaseRate <= top i) ->
      phaseRate <= top t /\ forall i, 0 <= i < t -> top i < phaseRate)
  /\ ((forall i, 0 <= i < WAVETABLE_NUM_TABLES -> top i < phaseRate) ->
      t = WAVETABLE_NUM_TABLES - 1)
  /\ (top t < phaseRate -> t = WAVETABLE_NUM_TABLES - 1).
Proof.
  intros Hlen Hinc. cbv zeta.
  destruct (GetTable_spec w phaseRate Hlen Hinc) as (Hr & Hbelow & Habove).
  unfold WAVETABLE_NUM_TABLES in *.
  split; [lia |]. split; [| split].
  - intros (i & Hi & Hle). split; [| exact Hbelow].
    destruct (Z.lt_ge_cases (GetTable w phaseRate) 7) as [Hlt | Hge];
      [apply Habove; lia |].
    destruct (Z.lt_ge_cases i (GetTable w phaseRate)) as [Hlt | Hge'].
    + specialize (Hbelow i ltac:(lia)). lia.
    + now replace (GetTable w phaseRate) with i by lia.
  - intros Hall.
    destruct (Z.lt_ge_cases (GetTable w phaseRate) 7) as [Hlt | Hge]; [| lia].
    specialize (Habove ltac:(lia)). specialize (Hall (GetTable w phaseRate) ltac:(lia)). lia.
  - intros Hlow.
    destruct (Z.lt_ge_cases (GetTable w phaseRate) 7) as [Hlt | Hge]; [| lia].
    specialize (Habove ltac:(lia)). lia.
Qed.

(** C6. The thresholds of the bank that [Generate] builds grow with the
    table index, at the sample rate of the program and at the other usual
    ones; and they still do after any number of passes of the render loop,
    which leave the bank as it was built. *)
Theorem thresholds_grow_with_the_table_index :
  let wavetable := SquareWavetable_new sinf m SAMPLE_RATE in
  Z.of_nat (List.length (topPhaseRate wavetable)) = WAVETABLE_NUM_TABLES
  /\ increasing (topPhaseRate wavetable)
  /\ Forall (fun sampleRate =>
               increasing (topPhaseRate (SquareWavetable_new sinf m sampleRate)))
       [8000; 11025; 16000; 22050; 32000; SAMPLE_RATE; 48000; 88200; 96000; 192000]
  /\ forall k st st',
       r_wavetable st = wavetable -> renderIter k st = Ok st' ->
       r_wavetable st' = wavetable /\ increasing (topPhaseRate (r_wavetable st')).
Proof.
  cbv zeta.
  assert (Hinc : increasing (topPhaseRate (SquareWavetable_new sinf m SAMPLE_RATE)))
    by (rewrite topPhaseRate_SAMPLE_RATE; apply increasingb_increasing; reflexivity).
  split; [| split; [| split]].
  - now rewrite topPhaseRate_SAMPLE_RATE.
  - exact Hinc.
  - apply topPhaseRate_increasing_usual_rates.
  - intros k st st' Hw H. apply renderIter_wavetable in H.
    rewrite H, Hw. split; [reflexivity | exact Hinc].
Qed.

(** C9 (the code departs from it). The render of ["O2B#4"] reads entry 36
    of the note table, the word that follows the table in memory: [Tick]
    returns the low half of the address of the characters of the song, 30
    times, the render sounds 30 ticks at that rate, and two runs that store
    the song at two addresses return different samples. A render that reads
    nothing out of range is the same at every address and in every memory,
    as are the bank and the player that the constructors build. *)
Theorem B_sharp_in_top_octave_renders_an_address (address : Z) :
  let word := address mod 2 ^ 32 in
  let wavetable := SquareWavetable_new sinf m SAMPLE_RATE in
  let player :=
    MMLPlayer_in_memory word (MMLPlayer_new_song pow m SAMPLE_RATE (chars "O2B#4")) in
  (noteToPhaseRate player).[clampPitch (11 + 1) + 2 * 12] = Ok word
  /\ tickRates (tickBudget player) player = Ok (repeat word 30 ++ [0])
  /\ (word <> 0 ->
      GenerateSongSquareWave_at sinf pow m address (chars "O2B#4")
      = Ok (soundingTicks wavetable word 0 30 ++ repeat 0 (Z.to_nat TICK_LENGTH)))
  /\ GenerateSongSquareWave_at sinf_small pow_quarters memory_zero 0x5581E6C2AEB0
       (chars "O2B#4")
     <> GenerateSongSquareWave_at sinf_small pow_quarters memory_zero 0x55D0A1F3BEB0
          (chars "O2B#4")
  /\ (forall m' songstr,
        (forall idx, GenerateSongSquareWave sinf pow m songstr <> OutOfBounds idx) ->
        GenerateSongSquareWave_at sinf pow m' address songstr
        = GenerateSongSquareWave sinf pow m songstr)
  /\ forall m' sampleRate songstr,
       SquareWavetable_new sinf m sampleRate = SquareWavetable_new sinf m' sampleRate
       /\ MMLPlayer_new_song pow m sampleRate songstr
          = MMLPlayer_new_song pow m' sampleRate songstr.
Proof.
  cbv zeta.
  destruct (tickRates_O2Bsharp_in_memory (address mod 2 ^ 32)
              (MMLPlayer_new pow m SAMPLE_RATE) (MMLPlayer_new_table_length pow m SAMPLE_RATE))
    as [Hentry Hrates].
  split; [exact Hentry |]. split; [exact Hrates |].
  split; [apply render_of_O2Bsharp_at |].
  split; [| split].
  - exact renders_of_O2Bsharp_at_two_addresses.
  - intros m' songstr N. now apply GenerateSongSquareWave_at_in_range.
  - intros m' sampleRate songstr. split; [apply SquareWavetable_new_memory |].
    unfold MMLPlayer_new_song. now rewrite (MMLPlayer_new_memory pow m m').
Qed.

End Claims.

(** * The claims on instances *)

(** C2, as first stated, fails: the samples of ["R0"] are not those of the
    [(tempo + 1) * lengthNumberToTickCount[0]] ticks of the rest alone. *)
Lemma R0_renders_more_than_five_ticks :
  let player := MMLPlayer_new_song pow_quarters memory_zero SAMPLE_RATE (chars "R0") in
  let ticks := (tempo player + 1) * array_get 0 lengthNumberToTickCount 0 in
  GenerateSongSquareWave sinf_small pow_quarters memory_zero (chars "R0")
  <> Ok (repeat 0 (Z.to_nat (ticks * TICK_LENGTH))).
Proof.
  cbv zeta.
  change ((tempo (MMLPlayer_new_song pow_quarters memory_zero SAMPLE_RATE (chars "R0")) + 1)
          * array_get 0 lengthNumberToTickCount 0) with 5.
  unfold GenerateSongSquareWave, MMLPlayer_new_song. rewrite renderLoop_R0.
  intros H.
  apply (f_equal (fun o => match o with Ok l => List.length l | _ => 0%nat end)) in H.
  rewrite !repeat_length in H. vm_compute in H. discriminate.
Qed.

(** C3, as first stated, fails: ["R0"] has one rest of [(4 + 1) * 1] ticks,
    and its render has more samples than [TICK_LENGTH] for each of them. *)
Lemma R0_samples_exceed_the_ticks_of_its_rest :
  songEvents (MMLPlayer_new_song pow_quarters memory_zero SAMPLE_RATE (chars "R0"))
  = Ok [mkEvent 0 4 0 ((4 + 1) * 1)]
  /\ exists samples,
       GenerateSongSquareWave sinf_small pow_quarters memory_zero (chars "R0") = Ok samples
       /\ Z.of_nat (List.length samples)
          <> TICK_LENGTH * totalTicks [mkEvent 0 4 0 ((4 + 1) * 1)].
Proof.
  split; [apply songEvents_R0 |].
  eexists. split.
  - unfold GenerateSongSquareWave, MMLPlayer_new_song. apply renderLoop_R0.
  - rewrite repeat_length. vm_compute. discriminate.
Qed.

(** C3 on ["t2 c4 r1"]: a tempo, a note of [(2 + 1) * 6] ticks and a rest
    of [(2 + 1) * 2], with blanks between them. *)
Lemma render_terminates_and_counts_witness :
  let cmds := [SetTempo "2"; Blank " "; Note "C" None "4"; Blank " "; Rest "1"] in
  map toupper (chars "t2 c4 r1") = flat_map command_chars cmds
  /\ forallb valid_command cmds = true
  /\ sharpens_B_in_top_octave 1 cmds = false
  /\ songTicks 4 cmds = [18; 6]
  /\ exists events samples,
       songEvents (MMLPlayer_new_song pow_quarters memory_zero SAMPLE_RATE (chars "t2 c4 r1"))
       = Ok events
       /\ map e_ticks events = [18; 6]
       /\ GenerateSongSquareWave sinf_small pow_quarters memory_zero (chars "t2 c4 r1")
          = Ok samples
       /\ Z.of_nat (List.length samples) = TICK_LENGTH * (18 + 6 + 1).
Proof.
  cbv zeta.
  split; [reflexivity |]. split; [reflexivity |]. split; [reflexivity |].
  split; [reflexivity |].
  apply (proj1 (proj2 (render_terminates_and_counts sinf_small pow_quarters memory_zero
                         (chars "t2 c4 r1")))
           [SetTempo "2"; Blank " "; Note "C" None "4"; Blank " "; Rest "1"]);
    reflexivity.
Defined.

(** C4 with [pow_quarters] for the [pow] of the C library. *)
Lemma T4_O0_C8_sounds_120_ticks_of_C0_witness :
  pow_accurate pow_quarters
  /\ exists rate,
       rate <> 0
       /\ tickRates
            (tickBudget (MMLPlayer_new_song pow_quarters memory_zero SAMPLE_RATE
                           (chars "T4 O0 C8")))
            (MMLPlayer_new_song pow_quarters memory_zero SAMPLE_RATE (chars "T4 O0 C8"))
          = Ok (repeat rate 120 ++ [0])
       /\ GenerateSongSquareWave sinf_small pow_quarters memory_zero (chars "T4 O0 C8")
          = Ok (soundingTicks (SquareWavetable_new sinf_small memory_zero SAMPLE_RATE)
                  rate 0 120
                ++ repeat 0 (Z.to_nat TICK_LENGTH)).
Proof.
  split; [exact pow_quarters_accurate |].
  destruct (T4_O0_C8_sounds_120_ticks_of_C0 sinf_small pow_quarters memory_zero
              pow_quarters_accurate)
    as (rate & _ & _ & Hnz & _ & Hrates & _ & Hrender & _).
  exists rate. split; [exact Hnz |]. split; [exact Hrates | exact Hrender].
Defined.

(** C5 on the bank of the program and the phase rate of C in octave 0. *)
Lemma GetTable_lowest_table_that_does_not_alias_witness :
  let wavetable := SquareWavetable_new sinf_small memory_zero SAMPLE_RATE in
  Z.of_nat (List.length (topPhaseRate wavetable)) = WAVETABLE_NUM_TABLES
  /\ increasing (topPhaseRate wavetable)
  /\ GetTable wavetable 12740059 = 2
  /\ 12740059 <= array_get 0 (topPhaseRate wavetable) (GetTable wavetable 12740059).
Proof.
  cbv zeta.
  assert (Hlen : Z.of_nat (List.length
                    (topPhaseRate (SquareWavetable_new sinf_small memory_zero SAMPLE_RATE)))
                 = WAVETABLE_NUM_TABLES) by reflexivity.
  assert (Hinc : increasing
                   (topPhaseRate (SquareWavetable_new sinf_small memory_zero SAMPLE_RATE)))
    by (apply increasingb_increasing; reflexivity).
  split; [exact Hlen |]. split; [exact Hinc |]. split; [reflexivity |].
  destruct (GetTable_lowest_table_that_does_not_alias _ 12740059 Hlen Hinc)
    as (_ & Hsome & _ & _).
  apply Hsome. exists 7.
  split; [unfold WAVETABLE_NUM_TABLES; lia |].
  rewrite topPhaseRate_SAMPLE_RATE. vm_compute. discriminate.
Defined.

(** C10 on ["t2 c4 r1"]. *)
Lemma render_ends_with_one_silent_tick_witness :
  songEvents (MMLPlayer_new_song pow_quarters memory_zero SAMPLE_RATE (chars "t2 c4 r1"))
  = Ok [mkEvent 25480118 2 4 18; mkEvent 0 2 1 6]
  /\ exists body,
       GenerateSongSquareWave sinf_small pow_quarters memory_zero (chars "t2 c4 r1")
       = Ok (body ++ repeat 0 (Z.to_nat TICK_LENGTH))
       /\ Z.of_nat (List.length body)
          = TICK_LENGTH * totalTicks [mkEvent 25480118 2 4 18; mkEvent 0 2 1 6].
Proof.
  split; [reflexivity |].
  apply (proj1 (proj2 (render_ends_with_one_silent_tick sinf_small pow_quarters memory_zero))
           (chars "t2 c4 r1")).
  reflexivity.
Defined.

(** C6 after three passes of the render loop over ["R0"]. *)
Lemma thresholds_grow_with_the_table_index_witness :
  let wavetable := SquareWavetable_new sinf_small memory_zero SAMPLE_RATE in
  let player := MMLPlayer_new_song pow_quarters memory_zero SAMPLE_RATE (chars "R0") in
  exists st',
    renderIter 3 (mkRenderState wavetable player [] 0 0) = Ok st'
    /\ r_wavetable st' = wavetable
    /\ increasing (topPhaseRate (r_wavetable st')).
Proof.
  cbv zeta. eexists. split; [reflexivity |].
  apply (thresholds_grow_with_the_table_index sinf_small memory_zero) with (k := 3%nat)
    (st := mkRenderState (SquareWavetable_new sinf_small memory_zero SAMPLE_RATE)
             (MMLPlayer_new_song pow_quarters memory_zero SAMPLE_RATE (chars "R0")) [] 0 0);
    reflexivity.
Defined.

(** * The sequencer, whatever the text *)

(** ** The digits of a command *)

Lemma digit_char (c : ascii) (n : Z) :
  0 <= n <= 9 ->
  int_to_char (char_to_int c - char_to_int "0") = n <-> Z.of_N (N_of_ascii c) = 48 + n.
Proof.
  intros Hn.
  each_char c;
    match goal with
    | |- ?a = n <-> ?b = 48 + n =>
        let a' := eval vm_compute in a in
        let b' := eval vm_compute in b in
        change (a' = n <-> b' = 48 + n); lia
    end.
Qed.

Lemma ReadNumber_of_digit (msg : string) (p : MMLPlayer) (c : ascii) :
  (song p).[position p] = Ok c ->
  48 <= Z.of_N (N_of_ascii c) <= 57 ->
  ReadNumber 0 9 msg p = Ok (Z.of_N (N_of_ascii c) - 48, set_position p (position p + 1)).
Proof.
  intros Hc Hd. unfold ReadNumber. rewrite Hc. cbn [bind].
  assert (E : int_to_char (char_to_int c - char_to_int "0") = Z.of_N (N_of_ascii c) - 48)
    by (apply digit_char; lia).
  rewrite E.
  destruct (Z.leb_spec 0 (Z.of_N (N_of_ascii c) - 48)); [| lia].
  destruct (Z.leb_spec (Z.of_N (N_of_ascii c) - 48) 9); [reflexivity | lia].
Qed.

(** X1. [ReadNumber] takes the decimal digits from [min] to [max], and nothing
    else: every other character, the terminator among them, raises the error
    of the command. *)
Theorem ReadNumber_takes_digits_in_range (min max : Z) (msg : string) (p : MMLPlayer)
    (c : ascii) :
  0 <= min -> max <= 9 ->
  (song p).[position p] = Ok c ->
  let n := Z.of_N (N_of_ascii c) - 48 in
  (min <= n <= max
   /\ ReadNumber min max msg p = Ok (n, set_position p (position p + 1)))
  \/ (~ min <= n <= max /\ ReadNumber min max msg p = Throw msg).
Proof.
  intros Hmin Hmax Hc. cbv zeta. unfold ReadNumber. rewrite Hc. cbn [bind].
  set (d := int_to_char (char_to_int c - char_to_int "0")).
  destruct ((min <=? d) && (d <=? max)) eqn:E.
  - apply andb_true_iff in E. destruct E as [E1 E2]. apply Z.leb_le in E1, E2.
    assert (Hd : Z.of_N (N_of_ascii c) = 48 + d) by (apply digit_char; [lia | reflexivity]).
    left. replace (Z.of_N (N_of_ascii c) - 48) with d by lia. split; [lia | reflexivity].
  - right. split; [| reflexivity].
    intros Hn. apply andb_false_iff in E.
    assert (Hd : d = Z.of_N (N_of_ascii c) - 48) by (apply digit_char; lia).
    destruct E as [E | E]; [apply Z.leb_gt in E | apply Z.leb_gt in E]; lia.
Qed.

Lemma ReadNumber_takes_digits_in_range_witness :
  ReadNumber 0 2 "Invalid O command in song string"
    (mkMMLPlayer [] (chars "O2") 1 1 0 4 0)
  = Ok (2, mkMMLPlayer [] (chars "O2") 2 1 0 4 0)
  \/ ReadNumber 0 2 "Invalid O command in song string"
       (mkMMLPlayer [] (chars "O2") 1 1 0 4 0)
     = Throw "Invalid O command in song string".
Proof.
  destruct (ReadNumber_takes_digits_in_range 0 2 "Invalid O command in song string"
              (mkMMLPlayer [] (chars "O2") 1 1 0 4 0) "2"%char
              ltac:(lia) ltac:(lia) ltac:(reflexivity)) as [[_ H] | [_ H]].
  - left. exact H.
  - right. exact H.
Defined.

(** ** The position stays inside the text *)

Lemma before_terminator (p : MMLPlayer) (i : Z) (c : ascii) :
  (exists text, song p = text ++ ["000"%char]) ->
  (song p).[i] = Ok c -> c <> "000"%char ->
  i + 1 < Z.of_nat (List.length (song p)).
Proof.
  intros [text Hs] Hc Hne. apply at_Ok in Hc. destruct Hc as [Hi Hc].
  rewrite Hs in *. rewrite length_app in *. cbn [List.length] in *.
  destruct (Z.eq_dec i (Z.of_nat (List.length text))) as [-> | Hneq]; [| lia].
  rewrite Nat2Z.id, nth_error_app2, Nat.sub_diag in Hc by lia.
  injection Hc as <-. contradiction.
Qed.

Lemma digit_not_terminator (q : MMLPlayer) :
  0 <= digitAt q <= 9 ->
  0 <= position q - 1 < Z.of_nat (List.length (song q)) ->
  exists c, (song q).[position q - 1] = Ok c /\ c <> "000"%char.
Proof.
  intros Hd Hp. exists (array_get "000"%char (song q) (position q - 1)).
  split; [now apply at_in_range |].
  intros E. unfold digitAt in Hd. rewrite E in Hd.
  change (0 <= -48 <= 9) in Hd. lia.
Qed.

(** Whatever a pass of the loop of [Tick] has read last, it was not the
    terminator, unless the pass ended the song. *)
Lemma TickBody_last_read (p : MMLPlayer) (done : bool) (p' : MMLPlayer) :
  TickBody p = Ok (done, p') ->
  position p' = -1
  \/ exists c, (song p).[position p' - 1] = Ok c /\ c <> "000"%char.
Proof.
  unfold TickBody. intros H.
  bind_inv H. pose proof Hx as Hcurr. apply at_Ok in Hx. destruct Hx as [Hpos _].
  each_char x; simpl in H; try discriminate H.
  all: outcome_inv H.
  all: injection H as <- <-.
  all: repeat match goal with
         | |- context [if ?c then _ else _] => destruct c eqn:?
         end.
  all: first
         [ left; reflexivity
         | right;
           match goal with
           | Hd : ?n = digitAt ?q, Hn : _ <= ?n <= _ |- _ =>
               apply (digit_not_terminator q); [rewrite <- Hd; lia | simpl; lia]
           end
         | right; eexists; split;
           [ simpl; replace (position p + 1 - 1) with (position p) by lia; exact Hcurr
           | discriminate ] ].
Qed.

Lemma TickBody_position_ok (p : MMLPlayer) (done : bool) (p' : MMLPlayer) :
  (exists text, song p = text ++ ["000"%char]) ->
  TickBody p = Ok (done, p') ->
  position p' = -1 \/ 0 <= position p' < Z.of_nat (List.length (song p)).
Proof.
  intros Hs H. pose proof (TickBody_last_read _ _ _ H) as [E | (c & Hc & Hne)];
    [now left | right].
  pose proof (before_terminator p _ c Hs Hc Hne).
  apply at_Ok in Hc. lia.
Qed.

Lemma TickLoop_position_ok (fuel : nat) :
  forall p p',
    (exists text, song p = text ++ ["000"%char]) ->
    TickLoop fuel p = Ok p' ->
    position p' = -1 \/ 0 <= position p' < Z.of_nat (List.length (song p)).
Proof.
  induction fuel as [| fuel IH]; intros p p' Hs H; [discriminate |].
  cbn [TickLoop] in H. bind_inv H. destruct x as [done q].
  pose proof (TickBody_position_ok _ _ _ Hs Hx) as Hq.
  apply TickBody_Ok in Hx. destruct Hx as (Hsong & _).
  destruct done; [injection H as <-; exact Hq |].
  rewrite <- Hsong in *. apply (IH q p'); [| exact H].
  destruct Hs as [text Hs]. exists text. congruence.
Qed.

(** ** The player stays well formed *)

Lemma Load_player_ok (p : MMLPlayer) (songstr : list ascii) :
  Z.of_nat (List.length (noteToPhaseRate p)) = NUM_OCTAVES * NOTES_PER_OCTAVE ->
  player_ok (Load p songstr).
Proof.
  intros H. constructor; cbn [Load noteToPhaseRate octave tempo song position output counts].
  - exact H.
  - unfold NUM_OCTAVES. lia.
  - lia.
  - now exists (map toupper songstr).
  - right. rewrite length_app. cbn [List.length]. lia.
  - lia.
Qed.

Lemma player_ok_set_counts (p : MMLPlayer) (c : Z) :
  player_ok p -> c <= 320 -> player_ok (set_counts p c).
Proof. intros [? ? ? ? ? ?] Hc. constructor; assumption. Qed.

Lemma Tick_player_ok (p : MMLPlayer) (rate : Z) (p' : MMLPlayer) :
  player_ok p -> Tick p = Ok (rate, p') ->
  player_ok p' /\ song p' = song p /\ noteToPhaseRate p' = noteToPhaseRate p
  /\ rate = output p' /\ counts p - 1 <= counts p'.
Proof.
  intros Hok H. pose proof Hok as [Htbl Hoct Htempo Hsong Hpos Hcnt].
  unfold Tick in H.
  cbn [counts set_counts position song] in H.
  destruct (Z.gtb_spec (counts p - 1) 0) as [Hc | Hc].
  { injection H as <- <-.
    split; [apply player_ok_set_counts; [assumption | lia] |].
    cbn [song noteToPhaseRate output counts set_counts]. repeat split; lia. }
  destruct (Z.ltb_spec (position p) 0) as [Hp | Hp].
  { injection H as <- <-. destruct Hpos as [[Hp1 Hout] | Hin]; [| lia].
    split; [apply player_ok_set_counts; [assumption | lia] |].
    cbn [song noteToPhaseRate output counts set_counts]. repeat split; lia. }
  bind_inv H. injection H as <- <-. rename x into q.
  pose proof (TickLoop_position_ok _ (set_counts p (counts p - 1)) q Hsong Hx) as Hq.
  apply TickLoop_Ok in Hx.
  cbn [song noteToPhaseRate position tempo octave counts set_counts] in Hx, Hq.
  destruct Hx as (Hs & Ht & _ & Htempo' & Hoct' & Hk).
  specialize (Htempo' Htempo). specialize (Hoct' Hoct).
  assert (Hcq : counts p - 1 <= counts q <= 320).
  { destruct Hk as [_ _ E | len _ Hlen E]; cbn [counts set_counts] in E; [lia |].
    pose proof (EventRead_counts p q _ _ Hlen E Htempo'). lia. }
  split; [| repeat split; try assumption; lia].
  constructor; try lia.
  - congruence.
  - unfold NUM_OCTAVES. lia.
  - now rewrite Hs.
  - destruct Hk as [E Hout _ | len Hlt _ _]; [left; now split | right].
    cbn [position set_counts] in Hlt. rewrite Hs. lia.
Qed.

(** X2. From [Load] on, call after call of [Tick], the player stays well formed:
    36 phase rates, the octave in 0..2, the tempo a digit, the text with its
    terminator, the position inside the text or -1 with a silent output; the
    text and the note table are never changed, and [counts] falls by at most
    one per call. *)
Theorem Tick_keeps_the_player_well_formed (p0 : MMLPlayer) (songstr : list ascii)
    (n : nat) (p : MMLPlayer) :
  Z.of_nat (List.length (noteToPhaseRate p0)) = NUM_OCTAVES * NOTES_PER_OCTAVE ->
  tickIter n (Load p0 songstr) = Ok p ->
  player_ok p
  /\ song p = map toupper songstr ++ ["000"%char]
  /\ noteToPhaseRate p = noteToPhaseRate p0
  /\ - Z.of_nat n <= counts p.
Proof.
  intros Htbl.
  assert (G : forall n q p, player_ok q -> tickIter n q = Ok p ->
              player_ok p /\ song p = song q /\ noteToPhaseRate p = noteToPhaseRate q
              /\ counts q - Z.of_nat n <= counts p).
  { clear. induction n as [| n IH]; intros q p Hq H; cbn [tickIter] in H.
    - injection H as <-. split; [assumption |]. repeat split; lia.
    - bind_inv H. destruct x as [rate q'].
      destruct (Tick_player_ok _ _ _ Hq Hx) as (Hq' & Hs & Ht & _ & Hc).
      destruct (IH _ _ Hq' H) as (Hp & Hs' & Ht' & Hc').
      split; [assumption |]. repeat split; try congruence; lia. }
  intros H. destruct (G n _ _ (Load_player_ok p0 songstr Htbl) H) as (Hp & Hs & Ht & Hc).
  cbn [Load song noteToPhaseRate counts] in Hs, Ht, Hc.
  split; [assumption |]. repeat split; assumption || lia.
Qed.

Lemma Tick_keeps_the_player_well_formed_witness :
  tickIter 3 (Load (mkMMLPlayer (repeat 7 36) [] 0 1 0 4 0) (chars "o2c1"))
  = Ok (mkMMLPlayer (repeat 7 36) (chars "O2C1" ++ ["000"%char]) 4 2 7 4 8)
  /\ player_ok (mkMMLPlayer (repeat 7 36) (chars "O2C1" ++ ["000"%char]) 4 2 7 4 8).
Proof.
  split; [vm_compute; reflexivity |].
  apply (Tick_keeps_the_player_well_formed (mkMMLPlayer (repeat 7 36) [] 0 1 0 4 0)
           (chars "o2c1") 3); vm_compute; reflexivity.
Defined.

(** X3. Once the end of the song has been read, [Tick] returns silence and
    leaves the player at the end. *)
Theorem Tick_after_the_end_is_silent (p : MMLPlayer) :
  player_ok p -> IsDone p = true ->
  Tick p = Ok (0, set_counts p (counts p - 1))
  /\ IsDone (set_counts p (counts p - 1)) = true
  /\ player_ok (set_counts p (counts p - 1)).
Proof.
  intros Hp Hd.
  assert (E : Tick p = Ok (0, set_counts p (counts p - 1))).
  { unfold Tick. cbn [counts set_counts position output].
    unfold IsDone in Hd.
    destruct Hp as [_ _ _ _ [[_ Hout] | Hin] _]; [| apply Z.ltb_lt in Hd; lia].
    rewrite Hd, Hout. now destruct (counts p - 1 >? 0). }
  split; [exact E |]. split; [exact Hd |].
  now destruct (Tick_player_ok _ _ _ Hp E).
Qed.

(** ** What [Tick] returns *)






(** ** Reads out of range *)

Lemma bind_OutOfBounds {A B : Type} (c : outcome A) (k : A -> outcome B) (idx : Z) :
  bind c k = OutOfBounds idx ->
  c = OutOfBounds idx \/ exists a, c = Ok a /\ k a = OutOfBounds idx.
Proof.
  destruct c; simpl; try discriminate; intros H; [right | left; now injection H as ->].
  eexists. split; [reflexivity | exact H].
Qed.

Lemma at_OutOfBounds {A : Type} (a : list A) (i idx : Z) :
  a.[i] = OutOfBounds idx -> idx = i /\ (i < 0 \/ Z.of_nat (List.length a) <= i).
Proof.
  unfold at_. destruct (Z.ltb_spec i 0); [intros [= <-]; lia |].
  destruct (nth_error a (Z.to_nat i)) eqn:E; [discriminate |].
  intros [= <-]. apply nth_error_None in E. lia.
Qed.

Lemma ReadNumber_in_bounds (min max : Z) (msg : string) (p : MMLPlayer) (idx : Z) :
  0 <= position p < Z.of_nat (List.length (song p)) ->
  ReadNumber min max msg p <> OutOfBounds idx.
Proof.
  intros Hp. unfold ReadNumber. rewrite (at_in_range _ _ "000"%char Hp). cbn [bind].
  destruct (_ && _); discriminate.
Qed.

Lemma accidentalShift_sharp (next : ascii) :
  accidentalShift next = 1 -> next = "#"%char \/ next = "+"%char.
Proof.
  each_char next; unfold accidentalShift; simpl; intros H;
    first [discriminate H | now left | now right].
Qed.

Lemma accidental_unread_terminator (next : ascii) :
  accidentalUnread next = 0 -> next <> "000"%char.
Proof. intros H ->. discriminate H. Qed.

Lemma note_digit_in_bounds (p : MMLPlayer) (x : ascii) :
  (exists text, song p = text ++ ["000"%char]) ->
  (song p).[position p + 1] = Ok x ->
  0 <= position p ->
  0 <= position p + 1 + 1 - accidentalUnread x < Z.of_nat (List.length (song p)).
Proof.
  intros Hsong Hx Hp. pose proof (accidental_range x) as [_ Hu].
  destruct (Z.eq_dec (accidentalUnread x) 0) as [E | E].
  - pose proof (before_terminator p _ x Hsong Hx (accidental_unread_terminator x E)). lia.
  - apply at_Ok in Hx. lia.
Qed.

Ltac bounds_inv H :=
  repeat first
    [ match type of H with
      | context [applyAccidental ?c ?n ?q] =>
          rewrite (applyAccidental_eq c n q) in H;
          pose proof (accidental_range c);
          let pitch := fresh "pitch" in
          let Hpitch := fresh "Hpitch" in
          remember (n + accidentalShift c) as pitch eqn:Hpitch in H
      | bind (ReadNumber _ _ _ _) _ = OutOfBounds _ =>
          let Hx := fresh "Hx" in
          apply bind_OutOfBounds in H; destruct H as [H | [[? ?] [Hx H]]];
          [| read_inv Hx]
      | bind _ _ = OutOfBounds _ =>
          let x := fresh "x" in let Hx := fresh "Hx" in
          apply bind_OutOfBounds in H; destruct H as [H | [x [Hx H]]]
      end
    | progress simpl in H ].

Lemma TickBody_OutOfBounds (p : MMLPlayer) (idx : Z) :
  player_ok p -> 0 <= position p ->
  TickBody p = OutOfBounds idx ->
  idx = NUM_OCTAVES * NOTES_PER_OCTAVE
  /\ octave p = NUM_OCTAVES - 1
  /\ (song p).[position p] = Ok "B"%char
  /\ exists sharp digit,
       (song p).[position p + 1] = Ok sharp /\ (sharp = "#"%char \/ sharp = "+"%char)
       /\ (song p).[position p + 1 + 1] = Ok digit
       /\ 48 <= Z.of_N (N_of_ascii digit) <= 57.
Proof.
  intros [Htbl Hoct Htempo Hsong Hpos Hcnt] Hp0 H.
  assert (Hp : 0 <= position p < Z.of_nat (List.length (song p))) by lia. clear Hpos Hp0.
  unfold TickBody in H. rewrite (at_in_range _ _ "000"%char Hp) in H. cbn [bind] in H.
  pose proof (at_in_range _ _ "000"%char Hp) as Hcurr.
  pose proof (before_terminator p (position p) _ Hsong Hcurr) as Hnext.
  destruct (array_get "000"%char (song p) (position p)) as [b0 b1 b2 b3 b4 b5 b6 b7].
  destruct b0, b1, b2, b3, b4, b5, b6, b7; simpl in H; try discriminate H.
  all: specialize (Hnext ltac:(discriminate)).
  all: bounds_inv H.
  all: try (now apply ReadNumber_in_bounds in H; [| simpl; lia]).
  all: try (apply at_OutOfBounds in H; simpl in H; lia).
  all: try discriminate H.
  all: try (now apply ReadNumber_in_bounds in H;
            [| simpl; apply note_digit_in_bounds; [assumption .. | lia]]).
  all: apply at_OutOfBounds in H; cbn [noteToPhaseRate octave set_position set_counts] in H.
  all: rewrite Htbl in H; unfold clampPitch, NUM_OCTAVES, NOTES_PER_OCTAVE in *.
  all: destruct (Z.geb_spec pitch (3 * 12)), (Z.ltb_spec pitch 0); try lia.
  all: assert (Hs : accidentalShift x = 1) by lia.
  all: apply accidentalShift_sharp in Hs.
  all: split; [lia |]; split; [lia |]; split; [exact Hcurr |].
  all: exists x, (array_get "000"%char (song p) (position p + 1 + 1)).
  all: split; [exact Hx |]; split; [exact Hs |].
  all: assert (Hu : accidentalUnread x = 0) by (destruct Hs as [-> | ->]; reflexivity).
  all: rewrite Hu, Z.sub_0_r in *.
  all: split; [now apply at_in_range |].
  all: unfold digitAt in Hd; cbn [song position set_position] in Hd.
  all: replace (position p + 1 + 1 + 1 - 1) with (position p + 1 + 1) in Hd by lia.
  all: symmetry in Hd; apply digit_char in Hd; lia.
Qed.

Lemma TickBody_B_sharp (p : MMLPlayer) (sharp digit : ascii) :
  Z.of_nat (List.length (noteToPhaseRate p)) = NUM_OCTAVES * NOTES_PER_OCTAVE ->
  octave p = NUM_OCTAVES - 1 ->
  (song p).[position p] = Ok "B"%char ->
  (song p).[position p + 1] = Ok sharp -> sharp = "#"%char \/ sharp = "+"%char ->
  (song p).[position p + 1 + 1] = Ok digit ->
  48 <= Z.of_N (N_of_ascii digit) <= 57 ->
  TickBody p = OutOfBounds (NUM_OCTAVES * NOTES_PER_OCTAVE).
Proof.
  intros Htbl Hoct Hcurr Hsharp Hs Hdigit Hd.
  unfold TickBody. rewrite Hcurr. cbn [bind].
  cbn [position set_position song]. rewrite Hsharp. cbn [bind].
  change (letterToNoteNumber.[char_to_int "B" - char_to_int "A"]) with (Ok (A := Z) 11).
  cbn [bind].
  assert (E : applyAccidental sharp 11
                (set_position (set_position p (position p + 1)) (position p + 1 + 1))
              = (12, set_position (set_position p (position p + 1)) (position p + 1 + 1)))
    by (destruct Hs as [-> | ->]; reflexivity).
  rewrite E.
  assert (Hc : (song (set_position (set_position p (position p + 1)) (position p + 1 + 1)))
               .[position (set_position (set_position p (position p + 1))
                             (position p + 1 + 1))] = Ok digit) by exact Hdigit.
  rewrite (ReadNumber_of_digit _ _ digit Hc Hd). cbn [bind].
  rewrite (at_in_range _ _ 0) by (cbn; lia). cbn [bind].
  cbn [noteToPhaseRate octave set_position set_counts]. rewrite Hoct.
  rewrite at_out_of_range by (rewrite Htbl; vm_compute; discriminate).
  reflexivity.
Qed.

(** X5. The one access out of range that a pass of the loop of [Tick] can make
    on a well-formed player is to entry 36 of the 36 phase rates, and it
    makes it for a sharp on B in octave 2 that a duration digit follows,
    and for nothing else: the text is never read past its terminator. *)
Theorem TickBody_overruns_exactly_at_B_sharp (p : MMLPlayer) (idx : Z) :
  player_ok p -> 0 <= position p ->
  TickBody p = OutOfBounds idx
  <-> idx = NUM_OCTAVES * NOTES_PER_OCTAVE
      /\ octave p = NUM_OCTAVES - 1
      /\ (song p).[position p] = Ok "B"%char
      /\ exists sharp digit,
           (song p).[position p + 1] = Ok sharp /\ (sharp = "#"%char \/ sharp = "+"%char)
           /\ (song p).[position p + 1 + 1] = Ok digit
           /\ 48 <= Z.of_N (N_of_ascii digit) <= 57.
Proof.
  intros Hok Hp. split; [now apply TickBody_OutOfBounds |].
  intros (-> & Hoct & Hcurr & sharp & digit & Hsharp & Hs & Hdigit & Hd).
  destruct Hok as [Htbl _ _ _ _ _].
  now apply (TickBody_B_sharp p sharp digit).
Qed.

Lemma TickBody_player_ok (p : MMLPlayer) (done : bool) (q : MMLPlayer) :
  player_ok p -> TickBody p = Ok (done, q) ->
  (done = false -> player_ok q /\ 0 <= position q).
Proof.
  intros [Htbl Hoct Htempo Hsong Hpos Hcnt] H ->.
  pose proof (TickBody_position_ok _ _ _ Hsong H) as Hq.
  apply TickBody_Ok in H. destruct H as (Hs & Ht & Hp & Htempo' & Hoct' & Hk).
  inversion Hk as [| Hlt Hout Hc |].
  split; [| lia].
  constructor.
  - congruence.
  - unfold NUM_OCTAVES in *. lia.
  - tauto.
  - now rewrite Hs.
  - right. rewrite Hs. lia.
  - lia.
Qed.

Lemma TickLoop_player_ok (fuel : nat) :
  forall p q, player_ok p -> TickLoop fuel p = Ok q -> player_ok q.
Proof.
  induction fuel as [| fuel IH]; intros p q Hok H; [discriminate |].
  cbn [TickLoop] in H. bind_inv H. destruct x as [done p1].
  destruct done.
  - injection H as <-.
    pose proof Hok as [Htbl Hoct Htempo Hsong Hpos Hcnt].
    pose proof (TickBody_position_ok _ _ _ Hsong Hx) as Hq.
    apply TickBody_Ok in Hx. destruct Hx as (Hs & Ht & Hp & Htempo' & Hoct' & Hk).
    constructor.
    + congruence.
    + unfold NUM_OCTAVES in *. lia.
    + tauto.
    + now rewrite Hs.
    + inversion Hk as [E Hout _ | | len Hlt _ _ _]; [left; now split | right].
      rewrite Hs. lia.
    + inversion Hk as [_ _ E | | len _ Hlen E _]; [lia |].
      pose proof (EventRead_counts p p1 _ _ Hlen E ltac:(tauto)). lia.
  - destruct (TickBody_player_ok _ _ _ Hok Hx eq_refl) as [Hok1 _].
    now apply (IH p1).
Qed.

Lemma TickLoop_OutOfBounds (fuel : nat) :
  forall p idx, player_ok p -> 0 <= position p ->
    TickLoop fuel p = OutOfBounds idx -> idx = NUM_OCTAVES * NOTES_PER_OCTAVE.
Proof.
  induction fuel as [| fuel IH]; intros p idx Hok Hp H; [discriminate |].
  cbn [TickLoop] in H. apply bind_OutOfBounds in H.
  destruct H as [H | [[done q] [Hx H]]].
  - now apply TickBody_OutOfBounds in H.
  - destruct done; [discriminate |].
    destruct (TickBody_player_ok _ _ _ Hok Hx eq_refl) as [Hq Hpq].
    now apply (IH q).
Qed.

Lemma songEventsFrom_OutOfBounds (fuelE : nat) :
  forall p idx, player_ok p -> 0 <= position p ->
    songEventsFrom fuelE p = OutOfBounds idx -> idx = NUM_OCTAVES * NOTES_PER_OCTAVE.
Proof.
  induction fuelE as [| fuelE IH]; intros p idx Hok Hp H; [discriminate |].
  rewrite songEventsFrom_S in H. apply bind_OutOfBounds in H.
  destruct H as [H | [q [Hx H]]].
  - now apply TickLoop_OutOfBounds in H.
  - unfold IsDone in H. destruct (Z.ltb_spec (position q) 0); [discriminate |].
    apply bind_OutOfBounds in H. destruct H as [H | [events [_ H]]]; [| discriminate].
    apply (IH q); [| assumption | assumption].
    exact (TickLoop_player_ok _ p q Hok Hx).
Qed.

Section Failures.

Variable sinf : float -> float.
Variable pow : double -> double -> double.
Variable m : Memory.

Lemma render_Throw (songstr : list ascii) (what : string) :
  songEvents (MMLPlayer_new_song pow m SAMPLE_RATE songstr) = Throw what ->
  GenerateSongSquareWave sinf pow m songstr = Throw what.
Proof.
  intros E. pose proof (GenerateSongSquareWave_follows sinf pow m songstr) as F.
  now rewrite E in F.
Qed.

Lemma render_OutOfBounds (songstr : list ascii) (idx : Z) :
  GenerateSongSquareWave sinf pow m songstr = OutOfBounds idx ->
  songEvents (MMLPlayer_new_song pow m SAMPLE_RATE songstr) = OutOfBounds idx.
Proof.
  intros H.
  pose proof (GenerateSongSquareWave_follows sinf pow m songstr) as F.
  pose proof (songEvents_not_OutOfFuel (MMLPlayer_new_song pow m SAMPLE_RATE songstr)) as N.
  specialize (N ltac:(rewrite MMLPlayer_new_song_position; lia)).
  destruct (songEvents (MMLPlayer_new_song pow m SAMPLE_RATE songstr)) as [events | w | i |];
    cbn [follows] in F; try congruence.
  destruct F as (body & F & _). congruence.
Qed.

(** X6. A render ends with a thrown error exactly when the sequencer does on
    its way through the text, and with the same error; no samples are
    returned then. *)
Theorem render_fails_as_the_sequencer_does (songstr : list ascii) :
  let player := MMLPlayer_new_song pow m SAMPLE_RATE songstr in
  forall what,
    GenerateSongSquareWave sinf pow m songstr = Throw what
    <-> songEvents player = Throw what.
Proof.
  cbv zeta. intros what.
  pose proof (GenerateSongSquareWave_follows sinf pow m songstr) as F.
  pose proof (songEvents_not_OutOfFuel (MMLPlayer_new_song pow m SAMPLE_RATE songstr)) as N.
  specialize (N ltac:(rewrite MMLPlayer_new_song_position; lia)).
  destruct (songEvents (MMLPlayer_new_song pow m SAMPLE_RATE songstr)) as [events | w | i |];
    cbn [follows] in F; try congruence.
  - destruct F as (body & -> & _). split; discriminate.
  - rewrite F. split; congruence.
  - rewrite F. split; congruence.
Qed.

(** X7. The only access out of range in a render is the one to entry 36 of the
    note table: neither the text, nor the tables of note numbers and of
    lengths are read outside their bounds. *)
Theorem render_only_overruns_at_entry_36 (songstr : list ascii) (idx : Z) :
  GenerateSongSquareWave sinf pow m songstr = OutOfBounds idx ->
  idx = NUM_OCTAVES * NOTES_PER_OCTAVE.
Proof.
  intros H. apply render_OutOfBounds in H.
  apply songEventsFrom_OutOfBounds in H; [exact H | | rewrite MMLPlayer_new_song_position; lia].
  apply Load_player_ok. rewrite MMLPlayer_new_table_length. reflexivity.
Qed.

End Failures.

(** ** Upper and lower case *)

Lemma toupper_toupper (c : ascii) : toupper (toupper c) = toupper c.
Proof. each_char c; reflexivity. Qed.

Lemma Load_toupper (p : MMLPlayer) (songstr : list ascii) :
  Load p (map toupper songstr) = Load p songstr.
Proof.
  unfold Load. rewrite map_map.
  now rewrite (map_ext _ toupper toupper_toupper).
Qed.

(** ** The ticks of the notes and rests *)

Lemma bind_ret {A : Type} (c : outcome A) : (x <- c ;; Ok x) = c.
Proof. now destruct c. Qed.

Lemma tickRates_sustain (k : nat) :
  forall (fuel : nat) (q : MMLPlayer),
    counts q = Z.of_nat k + 1 -> 0 <= position q ->
    tickRates (k + fuel) q
    = rates <- tickRates fuel (set_counts q 1) ;; Ok (repeat (output q) k ++ rates).
Proof.
  induction k as [| k IH]; intros fuel q Hc Hp.
  - replace 1 with (counts q) by lia. rewrite set_counts_same.
    cbn [Nat.add repeat app]. now rewrite bind_ret.
  - cbn [Nat.add tickRates]. unfold IsDone.
    destruct (Z.ltb_spec (position q) 0); [lia |].
    rewrite Tick_sustain by lia. cbn [bind].
    rewrite IH by (cbn [counts position set_counts]; lia).
    rewrite set_counts_set_counts. cbn [output set_counts].
    now destruct (tickRates fuel (set_counts q 1)).
Qed.

Lemma tickRates_events (fuelE : nat) :
  forall (p : MMLPlayer) (c : Z) (fuel : nat),
    0 <= tempo p <= 9 -> c <= 1 ->
    0 <= position p <= Z.of_nat (List.length (song p)) ->
    2 + 320 * (Z.of_nat (List.length (song p)) - position p) <= Z.of_nat fuel ->
    match songEventsFrom fuelE p with
    | Ok events => tickRates fuel (set_counts p c) = Ok (eventRates events ++ [0])
    | Throw what => tickRates fuel (set_counts p c) = Throw what
    | OutOfBounds idx => tickRates fuel (set_counts p c) = OutOfBounds idx
    | OutOfFuel => True
    end.
Proof.
  induction fuelE as [| fuelE IH]; intros p c fuel Ht Hc Hp Hf; [exact I |].
  rewrite songEventsFrom_S.
  destruct fuel as [| fuel]; [lia |].
  assert (ER : tickRates (S fuel) (set_counts p c)
               = '(rate, q) <- Tick (set_counts p c) ;;
                 rates <- tickRates fuel q ;; Ok (rate :: rates)).
  { cbn [tickRates]. unfold IsDone. cbn [position set_counts].
    destruct (Z.ltb_spec (position p) 0); [lia | reflexivity]. }
  rewrite ER. clear ER.
  assert (ET : Tick (set_counts p c)
               = q <- (q <- TickLoop (S (List.length (song p))) p ;; keep_counts_loop (c - 1) q) ;;
                 Ok (output q, q)).
  { rewrite Tick_scan by (cbn [counts position set_counts]; lia).
    cbn [song counts set_counts]. rewrite <- TickLoop_set_counts. reflexivity. }
  rewrite ET. clear ET.
  destruct (TickLoop (S (List.length (song p))) p) as [p' | what | idx |] eqn:E;
    cbn [bind]; try reflexivity; try exact I.
  unfold keep_counts_loop. cbn [bind].
  apply TickLoop_Ok in E. destruct E as (Hs & _ & _ & Ht' & _ & Hk).
  specialize (Ht' Ht).
  destruct Hk as [Hend Hout Hcnt | len Hpos Hlen Hcnt].
  - (* the end of the song: one silent tick *)
    unfold IsDone. rewrite Hend. cbn [Z.leb Z.ltb Z.compare output set_counts].
    destruct fuel as [| fuel]; [lia |].
    cbn [tickRates]. unfold IsDone. cbn [position set_counts]. rewrite Hend, Hout.
    reflexivity.
  - (* a note or rest *)
    pose proof (EventRead_counts p p' (digitAt p') len Hlen Hcnt Ht') as Hn.
    unfold IsDone. destruct (Z.ltb_spec (position p') 0); [lia |].
    destruct (Z.leb_spec 0 (position p')); [| lia].
    assert (Ek : exists k fuel', fuel = (k + fuel')%nat /\ counts p' = Z.of_nat k + 1)
      by (exists (Z.to_nat (counts p' - 1)), (fuel - Z.to_nat (counts p' - 1))%nat; lia).
    destruct Ek as (k & fuel' & -> & Hk).
    rewrite (tickRates_sustain k fuel' p' Hk) by lia.
    specialize (IH p' 1 fuel' Ht' ltac:(lia)). rewrite Hs in IH.
    specialize (IH ltac:(lia) ltac:(lia)).
    destruct (songEventsFrom fuelE p') as [events | what | idx |];
      cbn [bind]; try (now rewrite IH).
    + rewrite IH. cbn [bind]. unfold eventRates. cbn [flat_map e_rate e_ticks].
      replace (Z.to_nat (counts p')) with (S k) by lia.
      cbn [repeat]. now rewrite <- !app_assoc.
    + (* the parse ran out of its budget: nothing is said *)
      destruct (tickRates fuel' (set_counts p' 1)); exact I.
Qed.

(** ** The size of a render *)

Lemma TickBody_event_advance (p : MMLPlayer) (p' : MMLPlayer) :
  TickBody p = Ok (true, p') ->
  position p' = -1 \/ position p + 2 <= position p'.
Proof.
  unfold TickBody. intros H.
  bind_inv H. apply at_Ok in Hx. destruct Hx as [Hpos _].
  each_char x; simpl in H; try discriminate H.
  all: outcome_inv H.
  all: try discriminate H.
  all: injection H as <-.
  all: first [left; reflexivity | right; simpl; lia].
Qed.

Lemma TickLoop_event_advance (fuel : nat) :
  forall p p', TickLoop fuel p = Ok p' ->
    position p' = -1 \/ position p + 2 <= position p'.
Proof.
  induction fuel as [| fuel IH]; intros p p' H; [discriminate |].
  cbn [TickLoop] in H. bind_inv H. destruct x as [done q].
  destruct done.
  - injection H as <-. now apply TickBody_event_advance.
  - apply TickBody_Ok in Hx. destruct Hx as (_ & _ & _ & _ & _ & Hk).
    inversion Hk. apply IH in H. lia.
Qed.

Lemma songEventsFrom_count (fuelE : nat) :
  forall p events,
    (exists text, song p = text ++ ["000"%char]) ->
    songEventsFrom fuelE p = Ok events ->
    2 * Z.of_nat (List.length events) <= Z.of_nat (List.length (song p)) - 1 - position p.
Proof.
  induction fuelE as [| fuelE IH]; intros p events Hsong H; [discriminate |].
  rewrite songEventsFrom_S in H. bind_inv H. rename x into q.
  pose proof (TickLoop_position_ok _ _ _ Hsong Hx) as Hq.
  pose proof (TickLoop_event_advance _ _ _ Hx) as Hadv.
  apply TickLoop_Ok in Hx. destruct Hx as (Hs & _ & Hp & _ & _ & _).
  unfold IsDone in H. destruct (Z.ltb_spec (position q) 0).
  - injection H as <-. cbn [List.length]. lia.
  - bind_inv H. injection H as <-.
    apply IH in Hx; [| now rewrite Hs]. rewrite Hs in Hx.
    cbn [List.length]. lia.
Qed.

Lemma totalTicks_bounds (events : list Event) :
  Forall event_ticks_ok events ->
  Z.of_nat (List.length events) <= totalTicks events <= 320 * Z.of_nat (List.length events).
Proof.
  induction 1 as [| e events He _ IH]; [cbn; lia |].
  rewrite totalTicks_cons. cbn [List.length].
  destruct He as (Ht & _ & len & Hlen & ->).
  apply lengthNumberToTickCount_range in Hlen. nia.
Qed.

(** X8. The values that [Tick] returns until the song is done are the phase
    rate of each note and rest, as many times as it has ticks, and the 0 of
    the call that reads the end of the song. *)
Theorem Tick_returns_the_rate_of_each_event_for_its_ticks (p : MMLPlayer)
    (songstr : list ascii) (events : list Event) :
  let player := Load p songstr in
  songEvents player = Ok events ->
  tickRates (tickBudget player) player = Ok (eventRates events ++ [0]).
Proof.
  cbv zeta. intros H.
  pose proof (tickRates_events (S (List.length (song (Load p songstr)))) (Load p songstr) 0
                (tickBudget (Load p songstr))) as T.
  unfold songEvents in H. rewrite H in T.
  change (set_counts (Load p songstr) 0) with (Load p songstr) in T.
  apply T; unfold tickBudget; cbn [Load tempo position song]; lia.
Qed.

Lemma Tick_returns_the_rate_of_each_event_for_its_ticks_witness :
  songEvents (Load (mkMMLPlayer (repeat 7 36) [] 0 1 0 4 0) (chars "t0 c1 r0"))
  = Ok [mkEvent 7 0 1 2; mkEvent 0 0 0 1]
  /\ tickRates (tickBudget (Load (mkMMLPlayer (repeat 7 36) [] 0 1 0 4 0) (chars "t0 c1 r0")))
       (Load (mkMMLPlayer (repeat 7 36) [] 0 1 0 4 0) (chars "t0 c1 r0"))
     = Ok [7; 7; 0; 0].
Proof.
  split; [vm_compute; reflexivity |].
  apply (Tick_returns_the_rate_of_each_event_for_its_ticks
           (mkMMLPlayer (repeat 7 36) [] 0 1 0 4 0) (chars "t0 c1 r0")
           [mkEvent 7 0 1 2; mkEvent 0 0 0 1]).
  vm_compute; reflexivity.
Defined.

Section Render.

Variable sinf : float -> float.
Variable pow : double -> double -> double.
Variable m : Memory.

(** X9. The render does not tell upper case from lower case. *)
Theorem render_ignores_case (songstr : list ascii) :
  GenerateSongSquareWave sinf pow m (map toupper songstr)
  = GenerateSongSquareWave sinf pow m songstr.
Proof.
  unfold GenerateSongSquareWave, MMLPlayer_new_song. now rewrite Load_toupper.
Qed.

(** X10. A render returns at least the [TICK_LENGTH] samples of its last tick,
    and at most [TICK_LENGTH * (160 * n + 1)] samples for a text of [n]
    characters: a note or rest takes two characters at least and lasts 320
    ticks at most. *)
Theorem render_size_is_bounded_by_the_text (songstr : list ascii) (samples : list Z) :
  GenerateSongSquareWave sinf pow m songstr = Ok samples ->
  TICK_LENGTH <= Z.of_nat (List.length samples)
  <= TICK_LENGTH * (160 * Z.of_nat (List.length songstr) + 1).
Proof.
  intros H.
  pose proof (GenerateSongSquareWave_follows sinf pow m songstr) as F.
  destruct (songEvents (MMLPlayer_new_song pow m SAMPLE_RATE songstr)) as [events | | |] eqn:E;
    cbn [follows] in F; try congruence.
  - destruct F as (body & F & Hbody).
    rewrite app_nil_l in F.
    assert (Hs : samples = body ++ repeat 0 (Z.to_nat TICK_LENGTH)) by congruence.
    subst samples. clear H F.
    pose proof (songEventsFrom_ticks _ _ events
                  ltac:(rewrite MMLPlayer_new_song_tempo; lia) E) as Hticks.
    apply totalTicks_bounds in Hticks.
    apply songEventsFrom_count in E;
      [| now exists (map toupper songstr)].
    cbn [MMLPlayer_new_song Load song position] in E.
    rewrite length_app, length_map in E. cbn [List.length] in E.
    rewrite length_app, repeat_length.
    unfold TICK_LENGTH in *. lia.
  - exfalso. revert E. apply songEvents_not_OutOfFuel.
    rewrite MMLPlayer_new_song_position. lia.
Qed.

End Render.

Lemma render_size_is_bounded_by_the_text_witness :
  GenerateSongSquareWave sinf_small pow_quarters memory_zero (chars "R0")
  = Ok (repeat 0 (Z.to_nat (((4 + 1) * 1 + 1) * TICK_LENGTH)))
  /\ TICK_LENGTH
     <= Z.of_nat (List.length (repeat 0 (Z.to_nat (((4 + 1) * 1 + 1) * TICK_LENGTH))))
     <= TICK_LENGTH * (160 * Z.of_nat (List.length (chars "R0")) + 1).
Proof.
  split; [apply renderLoop_R0 |].
  apply (render_size_is_bounded_by_the_text sinf_small pow_quarters memory_zero (chars "R0")).
  apply renderLoop_R0.
Defined.

(** * The bank and the renderer, whatever the song *)

(** ** The shape of the bank *)

Lemma array_set_length {A : Type} (a : list A) (i : Z) (x : A) :
  List.length (array_set a i x) = List.length a.
Proof.
  unfold array_set. destruct (i <? 0); [reflexivity |].
  generalize (Z.to_nat i). intros k. revert k.
  induction a as [| y a IH]; intros [| k]; cbn [array_set_nat List.length]; auto.
Qed.

Lemma for_range_invariant {S : Type} (P : S -> Prop) (from to : Z) (body : S -> Z -> S) (s : S) :
  P s -> (forall s i, P s -> P (body s i)) -> P (for_range from to body s).
Proof.
  intros Hs Hbody. unfold for_range.
  generalize (map (fun k => from + Z.of_nat k) (seq 0 (Z.to_nat (to - from)))).
  intros l. revert s Hs. induction l as [| i l IH]; intros s Hs; cbn [fold_left]; auto.
Qed.

Lemma table_closed_forms (k : nat) :
  (k < 8)%nat ->
  tableHarmonics k = 500 / 2 ^ Z.of_nat k
  /\ tableFrequency k = float_of_int (40 * 2 ^ Z.of_nat k)
  /\ 1 <= 500 / 2 ^ Z.of_nat k
  /\ (500 / 2 ^ Z.of_nat k) * (40 * 2 ^ Z.of_nat k) <= 20000.
Proof.
  intros Hk.
  do 8 (destruct k as [| k]; [repeat split; vm_compute; congruence |]).
  lia.
Qed.

Section Bank.

Variable sinf : float -> float.

Lemma addHarmonic_length (harmonic : Z) (table : list float) :
  List.length (addHarmonic sinf harmonic table) = List.length table.
Proof.
  unfold addHarmonic. destruct (negb (Z.odd harmonic)); [reflexivity |].
  apply (for_range_invariant (fun t => List.length t = List.length table)); [reflexivity |].
  intros t i Ht. now rewrite array_set_length.
Qed.

Lemma squareTable_length (maxHarmonics : Z) :
  Z.of_nat (List.length (squareTable sinf maxHarmonics)) = WAVETABLE_SIZE.
Proof.
  unfold squareTable. rewrite length_map.
  rewrite (for_range_invariant
             (fun t => List.length t = Z.to_nat WAVETABLE_SIZE) 1 (maxHarmonics + 1)).
  - reflexivity.
  - apply repeat_length.
  - intros t h Ht. now rewrite addHarmonic_length.
Qed.

(** X11. [Generate] builds [WAVETABLE_NUM_TABLES] tables of [WAVETABLE_SIZE]
    samples each and as many thresholds, at every sample rate and whatever
    the memory held; table [t] is made of the harmonics up to
    [500 / 2^t], which reach [20000] Hz at most at the frequency
    [40 * 2^t] Hz of its threshold. *)
Theorem Generate_builds_eight_band_limited_tables (m : Memory) (sampleRate : Z) :
  let w := SquareWavetable_new sinf m sampleRate in
  Z.of_nat (List.length (data w)) = WAVETABLE_NUM_TABLES
  /\ Z.of_nat (List.length (topPhaseRate w)) = WAVETABLE_NUM_TABLES
  /\ forall t, 0 <= t < WAVETABLE_NUM_TABLES ->
       array_get [] (data w) t = squareTable sinf (500 / 2 ^ t)
       /\ Z.of_nat (List.length (array_get [] (data w) t)) = WAVETABLE_SIZE
       /\ array_get 0 (topPhaseRate w) t
          = thresholdRate sampleRate (float_of_int (40 * 2 ^ t))
       /\ 1 <= 500 / 2 ^ t
       /\ (500 / 2 ^ t) * (40 * 2 ^ t) <= 20000.
Proof.
  cbv zeta. rewrite SquareWavetable_new_eq. cbn [data topPhaseRate].
  rewrite !uninitialized_length.
  split; [reflexivity |]. split; [reflexivity |].
  intros t Ht. rewrite !array_get_uninitialized by assumption.
  rewrite squareTable_length.
  assert (E : exists k, (k < 8)%nat /\ t = Z.of_nat k)
    by (exists (Z.to_nat t); unfold WAVETABLE_NUM_TABLES in Ht; lia).
  destruct E as (k & Hk & ->). rewrite Nat2Z.id.
  destruct (table_closed_forms k Hk) as (-> & -> & H1 & H2).
  repeat split; assumption.
Qed.

End Bank.

(** ** Selecting a table, whatever the thresholds *)

Lemma lower_bound_loop_range (a : list Z) (val : Z) (fuel : nat) :
  forall first len, 0 <= len ->
    first <= lower_bound_loop fuel a first len val <= first + len.
Proof.
  induction fuel as [| fuel IH]; intros first len Hlen; cbn [lower_bound_loop]; [lia |].
  destruct (Z.gtb_spec len 0) as [Hpos | Hzero]; [| lia].
  rewrite Z.shiftr_div_pow2 by lia. change (2 ^ 1) with 2.
  assert (Hhalf : 0 <= len / 2 < len) by (split; [apply Z.div_pos | apply Z.div_lt]; lia).
  destruct (array_get 0 a (first + len / 2) <? val).
  - specialize (IH (first + len / 2 + 1) (len - len / 2 - 1) ltac:(lia)). lia.
  - specialize (IH first (len / 2) ltac:(lia)). lia.
Qed.

(** X12. [GetTable] returns the index of a table of the bank, whatever the rate
    and whatever the thresholds hold. *)
Theorem GetTable_returns_a_table_of_the_bank (w : SquareWavetable) (phaseRate : Z) :
  0 <= GetTable w phaseRate < WAVETABLE_NUM_TABLES.
Proof.
  unfold GetTable, lower_bound.
  pose proof (lower_bound_loop_range (topPhaseRate w) phaseRate
                (Z.to_nat (WAVETABLE_NUM_TABLES - 1 - 0)) 0 (WAVETABLE_NUM_TABLES - 1 - 0)) as H.
  unfold WAVETABLE_NUM_TABLES in *. lia.
Qed.

(** X13. On thresholds that grow with the table index, a higher rate never
    selects a lower table: the tables of the higher notes have the fewer
    harmonics. *)
Theorem GetTable_grows_with_the_rate (w : SquareWavetable) (rate rate' : Z) :
  Z.of_nat (List.length (topPhaseRate w)) = WAVETABLE_NUM_TABLES ->
  increasing (topPhaseRate w) ->
  rate <= rate' ->
  GetTable w rate <= GetTable w rate'.
Proof.
  intros Hlen Hinc Hr.
  destruct (GetTable_spec w rate Hlen Hinc) as (Ht & Hbelow & _).
  destruct (GetTable_spec w rate' Hlen Hinc) as (Ht' & _ & Habove').
  destruct (Z.le_gt_cases (GetTable w rate) (GetTable w rate')) as [H | H]; [exact H |].
  specialize (Hbelow (GetTable w rate') ltac:(lia)).
  specialize (Habove' ltac:(lia)). lia.
Qed.

Lemma GetTable_grows_with_the_rate_witness :
  GetTable (mkSquareWavetable [] [10; 20; 30; 40; 50; 60; 70; 80]) 25
  <= GetTable (mkSquareWavetable [] [10; 20; 30; 40; 50; 60; 70; 80]) 61.
Proof.
  apply (GetTable_grows_with_the_rate
           (mkSquareWavetable [] [10; 20; 30; 40; 50; 60; 70; 80]) 25 61).
  - reflexivity.
  - apply increasingb_increasing. reflexivity.
  - lia.
Defined.

(** ** The two samples of a lookup *)

Lemma Lookup_indices (phase : Z) :
  0 <= phase < 2 ^ 32 ->
  let left := phase / 2 ^ 22 in
  0 <= left < WAVETABLE_SIZE
  /\ Z.shiftr phase WAVETABLE_SHIFT = left
  /\ Z.shiftr ((phase + WAVETABLE_MASK + 1) mod 2 ^ 32) WAVETABLE_SHIFT
     = (left + 1) mod WAVETABLE_SIZE
  /\ Z.land phase WAVETABLE_MASK = phase mod 2 ^ 22.
Proof.
  intros Hp. cbv zeta. unfold WAVETABLE_SIZE, WAVETABLE_SHIFT, WAVETABLE_MASK.
  rewrite !Z.shiftr_div_pow2 by lia.
  change 4194303 with (Z.ones 22). rewrite Z.land_ones by lia.
  change (Z.ones 22) with (2 ^ 22 - 1).
  assert (H22 : 2 ^ 22 = 4194304) by reflexivity.
  assert (H32 : 2 ^ 32 = 4194304 * 1024) by reflexivity.
  rewrite H22, H32 in *.
  pose proof (Z.div_mod phase 4194304 ltac:(lia)) as Hdm.
  pose proof (Z.mod_pos_bound phase 4194304 ltac:(lia)) as Hm.
  assert (Hl : 0 <= phase / 4194304 < 1024).
  { split; [apply Z.div_pos; lia | apply Z.div_lt_upper_bound; lia]. }
  split; [exact Hl |]. split; [reflexivity |]. split; [| reflexivity].
  replace (phase + (4194304 - 1) + 1)
    with ((phase / 4194304 + 1) * 4194304 + phase mod 4194304) by lia.
  destruct (Z.eq_dec (phase / 4194304) 1023) as [E | E].
  - rewrite E. change (1023 + 1) with 1024. rewrite Z.mod_same by lia.
    replace (1024 * 4194304 + phase mod 4194304)
      with (phase mod 4194304 + 1 * (4194304 * 1024)) by lia.
    rewrite Z.mod_add by lia. rewrite Z.mod_small by lia.
    apply Z.div_small. lia.
  - rewrite (Z.mod_small (phase / 4194304 + 1)) by lia.
    rewrite Z.mod_small by nia.
    rewrite Z.div_add_l by lia.
    rewrite (Z.div_small (phase mod 4194304)) by lia. lia.
Qed.

(** X14. [Lookup] reads the sample at the upper ten bits of the phase and the
    next one, the first of the table after the last, both inside a table of
    [WAVETABLE_SIZE] samples, and weighs them by the lower 22 bits. *)
Theorem Lookup_reads_two_adjacent_samples (w : SquareWavetable) (phase table : Z) :
  0 <= phase < 2 ^ 32 ->
  let left := phase / 2 ^ 22 in
  let right := (left + 1) mod WAVETABLE_SIZE in
  let sample := array_get S754_nan (array_get [] (data w) table) in
  0 <= left < WAVETABLE_SIZE
  /\ 0 <= right < WAVETABLE_SIZE
  /\ Lookup w phase table
     = fadd (sample left)
         (fmul (fsub (sample right) (sample left))
               (fdiv (float_of_int (phase mod 2 ^ 22)) (float_of_int (2 ^ 22)))).
Proof.
  intros Hp. cbv zeta.
  destruct (Lookup_indices phase Hp) as (Hl & El & Er & Ef).
  split; [exact Hl |].
  split; [apply Z.mod_pos_bound; reflexivity |].
  unfold Lookup. rewrite El, Er, Ef. reflexivity.
Qed.

Lemma Lookup_reads_two_adjacent_samples_witness :
  0 <= 2 ^ 32 - 1 < 2 ^ 32
  /\ (2 ^ 32 - 1) / 2 ^ 22 = 1023
  /\ (1023 + 1) mod WAVETABLE_SIZE = 0
  /\ Lookup (mkSquareWavetable [] []) (2 ^ 32 - 1) 0
     = fadd S754_nan
         (fmul (fsub S754_nan S754_nan)
               (fdiv (float_of_int ((2 ^ 32 - 1) mod 2 ^ 22)) (float_of_int (2 ^ 22)))).
Proof.
  split; [lia |]. split; [reflexivity |]. split; [reflexivity |].
  apply (Lookup_reads_two_adjacent_samples (mkSquareWavetable [] []) (2 ^ 32 - 1) 0).
  lia.
Defined.

(** ** The phase accumulator and the samples *)

Lemma int16_of_float_range (x : float) : int16 (int16_of_float x).
Proof.
  unfold int16, int16_of_float.
  pose proof (Z.mod_pos_bound (truncate x + 2 ^ 15) (2 ^ 16) ltac:(lia)). lia.
Qed.

Lemma renderTick_fold (w : SquareWavetable) (tableNum phaseRate : Z) (l : list Z) :
  forall (samples : list Z) (phase : Z),
    let r := fold_left (fun '(samples, phase) (_ : Z) =>
                          let sample := Lookup w phase tableNum in
                          (samples ++ [int16_of_float (fmul (float_of_int 16384) sample)],
                           (phase + phaseRate) mod 2 ^ 32))
                       l (samples, phase) in
    (Forall int16 samples -> Forall int16 (fst r))
    /\ snd r = match l with
               | [] => phase
               | _ => (phase + Z.of_nat (List.length l) * phaseRate) mod 2 ^ 32
               end.
Proof.
  induction l as [| i l IH]; intros samples phase; cbv zeta; cbn [fold_left].
  - split; [tauto | reflexivity].
  - specialize (IH (samples ++ [int16_of_float
                                  (fmul (float_of_int 16384) (Lookup w phase tableNum))])
                   ((phase + phaseRate) mod 2 ^ 32)).
    cbv zeta in IH. destruct IH as [IHs IHp]. split.
    + intros Hs. apply IHs. apply Forall_app. split; [exact Hs |].
      constructor; [apply int16_of_float_range | constructor].
    + rewrite IHp. destruct l as [| j l].
      * cbn [List.length]. f_equal. lia.
      * rewrite Zplus_mod_idemp_l. f_equal. cbn [List.length]. lia.
Qed.

Lemma renderTick_spec (w : SquareWavetable) (tableNum phaseRate : Z)
    (samples : list Z) (phase : Z) :
  (Forall int16 samples -> Forall int16 (fst (renderTick w tableNum phaseRate (samples, phase))))
  /\ snd (renderTick w tableNum phaseRate (samples, phase))
     = (phase + TICK_LENGTH * phaseRate) mod 2 ^ 32.
Proof.
  unfold renderTick, for_range.
  set (l := map (fun k => 0 + Z.of_nat k) (seq 0 (Z.to_nat (TICK_LENGTH - 0)))).
  assert (Hl : List.length l = Z.to_nat TICK_LENGTH)
    by (unfold l; now rewrite length_map, length_seq).
  destruct (renderTick_fold w tableNum phaseRate l samples phase) as [Hs Hp].
  split; [exact Hs |].
  etransitivity; [exact Hp |].
  rewrite Hl. destruct l; [discriminate Hl | reflexivity].
Qed.

Lemma renderBody_spec (st st' : RenderState) :
  renderBody st = Ok st' ->
  (Forall int16 (r_data st) -> Forall int16 (r_data st'))
  /\ r_phase st'
     = (if r_phaseRate st' =? 0 then r_phase st
        else (r_phase st + TICK_LENGTH * r_phaseRate st') mod 2 ^ 32).
Proof.
  unfold renderBody. intros H.
  destruct (Tick (r_player st)) as [[rate q] | | |]; try discriminate.
  cbn [bind] in H. destruct (rate =? 0) eqn:E.
  - assert (E' : st' = mkRenderState (r_wavetable st) q
                         (r_data st ++ repeat 0 (Z.to_nat TICK_LENGTH)) (r_phase st) rate)
      by congruence.
    subst st'. clear H. cbn [r_data r_phase r_phaseRate]. rewrite E.
    split; [| reflexivity].
    intros Hs. apply Forall_app. split; [exact Hs |].
    apply Forall_forall. intros s Hin. apply repeat_spec in Hin. subst s.
    unfold int16. lia.
  - destruct (renderTick_spec (r_wavetable st) (GetTable (r_wavetable st) rate) rate
                (r_data st) (r_phase st)) as [Hs Hp].
    destruct (renderTick _ _ _ _) as [samples phase].
    injection H as <-. cbn [r_data r_phase r_phaseRate fst snd] in *. rewrite E.
    split; assumption.
Qed.

Lemma renderLoop_int16 (fuel : nat) :
  forall st samples,
    renderLoop fuel st = Ok samples -> Forall int16 (r_data st) -> Forall int16 samples.
Proof.
  induction fuel as [| fuel IH]; intros st samples H Hs; [discriminate |].
  cbn [renderLoop] in H. destruct (IsDone (r_player st)); [now injection H as <- |].
  apply bind_Ok in H. destruct H as [st' [Hb H]].
  apply (IH st'); [exact H |]. apply (renderBody_spec _ _ Hb). exact Hs.
Qed.

(** X15. A sounding tick moves the phase by [TICK_LENGTH] times its rate, modulo
    [2^32]; a silent tick leaves the phase where it was. *)
Theorem renderBody_advances_the_phase (st st' : RenderState) :
  renderBody st = Ok st' ->
  r_phase st'
  = (if r_phaseRate st' =? 0 then r_phase st
     else (r_phase st + TICK_LENGTH * r_phaseRate st') mod 2 ^ 32).
Proof.
  unfold renderBody. intros H.
  destruct (Tick (r_player st)) as [[rate q] | | |]; try discriminate.
  cbn [bind] in H. destruct (rate =? 0) eqn:E.
  - assert (E' : st' = mkRenderState (r_wavetable st) q
                         (r_data st ++ repeat 0 (Z.to_nat TICK_LENGTH)) (r_phase st) rate)
      by congruence.
    subst st'. cbn [r_phase r_phaseRate]. now rewrite E.
  - destruct (renderTick_spec (r_wavetable st) (GetTable (r_wavetable st) rate) rate
                (r_data st) (r_phase st)) as [_ Hp].
    destruct (renderTick _ _ _ _) as [samples phase].
    injection H as <-. cbn [r_phase r_phaseRate snd] in *. now rewrite E.
Qed.

Lemma renderBody_advances_the_phase_witness :
  renderBody (mkRenderState (mkSquareWavetable [] [])
                (Load (mkMMLPlayer (repeat 1000000 36) [] 0 1 0 4 0) (chars "c1"))
                [] 4294967295 0)
  = Ok (mkRenderState (mkSquareWavetable [] [])
          (mkMMLPlayer (repeat 1000000 36) (chars "C1" ++ ["000"%char]) 2 1 1000000 4 10)
          (repeat 0 2700) 2699999999 1000000)
  /\ 2699999999 = (4294967295 + TICK_LENGTH * 1000000) mod 2 ^ 32.
Proof.
  split; [vm_compute; reflexivity |].
  apply (renderBody_advances_the_phase
           (mkRenderState (mkSquareWavetable [] [])
              (Load (mkMMLPlayer (repeat 1000000 36) [] 0 1 0 4 0) (chars "c1"))
              [] 4294967295 0)
           (mkRenderState (mkSquareWavetable [] [])
              (mkMMLPlayer (repeat 1000000 36) (chars "C1" ++ ["000"%char]) 2 1 1000000 4 10)
              (repeat 0 2700) 2699999999 1000000)).
  vm_compute; reflexivity.
Defined.

(** ** The peak of a table *)

Lemma fdiv_same (s : bool) (mant : positive) (e : Z) :
  fdiv (S754_finite s mant e) (S754_finite s mant e) = float_one.
Proof.
  unfold fdiv, SFdiv, SFdiv_core_binary.
  rewrite !Z.sub_diag.
  change (Z.min (fexp 24 128 0) 0) with (-24).
  change (0 - -24) with 24.
  cbv iota beta.
  rewrite Z.shiftl_mul_pow2 by lia.
  assert (E : Z.div_eucl (Z.pos mant * 2 ^ 24) (Z.pos mant) = (2 ^ 24, 0)).
  { pose proof (Z.div_mul (2 ^ 24) (Z.pos mant) ltac:(lia)) as Hq.
    pose proof (Z.mod_mul (2 ^ 24) (Z.pos mant) ltac:(lia)) as Hr.
    rewrite (Z.mul_comm (2 ^ 24)) in Hq, Hr.
    unfold Z.div, Z.modulo in Hq, Hr.
    destruct (Z.div_eucl (Z.pos mant * 2 ^ 24) (Z.pos mant)) as [q r].
    now subst. }
  rewrite E.
  assert (L : new_location (Z.pos mant) 0 = loc_Exact)
    by (unfold new_location; destruct (Z.even (Z.pos mant)); reflexivity).
  rewrite L. destruct s; vm_compute; reflexivity.
Qed.

Lemma max_element_In (x : float) (a : list float) : In (max_element (x :: a)) (x :: a).
Proof.
  cbn [max_element].
  assert (G : forall l best, In (fold_left (fun best y => if fltb best y then y else best) l best)
                               (best :: l)).
  { induction l as [| y l IH]; intros best; cbn [fold_left]; [now left |].
    destruct (fltb best y).
    - right. apply IH.
    - destruct (IH best) as [H | H]; [left; exact H | right; right; exact H]. }
  apply G.
Qed.

Section Peak.

Variable sinf : float -> float.

(** X17. Normalizing divides the largest sum of harmonics by itself: when that
    sum is a finite number and not zero, the table holds the sample 1.0. *)
Theorem squareTable_holds_one_at_its_peak (maxHarmonics : Z) (s : bool) (mant : positive)
    (e : Z) :
  max_element (harmonics sinf maxHarmonics) = S754_finite s mant e ->
  squareTable sinf maxHarmonics
  = map (fun elem => fdiv elem (S754_finite s mant e)) (harmonics sinf maxHarmonics)
  /\ In (S754_finite s mant e) (harmonics sinf maxHarmonics)
  /\ In float_one (squareTable sinf maxHarmonics).
Proof.
  intros H.
  assert (E : squareTable sinf maxHarmonics
              = map (fun elem => fdiv elem (S754_finite s mant e)) (harmonics sinf maxHarmonics))
    by (unfold squareTable; fold (harmonics sinf maxHarmonics); now rewrite H).
  assert (Hin : In (S754_finite s mant e) (harmonics sinf maxHarmonics)).
  { rewrite <- H. destruct (harmonics sinf maxHarmonics) as [| x a]; [discriminate H |].
    apply max_element_In. }
  split; [exact E |]. split; [exact Hin |].
  rewrite E. apply in_map_iff. exists (S754_finite s mant e).
  split; [apply fdiv_same | exact Hin].
Qed.

End Peak.

Lemma squareTable_holds_one_at_its_peak_witness :
  max_element (harmonics sinf_small 1) = S754_finite false 15817608 (-24)
  /\ In float_one (squareTable sinf_small 1).
Proof.
  assert (H : max_element (harmonics sinf_small 1) = S754_finite false 15817608 (-24))
    by (vm_compute; reflexivity).
  split; [exact H |].
  apply (squareTable_holds_one_at_its_peak sinf_small 1 false 15817608 (-24) H).
Defined.

(** * The wave file and the program *)

Lemma bytes_of_length (n : nat) : forall v, List.length (bytes_of n v) = n.
Proof. induction n as [| n IH]; intros v; cbn [bytes_of List.length]; auto. Qed.

Lemma le_value_bytes_of (n : nat) :
  forall v, 0 <= v < 256 ^ Z.of_nat n -> le_value (bytes_of n v) = v.
Proof.
  induction n as [| n IH]; intros v Hv.
  - cbn in Hv |- *. lia.
  - cbn [bytes_of]. unfold le_value in *. cbn [fold_right].
    rewrite Nat2Z.inj_succ, Z.pow_succ_r in Hv by lia.
    rewrite IH by (split; [apply Z.div_pos | apply Z.div_lt_upper_bound]; lia).
    pose proof (Z.div_mod v 256 ltac:(lia)). lia.
Qed.

Lemma bytes_of_range (n : nat) :
  forall v, Forall (fun b => 0 <= b < 256) (bytes_of n v).
Proof.
  induction n as [| n IH]; intros v; cbn [bytes_of]; constructor; [| apply IH].
  apply Z.mod_pos_bound. lia.
Qed.

Lemma int_wrap_small (v : Z) : - 2 ^ 31 <= v < 2 ^ 31 -> int_wrap v = v.
Proof. intros H. unfold int_wrap. rewrite Z.mod_small; lia. Qed.

Lemma BuildWaveHeader_eq (nsamples : Z) :
  0 <= nsamples < 2 ^ 27 ->
  BuildWaveHeader nsamples
  = mkWAVHeader (chars "RIFF") (36 + 2 * nsamples) (chars "WAVE") (chars "fmt ")
      16 1 1 SAMPLE_RATE (SAMPLE_RATE * 2) 2 16 (chars "data") (2 * nsamples).
Proof.
  intros Hn. unfold BuildWaveHeader.
  rewrite (int_wrap_small (nsamples * 1)) by lia.
  rewrite (int_wrap_small (nsamples * 1 * 16)) by lia.
  rewrite Z.quot_div_nonneg by lia.
  replace (nsamples * 1 * 16) with (2 * nsamples * 8) by lia.
  rewrite Z.div_mul by lia.
  assert (E : uint32_of_int (2 * nsamples) = 2 * nsamples)
    by (apply Z.mod_small; lia).
  rewrite E.
  assert (E' : uint32_of_int (36 + 2 * nsamples) = 36 + 2 * nsamples)
    by (apply Z.mod_small; lia).
  rewrite E'. reflexivity.
Qed.

Lemma le_int16_bytes (v : Z) :
  - 2 ^ 15 <= v < 2 ^ 15 ->
  exists lo hi, int16_bytes v = [lo; hi] /\ le_int16 lo hi = v.
Proof.
  intros Hv. unfold int16_bytes. cbn [bytes_of]. eexists _, _. split; [reflexivity |].
  unfold le_int16.
  change [?lo; ?hi] with (bytes_of 2 (v mod 2 ^ 16)).
  pose proof (Z.mod_pos_bound v (2 ^ 16) ltac:(lia)) as Hm.
  rewrite le_value_bytes_of by (change (256 ^ Z.of_nat 2) with (2 ^ 16); exact Hm).
  destruct (Z.ltb_spec (v mod 2 ^ 16) (2 ^ 15)) as [H | H].
  - destruct (Z.lt_ge_cases v 0) as [Hneg | Hpos].
    + rewrite <- (Z.mod_add v 1 (2 ^ 16)), Z.mod_small in H; lia.
    + rewrite Z.mod_small; lia.
  - destruct (Z.lt_ge_cases v 0) as [Hneg | Hpos].
    + rewrite <- (Z.mod_add v 1 (2 ^ 16)), Z.mod_small; lia.
    + rewrite Z.mod_small in H; lia.
Qed.

Lemma le_samples_int16_bytes (data : list Z) :
  Forall int16 data -> le_samples (flat_map int16_bytes data) = data.
Proof.
  induction 1 as [| v data Hv _ IH]; [reflexivity |].
  cbn [flat_map]. destruct (le_int16_bytes v Hv) as (lo & hi & -> & E).
  cbn [app le_samples]. now rewrite E, IH.
Qed.

Lemma flat_map_int16_bytes_length (data : list Z) :
  List.length (flat_map int16_bytes data) = (2 * List.length data)%nat.
Proof.
  induction data as [| v data IH]; [reflexivity |].
  cbn [flat_map]. rewrite length_app, IH. unfold int16_bytes.
  rewrite bytes_of_length. cbn [List.length]. lia.
Qed.

Lemma WriteMonoWaveFile_spec (filename : list ascii) (data : list Z) (nsamples : Z) :
  0 <= nsamples <= Z.of_nat (List.length data) -> nsamples < 2 ^ 27 ->
  exists header,
    WriteMonoWaveFile filename data nsamples
    = Ok (filename, header ++ flat_map int16_bytes (firstn (Z.to_nat nsamples) data))
    /\ List.length header = 44%nat
    /\ slice 0 4 header = map byte_of_char (chars "RIFF")
    /\ field 4 4 header = 36 + 2 * nsamples
    /\ slice 8 8 header = map byte_of_char (chars "WAVEfmt ")
    /\ field 16 4 header = 16
    /\ field 20 2 header = 1
    /\ field 22 2 header = 1
    /\ field 24 4 header = SAMPLE_RATE
    /\ field 28 4 header = SAMPLE_RATE * 2
    /\ field 32 2 header = 2
    /\ field 34 2 header = 16
    /\ slice 36 4 header = map byte_of_char (chars "data")
    /\ field 40 4 header = 2 * nsamples.
Proof.
  intros Hn Hsmall. unfold WriteMonoWaveFile.
  destruct (Z.leb_spec 0 nsamples); [| lia].
  destruct (Z.leb_spec nsamples (Z.of_nat (List.length data))); [| lia].
  cbn [andb]. rewrite BuildWaveHeader_eq by lia.
  eexists. split; [reflexivity |].
  unfold WAVHeader_bytes.
  cbn [h_chunkId h_chunkSize h_format h_subchunk1Id h_subchunk1Size h_audioFormat
       h_numChannels h_sampleRate h_byteRate h_blockAlign h_bitsPerSample h_subchunk2Id
       h_subchunk2Size].
  set (b1 := bytes_of 4 (36 + 2 * nsamples)).
  set (b2 := bytes_of 4 (2 * nsamples)).
  assert (E1 : le_value b1 = 36 + 2 * nsamples)
    by (apply le_value_bytes_of; change (256 ^ Z.of_nat 4) with (2 ^ 32); lia).
  assert (E2 : le_value b2 = 2 * nsamples)
    by (apply le_value_bytes_of; change (256 ^ Z.of_nat 4) with (2 ^ 32); lia).
  assert (L1 : exists x0 x1 x2 x3, b1 = [x0; x1; x2; x3]) by (repeat eexists).
  assert (L2 : exists x0 x1 x2 x3, b2 = [x0; x1; x2; x3]) by (repeat eexists).
  clearbody b1 b2.
  destruct L1 as (x0 & x1 & x2 & x3 & ->). destruct L2 as (y0 & y1 & y2 & y3 & ->).
  unfold field, slice.
  repeat split; try reflexivity; try exact E1; exact E2.
Qed.

Lemma slice_app (offset size : nat) (header payload : list Z) :
  (offset + size <= List.length header)%nat ->
  slice offset size (header ++ payload) = slice offset size header.
Proof.
  intros H. unfold slice.
  rewrite skipn_app, firstn_app.
  replace (size - List.length (skipn offset header))%nat with 0%nat
    by (rewrite length_skipn; lia).
  cbn [firstn]. now rewrite app_nil_r.
Qed.

(** X18. The file that [WriteMonoWaveFile] writes for up to [2^27 - 1] samples:
    44 bytes of header and two bytes a sample; the sizes in the header are
    those of the file, the format is 16-bit mono PCM at [SAMPLE_RATE], and
    the block and byte rates follow from it. *)
Theorem WriteMonoWaveFile_header_agrees_with_the_file (filename : list ascii)
    (data : list Z) (nsamples : Z) :
  0 <= nsamples <= Z.of_nat (List.length data) -> nsamples < 2 ^ 27 ->
  exists bytes,
    WriteMonoWaveFile filename data nsamples = Ok (filename, bytes)
    /\ Z.of_nat (List.length bytes) = 44 + 2 * nsamples
    /\ slice 0 4 bytes = map byte_of_char (chars "RIFF")
    /\ field 4 4 bytes = Z.of_nat (List.length bytes) - 8
    /\ slice 8 8 bytes = map byte_of_char (chars "WAVEfmt ")
    /\ field 16 4 bytes = 16
    /\ field 20 2 bytes = 1
    /\ field 22 2 bytes = 1
    /\ field 24 4 bytes = SAMPLE_RATE
    /\ field 28 4 bytes = field 24 4 bytes * field 32 2 bytes
    /\ field 32 2 bytes * 8 = field 22 2 bytes * field 34 2 bytes
    /\ field 34 2 bytes = 16
    /\ slice 36 4 bytes = map byte_of_char (chars "data")
    /\ field 40 4 bytes = Z.of_nat (List.length bytes) - 44.
Proof.
  intros Hn Hsmall.
  destruct (WriteMonoWaveFile_spec filename data nsamples Hn Hsmall)
    as (header & E & Hlen & H0 & H4 & H8 & H16 & H20 & H22 & H24 & H28 & H32 & H34 & H36 & H40).
  eexists. split; [exact E |].
  assert (Hbytes : Z.of_nat (List.length
                     (header ++ flat_map int16_bytes (firstn (Z.to_nat nsamples) data)))
                   = 44 + 2 * nsamples).
  { rewrite length_app, flat_map_int16_bytes_length, length_firstn, Hlen. lia. }
  rewrite Hbytes.
  unfold field in *. rewrite !slice_app by (rewrite Hlen; cbn; lia).
  rewrite H0, H4, H8, H16, H20, H22, H24, H28, H32, H34, H36, H40.
  repeat split; lia.
Qed.

Lemma WriteMonoWaveFile_header_agrees_with_the_file_witness :
  exists bytes,
    WriteMonoWaveFile (chars "out.wav") [0; -1; 32767] 3 = Ok (chars "out.wav", bytes)
    /\ Z.of_nat (List.length bytes) = 44 + 2 * 3
    /\ field 4 4 bytes = 42
    /\ field 40 4 bytes = 6.
Proof.
  destruct (WriteMonoWaveFile_header_agrees_with_the_file (chars "out.wav") [0; -1; 32767] 3
              ltac:(cbn; lia) ltac:(lia))
    as (bytes & E & Hlen & _ & H4 & _ & _ & _ & _ & _ & _ & _ & _ & _ & H40).
  exists bytes. rewrite Hlen in H4, H40. repeat split; assumption.
Defined.

Lemma WAVHeader_bytes_length (nsamples : Z) :
  List.length (WAVHeader_bytes (BuildWaveHeader nsamples)) = 44%nat.
Proof.
  unfold WAVHeader_bytes, BuildWaveHeader.
  cbn [h_chunkId h_chunkSize h_format h_subchunk1Id h_subchunk1Size h_audioFormat
       h_numChannels h_sampleRate h_byteRate h_blockAlign h_bitsPerSample h_subchunk2Id
       h_subchunk2Size].
  rewrite !length_app, !length_map, !bytes_of_length. reflexivity.
Qed.

Lemma WAVHeader_bytes_range (hdr : WAVHeader) :
  Forall (fun b => 0 <= b < 256) (WAVHeader_bytes hdr).
Proof.
  unfold WAVHeader_bytes.
  repeat (apply Forall_app; split); try apply bytes_of_range.
  all: apply Forall_forall; intros b Hb; apply in_map_iff in Hb;
    destruct Hb as (c & <- & _); unfold byte_of_char;
    pose proof (N_ascii_bounded c); lia.
Qed.

Lemma WriteMonoWaveFile_all_samples (filename : list ascii) (data : list Z) :
  Forall int16 data ->
  exists bytes,
    WriteMonoWaveFile filename data (Z.of_nat (List.length data)) = Ok (filename, bytes)
    /\ le_samples (skipn 44 bytes) = data.
Proof.
  intros Hdata. unfold WriteMonoWaveFile.
  destruct (Z.leb_spec 0 (Z.of_nat (List.length data))); [| lia].
  rewrite Z.leb_refl. cbn [andb]. eexists. split; [reflexivity |].
  rewrite skipn_app.
  rewrite (skipn_all2 (WAVHeader_bytes _)) by (rewrite WAVHeader_bytes_length; lia).
  rewrite WAVHeader_bytes_length. cbn [Nat.sub skipn app].
  rewrite Nat2Z.id, firstn_all. now apply le_samples_int16_bytes.
Qed.

(** X19. The samples are in the file as a reader of 16-bit little-endian mono
    finds them after the 44 bytes of the header: what is written is read
    back. *)
Theorem WriteMonoWaveFile_samples_read_back (filename : list ascii) (data : list Z)
    (nsamples : Z) :
  Forall (fun s => - 2 ^ 15 <= s < 2 ^ 15) data ->
  0 <= nsamples <= Z.of_nat (List.length data) ->
  exists bytes,
    WriteMonoWaveFile filename data nsamples = Ok (filename, bytes)
    /\ Forall (fun b => 0 <= b < 256) bytes
    /\ le_samples (skipn 44 bytes) = firstn (Z.to_nat nsamples) data.
Proof.
  intros Hdata Hn. unfold WriteMonoWaveFile.
  destruct (Z.leb_spec 0 nsamples); [| lia].
  destruct (Z.leb_spec nsamples (Z.of_nat (List.length data))); [| lia].
  cbn [andb]. eexists. split; [reflexivity |]. split.
  - apply Forall_app. split; [apply WAVHeader_bytes_range |].
    apply Forall_flat_map, Forall_forall. intros v _. apply bytes_of_range.
  - rewrite skipn_app.
    rewrite (skipn_all2 (WAVHeader_bytes _)) by (rewrite WAVHeader_bytes_length; lia).
    rewrite WAVHeader_bytes_length. cbn [Nat.sub skipn app].
    apply le_samples_int16_bytes.
    apply Forall_forall. intros v Hv. apply (proj1 (Forall_forall _ _) Hdata).
    revert Hv. generalize (Z.to_nat nsamples). clear.
    induction data as [| x data IH]; intros [| n]; cbn [firstn In]; try tauto.
    intros [-> | Hv]; [now left | right; now apply (IH n)].
Qed.

Lemma WriteMonoWaveFile_samples_read_back_witness :
  exists bytes,
    WriteMonoWaveFile (chars "out.wav") [0; -1; 32767; -32768] 4 = Ok (chars "out.wav", bytes)
    /\ le_samples (skipn 44 bytes) = [0; -1; 32767; -32768].
Proof.
  destruct (WriteMonoWaveFile_samples_read_back (chars "out.wav") [0; -1; 32767; -32768] 4)
    as (bytes & E & _ & H).
  - repeat constructor; lia.
  - cbn; lia.
  - exists bytes. split; assumption.
Defined.

(** ** The demo song *)

Lemma strlen_demosong : firstn (strlen Demo.demosong) Demo.demosong = Demo.demosong.
Proof. vm_compute. reflexivity. Qed.

Lemma songEvents_demosong (p : MMLPlayer) :
  List.length (noteToPhaseRate p) = 36%nat ->
  exists events,
    songEvents (Load p Demo.demosong) = Ok events
    /\ List.length events = 189%nat /\ totalTicks events = 380.
Proof.
  intros H. rewrite Load_table.
  destruct (table_of_length_36 p H)
    as (x00 & x01 & x02 & x03 & x04 & x05 & x06 & x07 & x08 & x09 & x10 & x11 &
        x12 & x13 & x14 & x15 & x16 & x17 & x18 & x19 & x20 & x21 & x22 & x23 &
        x24 & x25 & x26 & x27 & x28 & x29 & x30 & x31 & x32 & x33 & x34 & x35 & ->).
  eexists. split; [vm_compute; reflexivity |]. split; vm_compute; reflexivity.
Qed.

Section Main.

Variable sinf : float -> float.
Variable pow : double -> double -> double.
Variable m : Memory.
Variable writable : list ascii -> bool.
Variable failure : string.

Lemma render_of_events (songstr : list ascii) (events : list Event) :
  songEvents (MMLPlayer_new_song pow m SAMPLE_RATE songstr) = Ok events ->
  exists samples,
    GenerateSongSquareWave sinf pow m songstr = Ok samples
    /\ Z.of_nat (List.length samples) = TICK_LENGTH * (totalTicks events + 1).
Proof.
  intros E.
  pose proof (GenerateSongSquareWave_follows sinf pow m songstr) as F.
  rewrite E in F. destruct F as (body & -> & Hbody).
  eexists. split; [reflexivity |].
  rewrite app_nil_l, length_app, repeat_length. unfold TICK_LENGTH in *. lia.
Qed.

(** X20. Without a song on the command line, [main] prints the usage, renders
    the demo song, 189 notes and rests in 380 ticks, without an error, and
    writes no file. *)
Theorem main_without_arguments_renders_the_demo_song :
  (exists events samples,
     songEvents (MMLPlayer_new_song pow m SAMPLE_RATE Demo.demosong) = Ok events
     /\ List.length events = 189%nat /\ totalTicks events = 380
     /\ GenerateSongSquareWave sinf pow m Demo.demosong = Ok samples
     /\ Z.of_nat (List.length samples) = TICK_LENGTH * (380 + 1))
  /\ forall argv, (List.length argv < 2)%nat ->
       main sinf pow m writable failure argv = Ok (mkRun 0 usage None).
Proof.
  destruct (songEvents_demosong (MMLPlayer_new pow m SAMPLE_RATE)
              (MMLPlayer_new_table_length pow m SAMPLE_RATE))
    as (events & E & Hcount & Hticks).
  destruct (render_of_events Demo.demosong events E) as (samples & Hr & Hlen).
  rewrite Hticks in Hlen.
  split.
  { exists events, samples.
    split; [exact E |]. split; [exact Hcount |]. split; [exact Hticks |].
    split; [exact Hr | exact Hlen]. }
  intros argv Hargc. unfold main.
  destruct (Z.ltb_spec (Z.of_nat (List.length argv)) 2); [| lia].
  rewrite strlen_demosong, Hr.
  destruct (Z.gtb_spec (Z.of_nat (List.length argv)) 2); [lia | reflexivity].
Qed.

(** X21. A song that the sequencer rejects makes [main] print the error after
    [Domain Error: ] and write no file, with or without a file name. *)
Theorem main_reports_a_rejected_song (argv : list (list ascii)) (what : string) :
  (2 <= List.length argv)%nat ->
  let str := nth 1 argv [] in
  songEvents (MMLPlayer_new_song pow m SAMPLE_RATE (firstn (strlen str) str)) = Throw what ->
  main sinf pow m writable failure argv
  = Ok (mkRun 0 ("Domain Error: " ++ what ++ newline) None).
Proof.
  intros Hargc str H. unfold main. fold str.
  destruct (Z.ltb_spec (Z.of_nat (List.length argv)) 2); [lia |].
  rewrite (render_Throw sinf pow m _ what H). reflexivity.
Qed.

(** X22. With a song of at most 310 characters that the sequencer accepts and
    the name of a file that can be written, [main] prints nothing and
    writes the render as a wave file: the sizes in its header are those of
    the file, and its samples read back are the render. *)
Theorem main_writes_the_render_as_a_wave_file (argv : list (list ascii))
    (events : list Event) :
  (3 <= List.length argv)%nat ->
  let str := nth 1 argv [] in
  let fname := nth 2 argv [] in
  (strlen str <= 310)%nat ->
  songEvents (MMLPlayer_new_song pow m SAMPLE_RATE (firstn (strlen str) str)) = Ok events ->
  writable fname = true ->
  exists samples bytes,
    GenerateSongSquareWave sinf pow m (firstn (strlen str) str) = Ok samples
    /\ main sinf pow m writable failure argv = Ok (mkRun 0 EmptyString (Some (fname, bytes)))
    /\ Z.of_nat (List.length bytes) = 44 + 2 * Z.of_nat (List.length samples)
    /\ field 4 4 bytes = Z.of_nat (List.length bytes) - 8
    /\ field 40 4 bytes = 2 * Z.of_nat (List.length samples)
    /\ le_samples (skipn 44 bytes) = samples.
Proof.
  intros Hargc str fname Hlen E Hw.
  destruct (render_of_events _ events E) as (samples & Hr & _).
  pose proof (render_size_is_bounded_by_the_text sinf pow m _ samples Hr) as [_ Hsize].
  rewrite length_firstn in Hsize.
  assert (Hsmall : Z.of_nat (List.length samples) < 2 ^ 27)
    by (unfold TICK_LENGTH in Hsize; lia).
  pose proof (renderLoop_int16 _ _ _ Hr ltac:(constructor)) as Hint.
  destruct (WriteMonoWaveFile_spec fname samples (Z.of_nat (List.length samples))
              ltac:(lia) Hsmall)
    as (header & Ew & Hh & _ & H4 & _ & _ & _ & _ & _ & _ & _ & _ & _ & H40).
  destruct (WriteMonoWaveFile_all_samples fname samples Hint) as (bytes & Ew' & Hback).
  rewrite Nat2Z.id, firstn_all in Ew.
  exists samples, bytes. split; [exact Hr |].
  assert (Hbytes : Z.of_nat (List.length bytes) = 44 + 2 * Z.of_nat (List.length samples)).
  { rewrite Ew in Ew'. injection Ew' as <-.
    rewrite length_app, flat_map_int16_bytes_length, Hh. lia. }
  split; [| split; [exact Hbytes | split; [| split; [| exact Hback]]]].
  - unfold main. fold str. fold fname.
    destruct (Z.ltb_spec (Z.of_nat (List.length argv)) 2); [lia |].
    rewrite Hr.
    destruct (Z.gtb_spec (Z.of_nat (List.length argv)) 2); [| lia].
    rewrite Hw, int_wrap_small by lia. rewrite Ew'. reflexivity.
  - rewrite Ew in Ew'. injection Ew' as <-.
    unfold field in *. rewrite slice_app by (rewrite Hh; cbn; lia). lia.
  - rewrite Ew in Ew'. injection Ew' as <-.
    unfold field in *. rewrite slice_app by (rewrite Hh; cbn; lia). lia.
Qed.

End Main.

(** * Instances *)

Lemma Tick_after_the_end_is_silent_witness :
  Tick (mkMMLPlayer (repeat 7 36) ["000"%char] (-1) 1 0 4 (-1))
  = Ok (0, mkMMLPlayer (repeat 7 36) ["000"%char] (-1) 1 0 4 (-2)).
Proof.
  apply (Tick_after_the_end_is_silent (mkMMLPlayer (repeat 7 36) ["000"%char] (-1) 1 0 4 (-1))).
  - apply (Tick_player_ok (Load (mkMMLPlayer (repeat 7 36) [] 0 1 0 4 0) []) 0);
      [apply Load_player_ok |]; reflexivity.
  - reflexivity.
Defined.

Lemma TickBody_overruns_exactly_at_B_sharp_witness :
  TickBody (mkMMLPlayer (repeat 7 36) (chars ">B#4" ++ ["000"%char]) 1 2 0 4 0)
  = OutOfBounds 36.
Proof.
  apply (TickBody_overruns_exactly_at_B_sharp
           (mkMMLPlayer (repeat 7 36) (chars ">B#4" ++ ["000"%char]) 1 2 0 4 0) 36).
  - apply (TickBody_player_ok (Load (mkMMLPlayer (repeat 7 36) [] 0 1 0 4 0) (chars ">B#4"))
             false); [apply Load_player_ok | |]; reflexivity.
  - cbn. lia.
  - split; [reflexivity |]. split; [reflexivity |]. split; [reflexivity |].
    exists "#"%char, "4"%char.
    split; [reflexivity |]. split; [now left |]. split; [reflexivity |]. cbn. lia.
Defined.

Lemma render_only_overruns_at_entry_36_witness :
  GenerateSongSquareWave sinf_small pow_quarters memory_zero (chars "O2B#4") = OutOfBounds 36
  /\ 36 = NUM_OCTAVES * NOTES_PER_OCTAVE.
Proof.
  assert (H : GenerateSongSquareWave sinf_small pow_quarters memory_zero (chars "O2B#4")
              = OutOfBounds 36).
  { unfold GenerateSongSquareWave, tickBudget.
    cbn [MMLPlayer_new_song Load song Nat.add].
    apply renderLoop_OutOfBounds; [reflexivity |].
    apply Tick_O2Bsharp, MMLPlayer_new_table_length. }
  split; [exact H |].
  exact (render_only_overruns_at_entry_36 sinf_small pow_quarters memory_zero
           (chars "O2B#4") 36 H).
Defined.

Lemma main_reports_a_rejected_song_witness :
  main sinf_small pow_quarters memory_zero (fun _ => true) "std::exception"
    [chars "mml"; chars "Z4"; chars "out.wav"]
  = Ok (mkRun 0 ("Domain Error: " ++ "Invalid character in song string" ++ newline) None).
Proof.
  apply (main_reports_a_rejected_song sinf_small pow_quarters memory_zero (fun _ => true)
           "std::exception" [chars "mml"; chars "Z4"; chars "out.wav"]).
  - cbn. lia.
  - reflexivity.
Defined.

Lemma main_writes_the_render_as_a_wave_file_witness :
  exists samples bytes,
    GenerateSongSquareWave sinf_small pow_quarters memory_zero (chars "R0") = Ok samples
    /\ main sinf_small pow_quarters memory_zero (fun _ => true) "std::exception"
         [chars "mml"; chars "R0"; chars "out.wav"]
       = Ok (mkRun 0 EmptyString (Some (chars "out.wav", bytes)))
    /\ Z.of_nat (List.length bytes) = 44 + 2 * Z.of_nat (List.length samples)
    /\ le_samples (skipn 44 bytes) = samples.
Proof.
  destruct (main_writes_the_render_as_a_wave_file sinf_small pow_quarters memory_zero
              (fun _ => true) "std::exception" [chars "mml"; chars "R0"; chars "out.wav"]
              [mkEvent 0 4 0 ((4 + 1) * 1)])
    as (samples & bytes & Hr & Hm & Hlen & _ & _ & Hback).
  - cbn. lia.
  - cbn. lia.
  - reflexivity.
  - reflexivity.
  - exists samples, bytes. repeat split; assumption.
Defined.
